(** * perthame_edp: memoized integral functionals and the alternating solvers

    A shallow embedding of [perthame_edp/model/integral_functional.py] and
    [perthame_edp/model/solver.py].

    Numbers.  numpy's float64 entries are modelled by exact rationals [Qc]
    (canonical fractions, Leibniz equality): the development is about the
    algebraic shape of the updates, about caching and about sequencing, not
    about rounding.  Division by zero, which numpy answers with [inf]/[nan],
    is [0] in [Qc]; nothing below relies on a zero denominator.

    Effects.  Python methods mutate their object and may raise after having
    mutated it.  A computation is a function from the state of the object to
    an outcome (a value or an exception), the state afterwards, and the list
    of external events it performed, oldest first: calls of
    [scipy.integrate.simpson], constructions of solver objects, and the
    method calls issued by the driver loop. *)

From Stdlib Require Import QArith Qcanon.
From stdpp Require Import base numbers list.

Local Open Scope Qc_scope.

(** ** Arrays *)

Abbreviation vec := (list Qc).
Abbreviation mat := (list (list Qc)).
Abbreviation bmat := (list (list bool)).

(** ** Exceptions and outcomes *)

Inductive exn : Type :=
| ShapeMismatch
| IndexError
| ValueError
| TypeError.

Inductive outcome (A : Type) : Type :=
| Ret (a : A)
| Raise (e : exn).
Arguments Ret {A} a.
Arguments Raise {A} e.

#[global] Instance outcome_ret : MRet outcome := @Ret.
#[global] Instance outcome_bind : MBind outcome := fun A B k m =>
  match m with
  | Ret a => k a
  | Raise e => Raise e
  end.

Definition of_option {A} (e : exn) (o : option A) : outcome A :=
  match o with
  | Some a => Ret a
  | None => Raise e
  end.

(** ** External events *)

Inductive method_call : Type :=
| u_actualize_row (row : vec) (n : nat)
| u_actualize_step_np1 (n : nat)
| R_actualize_row (row : vec) (n : nat)
| R_actualize_step_np1 (n : nat).

Inductive event : Type :=
| Simpson (integrand mesh : vec)
| Construct_R
| Construct_u
| Call (c : method_call).

(** ** Computations on a mutable object *)

Definition Comp (St A : Type) : Type := St -> outcome A * St * list event.

#[global] Instance Comp_ret {St} : MRet (Comp St) := fun A a s => (Ret a, s, []).
#[global] Instance Comp_bind {St} : MBind (Comp St) := fun A B k m s =>
  match m s with
  | (Ret a, s1, l1) =>
      match k a s1 with
      | (o, s2, l2) => (o, s2, l1 ++ l2)
      end
  | (Raise e, s1, l1) => (Raise e, s1, l1)
  end.

Definition lift {St A} (o : outcome A) : Comp St A := fun s => (o, s, []).
Definition raise {St A} (e : exn) : Comp St A := lift (Raise e).
Definition get {St} : Comp St St := fun s => (Ret s, s, []).
Definition modify {St} (f : St -> St) : Comp St unit := fun s => (Ret tt, f s, []).
Definition emit {St} (e : event) : Comp St unit := fun s => (Ret tt, s, [e]).

(** Run a method of a component [St'] of the object [St]. *)
Definition zoom {St St' A} (proj : St -> St') (upd : St' -> St -> St)
    (m : Comp St' A) : Comp St A := fun s =>
  match m (proj s) with
  | (o, s', l) => (o, upd s' s, l)
  end.

(** [for j in range(k): body(j)], collecting the values. *)
Fixpoint for_range {St A} (start k : nat) (body : nat -> Comp St A)
    : Comp St (list A) :=
  match k with
  | O => mret []
  | S k' =>
      a ← body start;
      rest ← for_range (S start) k' body;
      mret (a :: rest)
  end.

(** ** numpy *)

Module Np.

(** [a[n]] on the first axis. *)
Definition getrow {A} (a : list A) (n : nat) : outcome A :=
  of_option IndexError (a !! n).

(** [a[n, j]]. *)
Definition get2 {A} (a : list (list A)) (n j : nat) : outcome A :=
  row ← getrow a n; getrow row j.

(** [a[:, k]]. *)
Definition column {A} (a : list (list A)) (k : nat) : outcome (list A) :=
  of_option IndexError (mapM (fun row : list A => row !! k) a).

(** [a[n] = row]: the index must exist and the shapes must agree. *)
Definition setrow {A} (a : list (list A)) (n : nat) (row : list A)
    : outcome (list (list A)) :=
  old ← getrow a n;
  if decide (length row = length old) then Ret (<[n:=row]> a)
  else Raise ValueError.

(** [a[n] = c] with a scalar [c]: the whole row is filled. *)
Definition fillrow {A} (a : list (list A)) (n : nat) (c : A)
    : outcome (list (list A)) :=
  _ ← getrow a n; Ret (alter (fun old => replicate (length old) c) n a).

(** [a[n, j] = c]. *)
Definition set2 {A} (a : list (list A)) (n j : nat) (c : A)
    : outcome (list (list A)) :=
  old ← getrow a n;
  _ ← getrow old j;
  Ret (alter (<[j:=c]>) n a).

(** A possibly negative index on an axis of length [len]. *)
Definition index (len : nat) (i : Z) : outcome nat :=
  if decide (0 ≤ i < Z.of_nat len)%Z then Ret (Z.to_nat i)
  else if decide (- Z.of_nat len ≤ i < 0)%Z then Ret (Z.to_nat (Z.of_nat len + i))
  else Raise IndexError.

(** [a[i, j] = c] with possibly negative indices. *)
Definition set2Z {A} (a : list (list A)) (i j : Z) (c : A)
    : outcome (list (list A)) :=
  n ← index (length a) i;
  old ← getrow a n;
  k ← index (length old) j;
  set2 a n k c.

(** Elementwise binary operation on arrays of one shape. *)
Definition zip {A} (f : A -> A -> A) (a b : list A) : outcome (list A) :=
  if decide (length a = length b) then Ret (zip_with f a b)
  else Raise ValueError.

Definition add : vec -> vec -> outcome vec := zip Qcplus.
Definition mul : vec -> vec -> outcome vec := zip Qcmult.
Definition div : vec -> vec -> outcome vec := zip Qcdiv.

(** Scalar on the left of an array. *)
Definition sadd (c : Qc) (a : vec) : vec := (fun e => c + e) <$> a.
Definition ssub (c : Qc) (a : vec) : vec := (fun e => c - e) <$> a.
Definition smul (c : Qc) (a : vec) : vec := (fun e => c * e) <$> a.
Definition neg (a : vec) : vec := Qcopp <$> a.

(** [np.ones((k,))], [np.zeros((k,))] and [np.zeros((rows, cols))]. *)
Definition ones (k : nat) : vec := replicate k 1.
Definition zeros (k : nat) : vec := replicate k 0.
Definition zeros2 (rows cols : nat) : mat := replicate rows (zeros cols).

(** [np.diag(v, k)]: the square matrix of side [len(v) + |k|] carrying [v]
    on its [k]-th diagonal ([k > 0] above the main one). *)
Definition diag (v : vec) (k : Z) : mat :=
  let side := (length v + Z.abs_nat k)%nat in
  (fun i : nat =>
     (fun j : nat =>
        if decide (Z.of_nat j - Z.of_nat i = k)%Z
        then default 0 (v !! (i `min` j)%nat)
        else 0) <$> seq 0 side) <$> seq 0 side.

(** Elementwise sum of two matrices of one shape. *)
Fixpoint madd (a b : mat) : outcome mat :=
  match a, b with
  | [], [] => Ret []
  | ra :: a', rb :: b' =>
      r ← add ra rb; rest ← madd a' b'; Ret (r :: rest)
  | _, _ => Raise ValueError
  end.

Definition sum (a : vec) : Qc := foldl Qcplus 0 a.

(** [m.dot(v)] for a matrix and a vector. *)
Fixpoint dot (m : mat) (v : vec) : outcome vec :=
  match m with
  | [] => Ret []
  | row :: m' =>
      p ← mul row v; rest ← dot m' v; Ret (sum p :: rest)
  end.

(** [np.linspace(start, stop, num)]; a negative [num] is a ValueError. *)
Definition linspace (start stop : Qc) (num : Z) : outcome vec :=
  if decide (num < 0)%Z then Raise ValueError
  else
    let k := Z.to_nat num in
    let step := (stop - start) / Qc_of_Z (num - 1) in
    Ret ((fun i : nat => start + Qc_of_Z (Z.of_nat i) * step) <$> seq 0 k).

End Np.

(** ** The quadrature interface

    [scipy.integrate.simpson(values, x=mesh)] is an external routine: the
    model is parametric in it, and every call is recorded as an event. *)

Class Quadrature : Type := simpson : vec -> vec -> Qc.

(** ** Meshes and the grid storage *)

Record Mesh : Type := {
  mesh_N : nat;      (* the trait mesh has N + 2 points *)
  mesh_M : nat;      (* the resource mesh has M + 2 points *)
  mesh_T : nat;      (* time rows 0 .. T *)
  mesh_dt : Qc;
  mesh_h1 : Qc;
  mesh_x : vec;
  mesh_y : vec
}.

Module Validators.

(** Modelled from the spec: [validate_nth_row] of
    [perthame_edp/utils/validators.py] is not among the sources.  Spec 4.1:
    "Fails with a ShapeMismatch error if row's length disagrees with the
    expected mesh dimension"; the second argument is the row about to be
    replaced. *)
Definition validate_nth_row (row expected : vec) : outcome unit :=
  if decide (length row = length expected) then Ret tt
  else Raise ShapeMismatch.

(** Modelled from the spec: [DiscreteFunctionValidator] with one or two
    mesh axes, on data already sampled into arrays ("all arrays sampled
    from functions must match these lengths exactly"). *)
Definition discrete1 (cols : nat) (v : vec) : outcome vec :=
  if decide (length v = cols) then Ret v else Raise ShapeMismatch.

Definition discrete2 (rows cols : nat) (m : mat) : outcome mat :=
  if decide (length m = rows ∧ Forall (fun row => length row = cols) m)
  then Ret m else Raise ShapeMismatch.

(** Modelled from the spec: [InitialDiscreteFunctionValidator("t", _)]:
    a buffer of [T + 1] rows whose row 0 is the initial condition, the
    later rows zero-filled. *)
Definition initial (T cols : nat) (row0 : vec) : outcome mat :=
  v ← discrete1 cols row0; Ret (v :: Np.zeros2 T cols).

End Validators.

Module AbstractDiscreteFunction.

(** Modelled from the spec: [perthame_edp/model/discrete_function.py] is
    not among the sources.  The mask is "a boolean matrix, same shape as
    the cache matrix", initially nowhere valid. *)
Definition create_mask (matrix : mat) : bmat :=
  (fun row : vec => (fun _ => false) <$> row) <$> matrix.

(** Modelled from the spec: row-level marking and invalidation of the
    mask ("invalidates every cached entry in cache-row n", "mark it
    computed"). *)
Definition update_mask_row (mask : bmat) (n : nat) (b : bool)
    : outcome bmat :=
  Np.fillrow mask n b.

(** Modelled from the spec: a row is "already marked computed" when its
    whole mask row is set. *)
Definition is_row_calculated (mask : bmat) (n : nat) : outcome bool :=
  row ← Np.getrow mask n; Ret (forallb id row).

(** Modelled from the spec: the mesh built by the constructor from the
    discretization parameters, with [h1] the spacing of the trait mesh. *)
Definition init (x_lims y_lims : Qc * Qc) (N M : nat) (dt : Qc) (T : nat)
    : outcome Mesh :=
  x ← Np.linspace x_lims.1 x_lims.2 (Z.of_nat N + 2);
  y ← Np.linspace y_lims.1 y_lims.2 (Z.of_nat M + 2);
  Ret {| mesh_N := N; mesh_M := M; mesh_T := T; mesh_dt := dt;
         mesh_h1 := (x_lims.2 - x_lims.1) / Qc_of_Z (Z.of_nat N + 1);
         mesh_x := x; mesh_y := y |}.

End AbstractDiscreteFunction.

(** ** integral_functional.py *)

Module FunctionalF.
Import Validators AbstractDiscreteFunction.

Record t : Type := {
  mesh : Mesh;
  K : mat;         (* (N + 2) x (M + 2) *)
  R : mat;         (* (T + 1) x (M + 2), the private copy of the resource *)
  matrix : mat;    (* (T + 1) x (N + 2), the cache *)
  mask : bmat
}.

Definition set_R (v : mat) (self : t) : t :=
  {| mesh := mesh self; K := K self; R := v;
     matrix := matrix self; mask := mask self |}.
Definition set_matrix (v : mat) (self : t) : t :=
  {| mesh := mesh self; K := K self; R := R self;
     matrix := v; mask := mask self |}.
Definition set_mask (v : bmat) (self : t) : t :=
  {| mesh := mesh self; K := K self; R := R self;
     matrix := matrix self; mask := v |}.

Definition init (K0 : mat) (R_0 : vec) (m : Mesh) : outcome t :=
  K0 ← discrete2 (mesh_N m + 2) (mesh_M m + 2) K0;
  R0 ← initial (mesh_T m) (mesh_M m + 2) R_0;
  let matrix0 := Np.zeros2 (mesh_T m + 1) (mesh_N m + 2) in
  Ret {| mesh := m; K := K0; R := R0; matrix := matrix0;
         mask := create_mask matrix0 |}.

Section Methods.
Context `{Quadrature}.

Definition actualize_row (row : vec) (n : nat) : Comp t unit :=
  self ← get;
  old ← lift (Np.getrow (R self) n);
  lift (validate_nth_row row old);;
  R' ← lift (Np.setrow (R self) n row);
  modify (set_R R');;
  self ← get;
  mask' ← lift (update_mask_row (mask self) n false);
  modify (set_mask mask').

Definition call (n j : nat) : Comp t Qc :=
  self ← get;
  valid ← lift (Np.get2 (mask self) n j);
  if negb valid then
    Kj ← lift (Np.getrow (K self) j);
    Rn ← lift (Np.getrow (R self) n);
    array_to_integrate ← lift (Np.mul Kj Rn);
    emit (Simpson array_to_integrate (mesh_y (mesh self)));;
    let integral_value := simpson array_to_integrate (mesh_y (mesh self)) in
    matrix' ← lift (Np.set2 (matrix self) n j integral_value);
    modify (set_matrix matrix');;
    self ← get;
    mask' ← lift (Np.set2 (mask self) n j true);
    modify (set_mask mask');;
    mret integral_value
  else
    lift (Np.get2 (matrix self) n j).

(** Modelled from the spec: [F[n]], the inherited [__getitem__], is "the
    functional value (vector over trait points) evaluated lazily per
    4.1": one memoized evaluation per column of cache row [n]. *)
Definition getitem (n : nat) : Comp t vec :=
  self ← get;
  row ← lift (Np.getrow (matrix self) n);
  for_range 0 (length row) (call n).

End Methods.
End FunctionalF.

Module FunctionalG.
Import Validators AbstractDiscreteFunction.

Record t : Type := {
  mesh : Mesh;
  r : vec;         (* N + 2 *)
  K : mat;         (* (N + 2) x (M + 2) *)
  u : mat;         (* (T + 1) x (N + 2), the private copy of the population *)
  matrix : mat;    (* (T + 1) x (M + 2), the cache *)
  mask : bmat
}.

Definition set_u (v : mat) (self : t) : t :=
  {| mesh := mesh self; r := r self; K := K self; u := v;
     matrix := matrix self; mask := mask self |}.
Definition set_matrix (v : mat) (self : t) : t :=
  {| mesh := mesh self; r := r self; K := K self; u := u self;
     matrix := v; mask := mask self |}.
Definition set_mask (v : bmat) (self : t) : t :=
  {| mesh := mesh self; r := r self; K := K self; u := u self;
     matrix := matrix self; mask := v |}.

Definition init (r0 : vec) (K0 : mat) (u_0 : vec) (m : Mesh) : outcome t :=
  K0 ← discrete2 (mesh_N m + 2) (mesh_M m + 2) K0;
  r0 ← discrete1 (mesh_N m + 2) r0;
  u0 ← initial (mesh_T m) (mesh_N m + 2) u_0;
  let matrix0 := Np.zeros2 (mesh_T m + 1) (mesh_M m + 2) in
  Ret {| mesh := m; r := r0; K := K0; u := u0; matrix := matrix0;
         mask := create_mask matrix0 |}.

Section Methods.
Context `{Quadrature}.

Definition actualize_row (row : vec) (n : nat) : Comp t unit :=
  self ← get;
  old ← lift (Np.getrow (u self) n);
  lift (validate_nth_row row old);;
  u' ← lift (Np.setrow (u self) n row);
  modify (set_u u');;
  self ← get;
  mask' ← lift (update_mask_row (mask self) n false);
  modify (set_mask mask').

Definition call (n k : nat) : Comp t Qc :=
  self ← get;
  valid ← lift (Np.get2 (mask self) n k);
  if negb valid then
    Kk ← lift (Np.column (K self) k);
    rK ← lift (Np.mul (r self) Kk);
    un ← lift (Np.getrow (u self) n);
    array_to_integrate ← lift (Np.mul rK un);
    emit (Simpson array_to_integrate (mesh_x (mesh self)));;
    let integral_value := simpson array_to_integrate (mesh_x (mesh self)) in
    matrix' ← lift (Np.set2 (matrix self) n k integral_value);
    modify (set_matrix matrix');;
    self ← get;
    mask' ← lift (Np.set2 (mask self) n k true);
    modify (set_mask mask');;
    mret integral_value
  else
    lift (Np.get2 (matrix self) n k).

(** Modelled from the spec: [G[n]], as [FunctionalF.getitem]. *)
Definition getitem (n : nat) : Comp t vec :=
  self ← get;
  row ← lift (Np.getrow (matrix self) n);
  for_range 0 (length row) (call n).

End Methods.
End FunctionalG.

(** ** solver.py *)

Module AbstractSolver.

Record t : Type := {
  mesh : Mesh;
  r : vec;
  K : mat;
  u : mat;               (* (T + 1) x (N + 2) *)
  R : mat;               (* (T + 1) x (M + 2) *)
  current_step : nat
}.

Definition set_u (v : mat) (self : t) : t :=
  {| mesh := mesh self; r := r self; K := K self; u := v; R := R self;
     current_step := current_step self |}.
Definition set_R (v : mat) (self : t) : t :=
  {| mesh := mesh self; r := r self; K := K self; u := u self; R := v;
     current_step := current_step self |}.
Definition set_current_step (v : nat) (self : t) : t :=
  {| mesh := mesh self; r := r self; K := K self; u := u self; R := R self;
     current_step := v |}.

Definition init (r0 : vec) (K0 : mat) (u_0 R_0 : vec) (m : Mesh)
    : outcome t :=
  r0 ← Validators.discrete1 (mesh_N m + 2) r0;
  K0 ← Validators.discrete2 (mesh_N m + 2) (mesh_M m + 2) K0;
  u0 ← Validators.initial (mesh_T m) (mesh_N m + 2) u_0;
  R0 ← Validators.initial (mesh_T m) (mesh_M m + 2) R_0;
  Ret {| mesh := m; r := r0; K := K0; u := u0; R := R0;
         current_step := 0 |}.

Definition is_next_step (n : nat) : Comp t bool :=
  self ← get; mret (bool_decide (n ≤ current_step self + 1)%nat).

Definition update_step (n : nat) : Comp t unit :=
  modify (set_current_step (n + 1)).

End AbstractSolver.

Module AbstractSolverU.
Import Validators AbstractDiscreteFunction.

(** The solver's [_matrix] is the very array [_u] of its base part. *)
Record t : Type := {
  base : AbstractSolver.t;
  m_1 : vec;
  eps : Qc;
  F : FunctionalF.t;
  mask : bmat
}.

Definition set_base (v : AbstractSolver.t) (self : t) : t :=
  {| base := v; m_1 := m_1 self; eps := eps self; F := F self;
     mask := mask self |}.
Definition set_F (v : FunctionalF.t) (self : t) : t :=
  {| base := base self; m_1 := m_1 self; eps := eps self; F := v;
     mask := mask self |}.
Definition set_mask (v : bmat) (self : t) : t :=
  {| base := base self; m_1 := m_1 self; eps := eps self; F := F self;
     mask := v |}.

(** [eps] is declared [Float(lower_bound=(0, True))]: a negative mutation
    rate is rejected at construction. *)
Definition init (m_1_ : vec) (eps_ : Qc) (r0 : vec) (K0 : mat)
    (u_0 R_0 : vec) (m : Mesh) : outcome t :=
  b ← AbstractSolver.init r0 K0 u_0 R_0 m;
  m1 ← discrete1 (mesh_N m + 2) m_1_;
  e ← (if decide (0 ≤ eps_) then Ret eps_ else Raise ValueError);
  f ← FunctionalF.init K0 R_0 m;
  mask0 ← update_mask_row (create_mask (AbstractSolver.u b)) 0 true;
  Ret {| base := b; m_1 := m1; eps := e; F := f; mask := mask0 |}.

Section Methods.
Context `{Quadrature}.

Definition actualize_row (row : vec) (n : nat) : Comp t unit :=
  self ← get;
  old ← lift (Np.getrow (AbstractSolver.R (base self)) n);
  lift (validate_nth_row row old);;
  R' ← lift (Np.setrow (AbstractSolver.R (base self)) n row);
  zoom base set_base (modify (AbstractSolver.set_R R'));;
  zoom F set_F (FunctionalF.actualize_row row n);;
  self ← get;
  mask' ← lift (update_mask_row (mask self) n false);
  modify (set_mask mask').

(** Modelled from the spec: [u[n]] on a solver is the grid storage's
    [get_row(n)]. *)
Definition getitem (n : nat) : Comp t vec :=
  self ← get; lift (Np.getrow (AbstractSolver.u (base self)) n).

End Methods.
End AbstractSolverU.

Module AbstractSolverR.
Import Validators AbstractDiscreteFunction.

(** The solver's [_matrix] is the very array [_R] of its base part. *)
Record t : Type := {
  base : AbstractSolver.t;
  m_2 : vec;
  R_in : vec;
  G : FunctionalG.t;
  mask : bmat
}.

Definition set_base (v : AbstractSolver.t) (self : t) : t :=
  {| base := v; m_2 := m_2 self; R_in := R_in self; G := G self;
     mask := mask self |}.
Definition set_G (v : FunctionalG.t) (self : t) : t :=
  {| base := base self; m_2 := m_2 self; R_in := R_in self; G := v;
     mask := mask self |}.
Definition set_mask (v : bmat) (self : t) : t :=
  {| base := base self; m_2 := m_2 self; R_in := R_in self; G := G self;
     mask := v |}.

Definition init (m_2_ R_in_ r0 : vec) (K0 : mat) (u_0 R_0 : vec) (m : Mesh)
    : outcome t :=
  b ← AbstractSolver.init r0 K0 u_0 R_0 m;
  m2 ← discrete1 (mesh_M m + 2) m_2_;
  Rin ← discrete1 (mesh_M m + 2) R_in_;
  g ← FunctionalG.init r0 K0 u_0 m;
  mask0 ← update_mask_row (create_mask (AbstractSolver.R b)) 0 true;
  Ret {| base := b; m_2 := m2; R_in := Rin; G := g; mask := mask0 |}.

Section Methods.
Context `{Quadrature}.

Definition actualize_row (row : vec) (n : nat) : Comp t unit :=
  self ← get;
  old ← lift (Np.getrow (AbstractSolver.u (base self)) n);
  lift (validate_nth_row row old);;
  u' ← lift (Np.setrow (AbstractSolver.u (base self)) n row);
  zoom base set_base (modify (AbstractSolver.set_u u'));;
  zoom G set_G (FunctionalG.actualize_row row n);;
  self ← get;
  mask' ← lift (update_mask_row (mask self) n false);
  modify (set_mask mask').

(** Modelled from the spec: [R[n]] on a solver is the grid storage's
    [get_row(n)]. *)
Definition getitem (n : nat) : Comp t vec :=
  self ← get; lift (Np.getrow (AbstractSolver.R (base self)) n).

End Methods.
End AbstractSolverR.

Module SolverU.
Import AbstractDiscreteFunction AbstractSolverU.

Section Methods.
Context `{Quadrature}.

Definition create_transition_matrix (n : nat) : Comp t mat :=
  self ← get;
  let msh := AbstractSolver.mesh (base self) in
  let alpha := eps self * mesh_dt msh / mesh_h1 msh ^ 2 in
  let alpha_array := (fun e => e * alpha) <$> Np.ones (mesh_N msh + 1) in
  let upper_matrix := Np.diag alpha_array 1 in
  let lower_matrix := Np.diag alpha_array (-1) in
  let corner := 2 * alpha in
  upper_matrix ← lift (Np.set2Z upper_matrix 0 1 corner);
  lower_matrix ← lift (Np.set2Z lower_matrix (-1) (-2) corner);
  Fn ← zoom F set_F (FunctionalF.getitem n);
  rF ← lift (Np.mul (AbstractSolver.r (base self)) Fn);
  A_n ← lift (Np.add (Np.neg (m_1 self)) rF);
  let beta_array := Np.sadd (1 - 2 * alpha) (Np.smul (mesh_dt msh) A_n) in
  let central_matrix := Np.diag beta_array 0 in
  lc ← lift (Np.madd lower_matrix central_matrix);
  lift (Np.madd lc upper_matrix).

Definition actualize_step_np1 (n : nat) : Comp t vec :=
  self ← get;
  calculated ← lift (is_row_calculated (mask self) (n + 1));
  (if negb calculated then
     Mn ← create_transition_matrix n;
     self ← get;
     un ← lift (Np.getrow (AbstractSolver.u (base self)) n);
     new ← lift (Np.dot Mn un);
     u' ← lift (Np.setrow (AbstractSolver.u (base self)) (n + 1) new);
     zoom base set_base (modify (AbstractSolver.set_u u'));;
     self ← get;
     mask' ← lift (update_mask_row (mask self) (n + 1) true);
     modify (set_mask mask')
   else mret tt);;
  self ← get;
  lift (Np.getrow (AbstractSolver.u (base self)) (n + 1)).

End Methods.
End SolverU.

Module SolverRMethod1.
Import AbstractDiscreteFunction AbstractSolverR.

Section Methods.
Context `{Quadrature}.

Definition actualize_step_np1 (n : nat) : Comp t vec :=
  self ← get;
  calculated ← lift (is_row_calculated (mask self) (n + 1));
  (if negb calculated then
     let dt := mesh_dt (AbstractSolver.mesh (base self)) in
     Gn ← zoom G set_G (FunctionalG.getitem n);
     self ← get;
     m2G ← lift (Np.add (m_2 self) Gn);
     Rn ← lift (Np.getrow (AbstractSolver.R (base self)) n);
     decay ← lift (Np.mul (Np.ssub 1 (Np.smul dt m2G)) Rn);
     new ← lift (Np.add decay (Np.smul dt (R_in self)));
     R' ← lift (Np.setrow (AbstractSolver.R (base self)) (n + 1) new);
     zoom base set_base (modify (AbstractSolver.set_R R'));;
     self ← get;
     mask' ← lift (update_mask_row (mask self) (n + 1) true);
     modify (set_mask mask')
   else mret tt);;
  self ← get;
  lift (Np.getrow (AbstractSolver.R (base self)) (n + 1)).

End Methods.
End SolverRMethod1.

Module SolverRMethod2.
Import AbstractDiscreteFunction AbstractSolverR.

Section Methods.
Context `{Quadrature}.

Definition actualize_step_np1 (n : nat) : Comp t vec :=
  self ← get;
  calculated ← lift (is_row_calculated (mask self) (n + 1));
  (if negb calculated then
     G_np1 ← zoom G set_G (FunctionalG.getitem (n + 1));
     self ← get;
     m2G ← lift (Np.add (m_2 self) G_np1);
     R_np1 ← lift (Np.div (R_in self) m2G);
     R' ← lift (Np.setrow (AbstractSolver.R (base self)) (n + 1) R_np1);
     zoom base set_base (modify (AbstractSolver.set_R R'));;
     self ← get;
     mask' ← lift (update_mask_row (mask self) (n + 1) true);
     modify (set_mask mask')
   else mret tt);;
  self ← get;
  lift (Np.getrow (AbstractSolver.R (base self)) (n + 1)).

End Methods.
End SolverRMethod2.

(** ** The driver: [solve_perthame] *)

(** The classes registered in [DICT_SOLVERS_R]; [solver_R=None] selects
    [SolverRMethod1]. *)
Inductive SolverR_class : Type := Method1 | Method2.

Record Solvers : Type := {
  solver_u : AbstractSolverU.t;
  solver_R : AbstractSolverR.t
}.

Definition set_solver_u (v : AbstractSolverU.t) (s : Solvers) : Solvers :=
  {| solver_u := v; solver_R := solver_R s |}.
Definition set_solver_R (v : AbstractSolverR.t) (s : Solvers) : Solvers :=
  {| solver_u := solver_u s; solver_R := v |}.

Section Driver.
Context `{Quadrature}.

Definition on_u {A} (m : Comp AbstractSolverU.t A) : Comp Solvers A :=
  zoom solver_u set_solver_u m.
Definition on_R {A} (m : Comp AbstractSolverR.t A) : Comp Solvers A :=
  zoom solver_R set_solver_R m.

Definition R_step (cls : SolverR_class) (n : nat)
    : Comp AbstractSolverR.t vec :=
  match cls with
  | Method1 => SolverRMethod1.actualize_step_np1 n
  | Method2 => SolverRMethod2.actualize_step_np1 n
  end.

(** The body of [for n in range(T)]; a method call is recorded when it is
    issued, after its arguments have been evaluated. *)
Definition iteration (cls : SolverR_class) (n : nat) : Comp Solvers unit :=
  Rn ← on_R (AbstractSolverR.getitem n);
  emit (Call (u_actualize_row Rn n));;
  on_u (AbstractSolverU.actualize_row Rn n);;
  emit (Call (u_actualize_step_np1 n));;
  on_u (SolverU.actualize_step_np1 n);;
  u_np1 ← on_u (AbstractSolverU.getitem (n + 1));
  emit (Call (R_actualize_row u_np1 (n + 1)));;
  on_R (AbstractSolverR.actualize_row u_np1 (n + 1));;
  emit (Call (R_actualize_step_np1 n));;
  on_R (R_step cls n);;
  mret tt.

Definition loop (cls : SolverR_class) (T : nat) : Comp Solvers unit :=
  for_range 0 T (iteration cls);; mret tt.

(** Lines 37-46: the meshes and the sampled coefficient arrays.  [N] is a
    Python integer, [y_lims] and [M] may have been left at [None]. *)
Record Sampled : Type := {
  s_y_lims : Qc * Qc; s_M : Z;   (* what [y_lims] and [M] held *)
  s_x : vec; s_y : vec;
  s_u_0 : vec; s_R_0 : vec; s_r : vec; s_R_in : vec;
  s_m_1 : vec; s_m_2 : vec; s_K : mat
}.

Definition sample (u_0 R_0 r R_in m_1 m_2 : Qc -> Qc) (K : Qc -> Qc -> Qc)
    (x_lims : Qc * Qc) (y_lims : option (Qc * Qc)) (N : Z) (M : option Z)
    : outcome Sampled :=
  x ← Np.linspace x_lims.1 x_lims.2 (N + 2);
  y_lims ← of_option TypeError y_lims;
  M ← of_option TypeError M;
  y ← Np.linspace y_lims.1 y_lims.2 (M + 2);
  Ret {| s_y_lims := y_lims; s_M := M; s_x := x; s_y := y;
         s_u_0 := u_0 <$> x; s_R_0 := R_0 <$> y; s_r := r <$> x;
         s_R_in := R_in <$> y; s_m_1 := m_1 <$> x; s_m_2 := m_2 <$> y;
         s_K := (fun x_ => K x_ <$> y) <$> x |}.

(** Modelled from the spec: the mesh sizes handed to the constructors are
    counts ("coefficients outside declared bounds are rejected at
    construction time"). *)
Definition count (v : Z) : outcome nat :=
  if decide (0 ≤ v)%Z then Ret (Z.to_nat v) else Raise ValueError.

(** What each constructor makes of [**disc_configs]. *)
Definition disc_configs (x_lims : Qc * Qc) (a : Sampled) (N : Z) (dt : Qc)
    (T : nat) : outcome Mesh :=
  N ← count N;
  M ← count (s_M a);
  AbstractDiscreteFunction.init x_lims (s_y_lims a) N M dt T.

Definition solve_perthame (u_0 R_0 r R_in m_1 m_2 : Qc -> Qc)
    (K : Qc -> Qc -> Qc) (eps : Qc) (cls : option SolverR_class)
    (x_lims : Qc * Qc) (y_lims : option (Qc * Qc)) (N : Z) (M : option Z)
    (dt : Qc) (T : option nat) : outcome Solvers * list event :=
  match sample u_0 R_0 r R_in m_1 m_2 K x_lims y_lims N M with
  | Raise e => (Raise e, [])
  | Ret a =>
      let T := default 100%nat T in
      let cls := default Method1 cls in
      match disc_configs x_lims a N dt T
            ≫= AbstractSolverR.init (s_m_2 a) (s_R_in a) (s_r a)
                 (s_K a) (s_u_0 a) (s_R_0 a) with
      | Raise e => (Raise e, [Construct_R])
      | Ret R =>
          match disc_configs x_lims a N dt T
                ≫= AbstractSolverU.init (s_m_1 a) eps (s_r a)
                     (s_K a) (s_u_0 a) (s_R_0 a) with
          | Raise e => (Raise e, [Construct_R; Construct_u])
          | Ret u =>
              match loop cls T {| solver_u := u; solver_R := R |} with
              | (Ret _, s, l) => (Ret s, Construct_R :: Construct_u :: l)
              | (Raise e, _, l) => (Raise e, Construct_R :: Construct_u :: l)
              end
          end
      end
  end.

End Driver.

(** ** A reference quadrature

    scipy's composite Simpson rule for samples on an arbitrary mesh, taken
    over consecutive pairs of intervals; a trailing single interval is closed
    by the trapezoid rule.  It is used to run the model on examples. *)

Fixpoint simpson_pairs (fuel : nat) (ys xs : vec) : Qc :=
  match fuel with
  | O => 0
  | S fuel' =>
      match ys, xs with
      | y0 :: y1 :: y2 :: ys', x0 :: x1 :: x2 :: xs' =>
          let h0 := x1 - x0 in
          let h1 := x2 - x1 in
          let hsum := h0 + h1 in
          hsum / (1 + 1 + 1 + 1 + 1 + 1) *
            (y0 * (2 - h1 / h0) + y1 * (hsum * hsum / (h0 * h1))
             + y2 * (2 - h0 / h1))
          + simpson_pairs fuel' (y2 :: ys') (x2 :: xs')
      | [y0; y1], [x0; x1] => (x1 - x0) * (y0 + y1) / 2
      | _, _ => 0
      end
  end.

Definition simpson_ref : Quadrature := fun ys xs => simpson_pairs (length ys) ys xs.


(** ** The abstract classes

    [AbstractIntegralFunctional] and [AbstractSolver] declare the methods
    that their concrete classes implement; a call on an object of the
    abstract type runs the method of the object's own class. *)

Definition dispatch {St St' A} (inj : St' -> St) (m : Comp St' A) (s' : St')
    : outcome A * St * list event :=
  match m s' with
  | (o, s1, l) => (o, inj s1, l)
  end.

Module IntegralFunctional.

Inductive t : Type :=
| F (f : FunctionalF.t)
| G (g : FunctionalG.t).

Section Methods.
Context `{Quadrature}.

Definition actualize_row (row : vec) (n : nat) : Comp t unit := fun self =>
  match self with
  | F f => dispatch F (FunctionalF.actualize_row row n) f
  | G g => dispatch G (FunctionalG.actualize_row row n) g
  end.

Definition call (n j : nat) : Comp t Qc := fun self =>
  match self with
  | F f => dispatch F (FunctionalF.call n j) f
  | G g => dispatch G (FunctionalG.call n j) g
  end.

End Methods.

(** The attributes that both classes have. *)
Definition mesh (self : t) : Mesh :=
  match self with F f => FunctionalF.mesh f | G g => FunctionalG.mesh g end.
Definition matrix (self : t) : mat :=
  match self with F f => FunctionalF.matrix f | G g => FunctionalG.matrix g end.
Definition mask (self : t) : bmat :=
  match self with F f => FunctionalF.mask f | G g => FunctionalG.mask g end.

(** The private copy of the field the functional integrates against: [_R]
    for [FunctionalF], [_u] for [FunctionalG]. *)
Definition dependency (self : t) : mat :=
  match self with F f => FunctionalF.R f | G g => FunctionalG.u g end.

(** The mesh the functional integrates over: [y] for [FunctionalF], [x] for
    [FunctionalG]. *)
Definition nodes (self : t) : vec :=
  match self with
  | F f => mesh_y (FunctionalF.mesh f)
  | G g => mesh_x (FunctionalG.mesh g)
  end.

End IntegralFunctional.

Module Solver.

Inductive t : Type :=
| U (s : AbstractSolverU.t)
| R1 (s : AbstractSolverR.t)
| R2 (s : AbstractSolverR.t).

Section Methods.
Context `{Quadrature}.

Definition actualize_row (row : vec) (n : nat) : Comp t unit := fun self =>
  match self with
  | U s => dispatch U (AbstractSolverU.actualize_row row n) s
  | R1 s => dispatch R1 (AbstractSolverR.actualize_row row n) s
  | R2 s => dispatch R2 (AbstractSolverR.actualize_row row n) s
  end.

Definition actualize_step_np1 (n : nat) : Comp t vec := fun self =>
  match self with
  | U s => dispatch U (SolverU.actualize_step_np1 n) s
  | R1 s => dispatch R1 (SolverRMethod1.actualize_step_np1 n) s
  | R2 s => dispatch R2 (SolverRMethod2.actualize_step_np1 n) s
  end.

End Methods.

Definition base (self : t) : AbstractSolver.t :=
  match self with
  | U s => AbstractSolverU.base s
  | R1 s | R2 s => AbstractSolverR.base s
  end.

Definition current_step (self : t) : nat := AbstractSolver.current_step (base self).

(** The union's [_matrix]: [_u] for a solver of [u], [_R] for one of [R]. *)
Definition matrix (self : t) : mat :=
  match self with
  | U s => AbstractSolver.u (AbstractSolverU.base s)
  | R1 s | R2 s => AbstractSolver.R (AbstractSolverR.base s)
  end.

Definition mask (self : t) : bmat :=
  match self with
  | U s => AbstractSolverU.mask s
  | R1 s | R2 s => AbstractSolverR.mask s
  end.

(** The private copy of the companion field: [_R] for a solver of [u], [_u]
    for one of [R]. *)
Definition companion (self : t) : mat :=
  match self with
  | U s => AbstractSolver.R (AbstractSolverU.base s)
  | R1 s | R2 s => AbstractSolver.u (AbstractSolverR.base s)
  end.

Definition functional (self : t) : IntegralFunctional.t :=
  match self with
  | U s => IntegralFunctional.F (AbstractSolverU.F s)
  | R1 s | R2 s => IntegralFunctional.G (AbstractSolverR.G s)
  end.

End Solver.
(** ** Well-formed objects

    The shapes that the constructors establish and every method keeps. *)

Definition shape {A} (rows cols : nat) (m : list (list A)) : Prop :=
  length m = rows ∧ Forall (fun row => length row = cols) m.

Definition wf_F (f : FunctionalF.t) : Prop :=
  let m := FunctionalF.mesh f in
  shape (mesh_N m + 2) (mesh_M m + 2) (FunctionalF.K f) ∧
  shape (mesh_T m + 1) (mesh_M m + 2) (FunctionalF.R f) ∧
  shape (mesh_T m + 1) (mesh_N m + 2) (FunctionalF.matrix f) ∧
  shape (mesh_T m + 1) (mesh_N m + 2) (FunctionalF.mask f).

Definition wf_G (g : FunctionalG.t) : Prop :=
  let m := FunctionalG.mesh g in
  length (FunctionalG.r g) = (mesh_N m + 2)%nat ∧
  shape (mesh_N m + 2) (mesh_M m + 2) (FunctionalG.K g) ∧
  shape (mesh_T m + 1) (mesh_N m + 2) (FunctionalG.u g) ∧
  shape (mesh_T m + 1) (mesh_M m + 2) (FunctionalG.matrix g) ∧
  shape (mesh_T m + 1) (mesh_M m + 2) (FunctionalG.mask g).

Definition wf_base (b : AbstractSolver.t) : Prop :=
  let m := AbstractSolver.mesh b in
  length (AbstractSolver.r b) = (mesh_N m + 2)%nat ∧
  shape (mesh_N m + 2) (mesh_M m + 2) (AbstractSolver.K b) ∧
  shape (mesh_T m + 1) (mesh_N m + 2) (AbstractSolver.u b) ∧
  shape (mesh_T m + 1) (mesh_M m + 2) (AbstractSolver.R b).

Definition wf_U (s : AbstractSolverU.t) : Prop :=
  let m := AbstractSolver.mesh (AbstractSolverU.base s) in
  wf_base (AbstractSolverU.base s) ∧
  length (AbstractSolverU.m_1 s) = (mesh_N m + 2)%nat ∧
  wf_F (AbstractSolverU.F s) ∧
  FunctionalF.mesh (AbstractSolverU.F s) = m ∧
  shape (mesh_T m + 1) (mesh_N m + 2) (AbstractSolverU.mask s).

Definition wf_R (s : AbstractSolverR.t) : Prop :=
  let m := AbstractSolver.mesh (AbstractSolverR.base s) in
  wf_base (AbstractSolverR.base s) ∧
  length (AbstractSolverR.m_2 s) = (mesh_M m + 2)%nat ∧
  length (AbstractSolverR.R_in s) = (mesh_M m + 2)%nat ∧
  wf_G (AbstractSolverR.G s) ∧
  FunctionalG.mesh (AbstractSolverR.G s) = m ∧
  shape (mesh_T m + 1) (mesh_M m + 2) (AbstractSolverR.mask s).

Definition wf_solvers (s : Solvers) : Prop :=
  wf_U (solver_u s) ∧ wf_R (solver_R s) ∧
  AbstractSolver.mesh (AbstractSolverU.base (solver_u s)) =
  AbstractSolver.mesh (AbstractSolverR.base (solver_R s)).


(** ** What a functional answers at a time row

    The value of the functional at [(n, j)] as an evaluation finds it: the
    cached entry where the mask is set, the quadrature of the current
    dependency row where it is not. *)

Definition FunctionalF_integrand_of (f : FunctionalF.t) (j : nat) (row : vec)
    : vec :=
  zip_with Qcmult (default [] (FunctionalF.K f !! j)) row.

Definition FunctionalF_integrand (f : FunctionalF.t) (n j : nat) : vec :=
  FunctionalF_integrand_of f j (default [] (FunctionalF.R f !! n)).

Definition cached {A} (a : list (list A)) (n j : nat) : option A :=
  a !! n ≫= (.!! j).

Definition FunctionalF_value `{Quadrature} (f : FunctionalF.t) (n j : nat) : Qc :=
  if default false (cached (FunctionalF.mask f) n j)
  then default 0 (cached (FunctionalF.matrix f) n j)
  else simpson (FunctionalF_integrand f n j) (mesh_y (FunctionalF.mesh f)).

Definition FunctionalF_row `{Quadrature} (f : FunctionalF.t) (n : nat) : vec :=
  FunctionalF_value f n <$> seq 0 (mesh_N (FunctionalF.mesh f) + 2).

Definition FunctionalF_quadratures (f : FunctionalF.t) (n : nat) : list event :=
  concat ((fun j =>
             if default false (cached (FunctionalF.mask f) n j) then []
             else [Simpson (FunctionalF_integrand f n j)
                           (mesh_y (FunctionalF.mesh f))])
          <$> seq 0 (mesh_N (FunctionalF.mesh f) + 2)).

Definition FunctionalG_integrand_of (g : FunctionalG.t) (k : nat) (row : vec)
    : vec :=
  zip_with Qcmult
    (zip_with Qcmult (FunctionalG.r g)
       ((fun Ki : vec => default 0 (Ki !! k)) <$> FunctionalG.K g))
    row.

Definition FunctionalG_integrand (g : FunctionalG.t) (n k : nat) : vec :=
  FunctionalG_integrand_of g k (default [] (FunctionalG.u g !! n)).

Definition FunctionalG_value `{Quadrature} (g : FunctionalG.t) (n k : nat) : Qc :=
  if default false (cached (FunctionalG.mask g) n k)
  then default 0 (cached (FunctionalG.matrix g) n k)
  else simpson (FunctionalG_integrand g n k) (mesh_x (FunctionalG.mesh g)).

Definition FunctionalG_row `{Quadrature} (g : FunctionalG.t) (n : nat) : vec :=
  FunctionalG_value g n <$> seq 0 (mesh_M (FunctionalG.mesh g) + 2).

Definition FunctionalG_quadratures (g : FunctionalG.t) (n : nat) : list event :=
  concat ((fun k =>
             if default false (cached (FunctionalG.mask g) n k) then []
             else [Simpson (FunctionalG_integrand g n k)
                           (mesh_x (FunctionalG.mesh g))])
          <$> seq 0 (mesh_M (FunctionalG.mesh g) + 2)).

(** The first [j] entries of [new] followed by the entries of [old] from
    position [j] on: a cache row after the evaluations at columns below [j]. *)
Definition overwrite_prefix {A} (j : nat) (new old : list A) : list A :=
  take j new ++ drop j old.

(** ** Functionals of either class *)

Definition wf_functional (phi : IntegralFunctional.t) : Prop :=
  match phi with
  | IntegralFunctional.F f => wf_F f
  | IntegralFunctional.G g => wf_G g
  end.

(** The length of a row of the dependency: [M + 2] for [FunctionalF],
    [N + 2] for [FunctionalG]. *)
Definition dependency_width (phi : IntegralFunctional.t) : nat :=
  match phi with
  | IntegralFunctional.F f => mesh_M (FunctionalF.mesh f) + 2
  | IntegralFunctional.G g => mesh_N (FunctionalG.mesh g) + 2
  end.

(** The length of a row of the cache: [N + 2] for [FunctionalF], [M + 2]
    for [FunctionalG]. *)
Definition cache_width (phi : IntegralFunctional.t) : nat :=
  match phi with
  | IntegralFunctional.F f => mesh_N (FunctionalF.mesh f) + 2
  | IntegralFunctional.G g => mesh_M (FunctionalG.mesh g) + 2
  end.

(** The array handed to the quadrature for column [j] when the dependency
    row is [row]: [K[j] * row] for [FunctionalF], [r * K[:, j] * row] for
    [FunctionalG]. *)
Definition integrand_of (phi : IntegralFunctional.t) (j : nat) (row : vec)
    : vec :=
  match phi with
  | IntegralFunctional.F f => FunctionalF_integrand_of f j row
  | IntegralFunctional.G g => FunctionalG_integrand_of g j row
  end.

(** The same with the stored dependency row [n]. *)
Definition integrand (phi : IntegralFunctional.t) (n j : nat) : vec :=
  integrand_of phi j (default [] (IntegralFunctional.dependency phi !! n)).

(** The object with [matrix[n, j] = v] and [mask[n, j] = True]. *)
Definition with_entry (n j : nat) (v : Qc) (phi : IntegralFunctional.t)
    : IntegralFunctional.t :=
  match phi with
  | IntegralFunctional.F f =>
      IntegralFunctional.F
        (FunctionalF.set_mask (alter (<[j:=true]>) n (FunctionalF.mask f))
           (FunctionalF.set_matrix (alter (<[j:=v]>) n (FunctionalF.matrix f)) f))
  | IntegralFunctional.G g =>
      IntegralFunctional.G
        (FunctionalG.set_mask (alter (<[j:=true]>) n (FunctionalG.mask g))
           (FunctionalG.set_matrix (alter (<[j:=v]>) n (FunctionalG.matrix g)) g))
  end.

(** ** Sequences of operations on a functional *)

Definition state_after {St A} (m : Comp St A) (s : St) : St := (m s).1.2.

Inductive functional_op : Type :=
| Evaluate (n j : nat)
| ActualizeRow (row : vec) (n : nat).

(** An [actualize_row] on row [n]. *)
Definition invalidates (n : nat) (op : functional_op) : Prop :=
  match op with
  | Evaluate _ _ => False
  | ActualizeRow _ n' => n' = n
  end.

Definition functional_do `{Quadrature} (op : functional_op)
    : Comp IntegralFunctional.t unit :=
  match op with
  | Evaluate n j => IntegralFunctional.call n j;; mret tt
  | ActualizeRow row n => IntegralFunctional.actualize_row row n
  end.

(** The object after a sequence of operations, whatever each one answered
    (an exception leaves the object as the failing method left it). *)
Definition functional_after `{Quadrature} (ops : list functional_op)
    (phi : IntegralFunctional.t) : IntegralFunctional.t :=
  foldl (fun s op => state_after (functional_do op) s) phi ops.

(** The entry [(n, j)] of the cache is valid and holds [v]. *)
Definition FunctionalF_holds (n j : nat) (v : Qc) (f : FunctionalF.t) : Prop :=
  Np.get2 (FunctionalF.mask f) n j = Ret true ∧
  Np.get2 (FunctionalF.matrix f) n j = Ret v.

Definition FunctionalG_holds (n k : nat) (v : Qc) (g : FunctionalG.t) : Prop :=
  Np.get2 (FunctionalG.mask g) n k = Ret true ∧
  Np.get2 (FunctionalG.matrix g) n k = Ret v.

(** The object with dependency row [n] replaced by [row] and mask row [n]
    cleared. *)
Definition invalidated (row : vec) (n : nat) (phi : IntegralFunctional.t)
    : IntegralFunctional.t :=
  match phi with
  | IntegralFunctional.F f =>
      IntegralFunctional.F
        (FunctionalF.set_mask
           (alter (fun old => replicate (length old) false) n (FunctionalF.mask f))
           (FunctionalF.set_R (<[n:=row]> (FunctionalF.R f)) f))
  | IntegralFunctional.G g =>
      IntegralFunctional.G
        (FunctionalG.set_mask
           (alter (fun old => replicate (length old) false) n (FunctionalG.mask g))
           (FunctionalG.set_u (<[n:=row]> (FunctionalG.u g)) g))
  end.

(** ** Solvers of either class *)

Definition wf_solver (sigma : Solver.t) : Prop :=
  match sigma with
  | Solver.U s => wf_U s
  | Solver.R1 s | Solver.R2 s => wf_R s
  end.

Definition solver_mesh (sigma : Solver.t) : Mesh :=
  AbstractSolver.mesh (Solver.base sigma).

(** The length of a row of the companion field: [M + 2] for a solver of
    [u] (it is handed rows of [R]), [N + 2] for a solver of [R]. *)
Definition companion_width (sigma : Solver.t) : nat :=
  match sigma with
  | Solver.U _ => mesh_M (solver_mesh sigma) + 2
  | Solver.R1 _ | Solver.R2 _ => mesh_N (solver_mesh sigma) + 2
  end.

(** The solver of [u] after [actualize_row(row, n)]. *)
Definition U_received (row : vec) (n : nat) (s : AbstractSolverU.t)
    : AbstractSolverU.t :=
  let b := AbstractSolverU.base s in
  let f := AbstractSolverU.F s in
  {| AbstractSolverU.base := AbstractSolver.set_R (<[n:=row]> (AbstractSolver.R b)) b;
     AbstractSolverU.m_1 := AbstractSolverU.m_1 s;
     AbstractSolverU.eps := AbstractSolverU.eps s;
     AbstractSolverU.F :=
       FunctionalF.set_mask
         (alter (fun old => replicate (length old) false) n (FunctionalF.mask f))
         (FunctionalF.set_R (<[n:=row]> (FunctionalF.R f)) f);
     AbstractSolverU.mask :=
       alter (fun old => replicate (length old) false) n (AbstractSolverU.mask s) |}.

(** The solver of [R] after [actualize_row(row, n)]. *)
Definition R_received (row : vec) (n : nat) (s : AbstractSolverR.t)
    : AbstractSolverR.t :=
  let b := AbstractSolverR.base s in
  let g := AbstractSolverR.G s in
  {| AbstractSolverR.base := AbstractSolver.set_u (<[n:=row]> (AbstractSolver.u b)) b;
     AbstractSolverR.m_2 := AbstractSolverR.m_2 s;
     AbstractSolverR.R_in := AbstractSolverR.R_in s;
     AbstractSolverR.G :=
       FunctionalG.set_mask
         (alter (fun old => replicate (length old) false) n (FunctionalG.mask g))
         (FunctionalG.set_u (<[n:=row]> (FunctionalG.u g)) g);
     AbstractSolverR.mask :=
       alter (fun old => replicate (length old) false) n (AbstractSolverR.mask s) |}.

(** ** Sequences of operations on a solver *)

Inductive solver_op : Type :=
| DoActualizeRow (row : vec) (n : nat)
| DoActualizeStep (n : nat).

Definition solver_do `{Quadrature} (op : solver_op) : Comp Solver.t unit :=
  match op with
  | DoActualizeRow row n => Solver.actualize_row row n
  | DoActualizeStep n => Solver.actualize_step_np1 n;; mret tt
  end.

Definition solver_after `{Quadrature} (ops : list solver_op) (sigma : Solver.t)
    : Solver.t :=
  foldl (fun s op => state_after (solver_do op) s) sigma ops.

(** A computation that leaves an observation [obs] of the object as it was,
    whether it returns or raises. *)
Definition keeps {St A X} (obs : St -> X) (m : Comp St A) : Prop :=
  ∀ s, obs (state_after m s) = obs s.

(** ** The transition operator of SolverU, as described

    [alpha = eps * dt / h1 ** 2]; the diagonal entry [i] is
    [1 - 2 alpha + dt (- m_1[i] + r[i] F[i])]; the entries next to the
    diagonal are [alpha], except [(0, 1)] and [(N + 1, N)] which are
    [2 alpha]; every other entry is [0]. *)

Definition alpha_of (s : AbstractSolverU.t) : Qc :=
  let msh := AbstractSolver.mesh (AbstractSolverU.base s) in
  AbstractSolverU.eps s * mesh_dt msh / mesh_h1 msh ^ 2.

Definition reaction_diagonal (s : AbstractSolverU.t) (Fn : vec) (i : nat) : Qc :=
  let msh := AbstractSolver.mesh (AbstractSolverU.base s) in
  1 - 2 * alpha_of s
  + mesh_dt msh * (- default 0 (AbstractSolverU.m_1 s !! i)
                   + default 0 (AbstractSolver.r (AbstractSolverU.base s) !! i)
                     * default 0 (Fn !! i)).

Definition transition_entry (s : AbstractSolverU.t) (Fn : vec) (i j : nat) : Qc :=
  let N := mesh_N (AbstractSolver.mesh (AbstractSolverU.base s)) in
  if decide (i = j) then reaction_diagonal s Fn i
  else if decide ((i = 0 ∧ j = 1) ∨ (i = N + 1 ∧ j = N))%nat then 2 * alpha_of s
  else if decide (j = i + 1 ∨ i = j + 1)%nat then alpha_of s
  else 0.

Definition transition_matrix (s : AbstractSolverU.t) (Fn : vec) : mat :=
  let N := mesh_N (AbstractSolver.mesh (AbstractSolverU.base s)) in
  (fun i => transition_entry s Fn i <$> seq 0 (N + 2)) <$> seq 0 (N + 2).

(** The product of a matrix and a vector. *)
Definition matvec (m : mat) (v : vec) : vec :=
  (fun row => Np.sum (zip_with Qcmult row v)) <$> m.

(** ** The objects after an evaluation of a whole row, after a step *)

(** The functional after [F[n]]: cache row [n] holds the values, its mask
    row is set. *)
Definition FunctionalF_evaluated `{Quadrature} (n : nat) (f : FunctionalF.t)
    : FunctionalF.t :=
  FunctionalF.set_mask
    (<[n:=replicate (mesh_N (FunctionalF.mesh f) + 2) true]> (FunctionalF.mask f))
    (FunctionalF.set_matrix
       (<[n:=FunctionalF_row f n]> (FunctionalF.matrix f)) f).

Definition FunctionalG_evaluated `{Quadrature} (n : nat) (g : FunctionalG.t)
    : FunctionalG.t :=
  FunctionalG.set_mask
    (<[n:=replicate (mesh_M (FunctionalG.mesh g) + 2) true]> (FunctionalG.mask g))
    (FunctionalG.set_matrix
       (<[n:=FunctionalG_row g n]> (FunctionalG.matrix g)) g).

(** The solver of [u] after a step that evaluated [F[n]] and stored [new]
    as row [n + 1]. *)
Definition U_stepped `{Quadrature} (n : nat) (new : vec) (s : AbstractSolverU.t)
    : AbstractSolverU.t :=
  let b := AbstractSolverU.base s in
  {| AbstractSolverU.base :=
       AbstractSolver.set_u (<[(n + 1)%nat:=new]> (AbstractSolver.u b)) b;
     AbstractSolverU.m_1 := AbstractSolverU.m_1 s;
     AbstractSolverU.eps := AbstractSolverU.eps s;
     AbstractSolverU.F := FunctionalF_evaluated n (AbstractSolverU.F s);
     AbstractSolverU.mask :=
       alter (fun old => replicate (length old) true) (n + 1)%nat
         (AbstractSolverU.mask s) |}.

(** The solver of [R] after a step that evaluated [G[k]] and stored [new]
    as row [n + 1]. *)
Definition R_stepped `{Quadrature} (k n : nat) (new : vec) (s : AbstractSolverR.t)
    : AbstractSolverR.t :=
  let b := AbstractSolverR.base s in
  {| AbstractSolverR.base :=
       AbstractSolver.set_R (<[(n + 1)%nat:=new]> (AbstractSolver.R b)) b;
     AbstractSolverR.m_2 := AbstractSolverR.m_2 s;
     AbstractSolverR.R_in := AbstractSolverR.R_in s;
     AbstractSolverR.G := FunctionalG_evaluated k (AbstractSolverR.G s);
     AbstractSolverR.mask :=
       alter (fun old => replicate (length old) true) (n + 1)%nat
         (AbstractSolverR.mask s) |}.

(** ** The two resource schemes, as described

    Scheme 1: [R[n+1] = (1 - dt (m_2 + G)) R[n] + dt R_in];
    scheme 2: [R[n+1] = R_in / (m_2 + G)]; componentwise over the [M + 2]
    resource points. *)

Definition scheme1_row (s : AbstractSolverR.t) (Gv Rn : vec) : vec :=
  let msh := AbstractSolver.mesh (AbstractSolverR.base s) in
  (fun k =>
     (1 - mesh_dt msh * (default 0 (AbstractSolverR.m_2 s !! k)
                         + default 0 (Gv !! k)))
     * default 0 (Rn !! k)
     + mesh_dt msh * default 0 (AbstractSolverR.R_in s !! k))
  <$> seq 0 (mesh_M msh + 2).

Definition scheme2_row (s : AbstractSolverR.t) (Gv : vec) : vec :=
  let msh := AbstractSolver.mesh (AbstractSolverR.base s) in
  (fun k =>
     default 0 (AbstractSolverR.R_in s !! k)
     / (default 0 (AbstractSolverR.m_2 s !! k) + default 0 (Gv !! k)))
  <$> seq 0 (mesh_M msh + 2).

(** ** What a freshly invalidated cache row answers

    After [actualize_row(row, n)] every entry of cache row [n] is
    recomputed from [row]. *)

Definition FunctionalF_fresh_row `{Quadrature} (f : FunctionalF.t) (row : vec)
    : vec :=
  (fun j => simpson (FunctionalF_integrand_of f j row)
                    (mesh_y (FunctionalF.mesh f)))
  <$> seq 0 (mesh_N (FunctionalF.mesh f) + 2).

Definition FunctionalG_fresh_row `{Quadrature} (g : FunctionalG.t) (row : vec)
    : vec :=
  (fun k => simpson (FunctionalG_integrand_of g k row)
                    (mesh_x (FunctionalG.mesh g)))
  <$> seq 0 (mesh_M (FunctionalG.mesh g) + 2).

(** The row of [R] that the chosen scheme stores at [n + 1], given the
    solver of [R] before the iteration ([s]) and after it was handed
    [u_np1] ([s1]): scheme 1 reads [G[n]] and [R[n]], scheme 2 reads
    [G[n + 1]]. *)
Definition R_step_row `{Quadrature} (cls : SolverR_class) (n : nat)
    (s1 : AbstractSolverR.t) (Rn : vec) : vec :=
  match cls with
  | Method1 => scheme1_row s1 (FunctionalG_row (AbstractSolverR.G s1) n) Rn
  | Method2 => scheme2_row s1 (FunctionalG_row (AbstractSolverR.G s1) (n + 1))
  end.

(** The time row of [G] that the chosen scheme evaluates at step [n]. *)
Definition R_step_reads (cls : SolverR_class) (n : nat) : nat :=
  match cls with
  | Method1 => n
  | Method2 => (n + 1)%nat
  end.

(** ** The driver loop, iteration by iteration *)

Definition is_quadrature (e : event) : Prop :=
  match e with
  | Simpson _ _ => True
  | _ => False
  end.

(** The solvers are well formed and no row of [u] after row [n] is marked
    computed: the state in which the driver enters iteration [n]. *)
Definition ready (n : nat) (s : Solvers) : Prop :=
  wf_solvers s ∧
  ∀ m,
    (n < m ≤ mesh_T (AbstractSolver.mesh (AbstractSolverU.base (solver_u s))))%nat ->
       AbstractDiscreteFunction.is_row_calculated
         (AbstractSolverU.mask (solver_u s)) m = Ret false.

(** The solvers after the first [n] iterations of the loop. *)
Definition after_iterations `{Quadrature} (cls : SolverR_class) (n : nat)
    (s : Solvers) : Solvers :=
  state_after (for_range 0 n (iteration cls)) s.

(** ** Examples

    A three-point mesh on [[0, 1]] for traits and for resources, two time
    steps of length [1/8]; kernel and rates constantly [1]. *)

Definition q (a : Z) (b : positive) : Qc := Q2Qc (a # b).

Definition ex_mesh : Mesh :=
  {| mesh_N := 1; mesh_M := 1; mesh_T := 2; mesh_dt := q 1 8; mesh_h1 := q 1 2;
     mesh_x := [0; q 1 2; 1]; mesh_y := [0; q 1 2; 1] |}.

Definition ex_K : mat := [[1; 1; 1]; [1; 1; 1]; [1; 1; 1]].

Definition ex_F : FunctionalF.t :=
  {| FunctionalF.mesh := ex_mesh; FunctionalF.K := ex_K;
     FunctionalF.R := [[1; 1; 1]; [0; 0; 0]; [0; 0; 0]];
     FunctionalF.matrix := Np.zeros2 3 3;
     FunctionalF.mask := AbstractDiscreteFunction.create_mask (Np.zeros2 3 3) |}.

Definition ex_G : FunctionalG.t :=
  {| FunctionalG.mesh := ex_mesh; FunctionalG.r := [1; 1; 1];
     FunctionalG.K := ex_K;
     FunctionalG.u := [[1; 1; 1]; [0; 0; 0]; [0; 0; 0]];
     FunctionalG.matrix := Np.zeros2 3 3;
     FunctionalG.mask := AbstractDiscreteFunction.create_mask (Np.zeros2 3 3) |}.

Definition ex_base : AbstractSolver.t :=
  {| AbstractSolver.mesh := ex_mesh; AbstractSolver.r := [1; 1; 1];
     AbstractSolver.K := ex_K;
     AbstractSolver.u := [[1; 1; 1]; [0; 0; 0]; [0; 0; 0]];
     AbstractSolver.R := [[1; 1; 1]; [0; 0; 0]; [0; 0; 0]];
     AbstractSolver.current_step := 0 |}.

Definition ex_mask0 : bmat :=
  [[true; true; true]; [false; false; false]; [false; false; false]].

(** A solver of [u] with mortality [m_1] at every trait. *)
Definition ex_U (m_1 : Qc) : AbstractSolverU.t :=
  {| AbstractSolverU.base := ex_base; AbstractSolverU.m_1 := [m_1; m_1; m_1];
     AbstractSolverU.eps := q 1 100; AbstractSolverU.F := ex_F;
     AbstractSolverU.mask := ex_mask0 |}.

Definition ex_R : AbstractSolverR.t :=
  {| AbstractSolverR.base := ex_base; AbstractSolverR.m_2 := [1; 1; 1];
     AbstractSolverR.R_in := [1; 1; 1]; AbstractSolverR.G := ex_G;
     AbstractSolverR.mask := ex_mask0 |}.

Definition ex_solvers (m_1 : Qc) : Solvers :=
  {| solver_u := ex_U m_1; solver_R := ex_R |}.

(** The rational entries of a row, for comparison by computation. *)
Definition entries (row : vec) : list Q := this <$> row.

Definition u_row (s : Solvers) (n : nat) : vec :=
  default [] (AbstractSolver.u (AbstractSolverU.base (solver_u s)) !! n).

Definition R_row (s : Solvers) (n : nat) : vec :=
  default [] (AbstractSolver.R (AbstractSolverR.base (solver_R s)) !! n).

Definition returned {A} (o : outcome A) : bool :=
  match o with
  | Ret _ => true
  | Raise _ => false
  end.

(** ** Further attributes of a functional *)

(** The kernel [K] of either class. *)
Definition kernel (phi : IntegralFunctional.t) : mat :=
  match phi with
  | IntegralFunctional.F f => FunctionalF.K f
  | IntegralFunctional.G g => FunctionalG.K g
  end.

(** The rate [r] that [FunctionalG] carries; [FunctionalF] has none. *)
Definition rate (phi : IntegralFunctional.t) : option vec :=
  match phi with
  | IntegralFunctional.F _ => None
  | IntegralFunctional.G g => Some (FunctionalG.r g)
  end.

(** ** Traces of the driver loop *)

(** The method calls of a trace, in the order they were issued. *)
Definition calls (l : list event) : list method_call :=
  omap (fun e => match e with Call c => Some c | _ => None end) l.

(** The number of quadratures of a trace. *)
Definition quadrature_count (l : list event) : nat :=
  length (omap (fun e => match e with
                         | Simpson a m => Some (a, m)
                         | _ => None
                         end) l).

(** The four calls of iteration [n], with the rows that the solvers [s]
    hold. *)
Definition iteration_calls (s : Solvers) (n : nat) : list method_call :=
  [u_actualize_row (R_row s n) n; u_actualize_step_np1 n;
   R_actualize_row (u_row s (n + 1)) (n + 1); R_actualize_step_np1 n].

(** No entry of the cache of [G] is valid from time row [n] on. *)
Definition G_unevaluated (n : nat) (s : Solvers) : Prop :=
  ∀ m k, (n ≤ m)%nat ->
    default false (cached (FunctionalG.mask (AbstractSolverR.G (solver_R s))) m k)
    = false.

(** ** The step of SolverU, point by point

    Component [i] of the product of the transition operator and a row
    [un]: the reaction term on the diagonal plus the diffusion from the
    neighbours, the only neighbour counting twice at either end. *)
Definition stencil (s : AbstractSolverU.t) (Fn un : vec) (i : nat) : Qc :=
  let N := mesh_N (AbstractSolver.mesh (AbstractSolverU.base s)) in
  let v := fun k : nat => default 0 (un !! k) in
  reaction_diagonal s Fn i * v i
  + (if decide (i = 0%nat) then 2 * alpha_of s * v 1%nat
     else if decide (i = N + 1)%nat then 2 * alpha_of s * v N
     else alpha_of s * (v (i - 1)%nat + v (i + 1)%nat)).

(** ** Further examples *)

(** The example solver of [u] with row 1 of its field marked computed. *)
Definition ex_U_marked : AbstractSolverU.t :=
  AbstractSolverU.set_mask
    [[true; true; true]; [true; true; true]; [false; false; false]] (ex_U 0).

(** The example solver of [R] with supply [2]: [R_0 (m_2 + G[0]) = R_in]. *)
Definition ex_R_balanced : AbstractSolverR.t :=
  {| AbstractSolverR.base := ex_base; AbstractSolverR.m_2 := [1; 1; 1];
     AbstractSolverR.R_in := [q 2 1; q 2 1; q 2 1]; AbstractSolverR.G := ex_G;
     AbstractSolverR.mask := ex_mask0 |}.
(** * Properties *)

(** ** Running computations *)

Lemma run_bind {St A B} (m : Comp St A) (k : A -> Comp St B) s a s1 l1 :
  m s = (Ret a, s1, l1) ->
  (m ≫= k) s = (let '(o, s2, l2) := k a s1 in (o, s2, l1 ++ l2)).
Proof. intros E. unfold mbind, Comp_bind. rewrite E. reflexivity. Qed.

Lemma run_bind_raise {St A B} (m : Comp St A) (k : A -> Comp St B) s e s1 l1 :
  m s = (Raise e, s1, l1) -> (m ≫= k) s = (Raise e, s1, l1).
Proof. intros E. unfold mbind, Comp_bind. rewrite E. reflexivity. Qed.

Lemma run_get {St B} (k : St -> Comp St B) s : (get ≫= k) s = k s s.
Proof.
  unfold mbind, Comp_bind, get. destruct (k s s) as [[o s2] l2]. reflexivity.
Qed.

Lemma run_lift {St A B} (a : A) (k : A -> Comp St B) s :
  (lift (Ret a) ≫= k) s = k a s.
Proof.
  unfold mbind, Comp_bind, lift. destruct (k a s) as [[o s2] l2]. reflexivity.
Qed.

Lemma run_lift_raise {St A B} e (k : A -> Comp St B) s :
  (lift (Raise e) ≫= k) s = (Raise e, s, []).
Proof. reflexivity. Qed.

Lemma run_modify {St B} (f : St -> St) (k : unit -> Comp St B) s :
  (modify f ≫= k) s = k tt (f s).
Proof.
  unfold mbind, Comp_bind, modify.
  destruct (k tt (f s)) as [[o s2] l2]. reflexivity.
Qed.

Lemma run_emit {St B} e (k : unit -> Comp St B) s :
  (emit e ≫= k) s = (let '(o, s2, l2) := k tt s in (o, s2, e :: l2)).
Proof. reflexivity. Qed.

Lemma run_ret {St A} (a : A) (s : St) : (mret a : Comp St A) s = (Ret a, s, []).
Proof. reflexivity. Qed.

Lemma run_ret_bind {St A B} (a : A) (k : A -> Comp St B) s :
  (mret a ≫= k) s = k a s.
Proof.
  unfold mbind, Comp_bind, mret, Comp_ret.
  destruct (k a s) as [[o s2] l2]. reflexivity.
Qed.

Lemma run_assoc {St A B C} (m : Comp St A) (k1 : A -> Comp St B)
    (k2 : B -> Comp St C) s :
  ((m ≫= k1) ≫= k2) s = (m ≫= fun a => k1 a ≫= k2) s.
Proof.
  unfold mbind, Comp_bind. destruct (m s) as [[[a|e] s1] l1]; [|done].
  destruct (k1 a s1) as [[[b|e] s2] l2]; [|done].
  destruct (k2 b s2) as [[o s3] l3]. by rewrite app_assoc.
Qed.

Ltac run :=
  repeat first
    [ rewrite run_assoc | rewrite run_get | rewrite run_lift | rewrite run_lift_raise
    | rewrite run_modify | rewrite run_emit | rewrite run_ret_bind
    | rewrite run_ret ].

Lemma getrow_Ret {A} (a : list A) n r : a !! n = Some r -> Np.getrow a n = Ret r.
Proof. intros E. unfold Np.getrow. by rewrite E. Qed.

(** ** Shapes *)

Lemma shape_lookup {A} rows cols (m : list (list A)) n :
  shape rows cols m -> (n < rows)%nat ->
  ∃ row, m !! n = Some row ∧ length row = cols.
Proof.
  intros [Hl Hf] Hn. destruct (lookup_lt_is_Some_2 m n) as [row Hrow]; [lia|].
  exists row. split; [done|]. by eapply (Forall_lookup_1 _ _ _ _ Hf).
Qed.

Lemma shape_insert {A} rows cols (m : list (list A)) n row :
  shape rows cols m -> length row = cols -> shape rows cols (<[n:=row]> m).
Proof.
  intros [Hl Hf] Hr. split; [by rewrite length_insert|].
  by apply Forall_insert.
Qed.

Lemma shape_lookup2 {A} rows cols (m : list (list A)) n j :
  shape rows cols m -> (n < rows)%nat -> (j < cols)%nat ->
  ∃ row c, m !! n = Some row ∧ length row = cols ∧ row !! j = Some c.
Proof.
  intros Hs Hn Hj. destruct (shape_lookup _ _ _ n Hs Hn) as (row & Hrow & Hlen).
  destruct (lookup_lt_is_Some_2 row j) as [c Hc]; [lia|]. by exists row, c.
Qed.

Lemma shape_alter {A} rows cols (m : list (list A)) n (f : list A -> list A) :
  shape rows cols m -> (∀ row, length (f row) = length row) ->
  shape rows cols (alter f n m).
Proof.
  intros [Hl Hf] Hr. split; [by rewrite length_alter|].
  apply Forall_lookup. intros i row. rewrite list_lookup_alter.
  case_decide; [|by apply (Forall_lookup_1 _ _ _ _ Hf)].
  subst i. destruct (m !! n) as [old|] eqn:E; [|done]. simpl. intros [= <-].
  rewrite Hr. by apply (Forall_lookup_1 _ _ _ _ Hf E).
Qed.

Lemma get2_Ret {A} (a : list (list A)) n j row c :
  a !! n = Some row -> row !! j = Some c -> Np.get2 a n j = Ret c.
Proof. intros E1 E2. unfold Np.get2, Np.getrow. rewrite E1. simpl. by rewrite E2. Qed.

Lemma get2_inv {A} (a : list (list A)) n j c :
  Np.get2 a n j = Ret c -> ∃ row, a !! n = Some row ∧ row !! j = Some c.
Proof.
  unfold Np.get2, Np.getrow. destruct (a !! n) as [row|]; [|done]. simpl.
  destruct (row !! j) as [c'|] eqn:E; [|done]. simpl. intros [= <-]. eauto.
Qed.

Lemma set2_Ret {A} (a : list (list A)) n j row c0 c :
  a !! n = Some row -> row !! j = Some c0 ->
  Np.set2 a n j c = Ret (alter (<[j:=c]>) n a).
Proof. intros E1 E2. unfold Np.set2, Np.getrow. rewrite E1. simpl. by rewrite E2. Qed.

Lemma get2_alter_eq {A} (a : list (list A)) n j row c0 c :
  a !! n = Some row -> row !! j = Some c0 ->
  Np.get2 (alter (<[j:=c]>) n a) n j = Ret c.
Proof.
  intros E1 E2. apply get2_Ret with (<[j:=c]> row).
  - by rewrite list_lookup_alter_eq, E1.
  - apply list_lookup_insert_eq. by eapply lookup_lt_Some.
Qed.

Lemma zip_Ret {A} (f : A -> A -> A) a b :
  length a = length b -> Np.zip f a b = Ret (zip_with f a b).
Proof. intros E. unfold Np.zip. by rewrite decide_True. Qed.

Lemma column_Ret {A} rows cols (m : list (list A)) k :
  shape rows cols m -> (k < cols)%nat ->
  ∃ col, Np.column m k = Ret col ∧ length col = rows ∧
         ∀ i row, m !! i = Some row -> col !! i = row !! k.
Proof.
  intros [Hl Hf] Hk.
  destruct (mapM_is_Some_2 (fun row : list A => row !! k) m) as [col Hcol].
  { eapply Forall_impl; [exact Hf|]. intros row Hrow. simpl.
    apply lookup_lt_is_Some_2. rewrite Hrow. exact Hk. }
  exists col. unfold Np.column. rewrite Hcol. split; [done|].
  apply mapM_Some_1 in Hcol. split.
  - by rewrite <- (Forall2_length _ _ _ Hcol).
  - intros i row Hi.
    destruct (Forall2_lookup_l _ _ _ _ _ Hcol Hi) as (c & Hc & Hrc). congruence.
Qed.

Lemma setrow_Ret {A} (a : list (list A)) n old row :
  a !! n = Some old -> length row = length old ->
  Np.setrow a n row = Ret (<[n:=row]> a).
Proof.
  intros E L. unfold Np.setrow, Np.getrow. rewrite E. simpl.
  by rewrite decide_True.
Qed.

Lemma fillrow_Ret {A} (a : list (list A)) n old c :
  a !! n = Some old ->
  Np.fillrow a n c = Ret (alter (fun old => replicate (length old) c) n a).
Proof. intros E. unfold Np.fillrow, Np.getrow. by rewrite E. Qed.

Lemma fillrow_lookup {A} rows cols (a : list (list A)) n c :
  shape rows cols a -> (n < rows)%nat ->
  alter (fun old => replicate (length old) c) n a !! n = Some (replicate cols c).
Proof.
  intros Hs Hn. destruct (shape_lookup _ _ _ n Hs Hn) as (old & E & L).
  by rewrite list_lookup_alter_eq, E, <- L.
Qed.

Lemma shape_fillrow {A} rows cols (a : list (list A)) n c :
  shape rows cols a ->
  shape rows cols (alter (fun old => replicate (length old) c) n a).
Proof. intros Hs. apply shape_alter; [done|]. intros. apply length_replicate. Qed.

Section Functionals.
Context `{Quadrature}.

(** *** FunctionalF.__call__ *)

Lemma FunctionalF_call_fresh f n j :
  wf_F f ->
  Np.get2 (FunctionalF.mask f) n j = Ret false ->
  ∃ Kj Rn,
    FunctionalF.K f !! j = Some Kj ∧ FunctionalF.R f !! n = Some Rn ∧
    let a := zip_with Qcmult Kj Rn in
    let v := simpson a (mesh_y (FunctionalF.mesh f)) in
    FunctionalF.call n j f =
      (Ret v,
       FunctionalF.set_mask (alter (<[j:=true]>) n (FunctionalF.mask f))
         (FunctionalF.set_matrix
            (alter (<[j:=v]>) n (FunctionalF.matrix f)) f),
       [Simpson a (mesh_y (FunctionalF.mesh f))]).
Proof.
  intros (HK & HR & Hm & Hk) Hmask.
  destruct (get2_inv _ _ _ _ Hmask) as (mrow & Emrow & Ej).
  assert (n < mesh_T (FunctionalF.mesh f) + 1)%nat as Hn.
  { destruct Hk as [<- _]. by eapply lookup_lt_Some. }
  assert (j < mesh_N (FunctionalF.mesh f) + 2)%nat as Hj.
  { destruct Hk as [_ Hf]. rewrite <- (Forall_lookup_1 _ _ _ _ Hf Emrow).
    by eapply lookup_lt_Some. }
  destruct (shape_lookup _ _ _ j HK Hj) as (Kj & EK & LK).
  destruct (shape_lookup _ _ _ n HR Hn) as (Rn & ER & LR).
  destruct (shape_lookup2 _ _ _ n j Hm Hn Hj) as (row & c0 & Erow & _ & Ec0).
  exists Kj, Rn. split; [done|]. split; [done|]. intros a v.
  unfold FunctionalF.call. run. rewrite Hmask. run. simpl.
  unfold Np.getrow. rewrite EK, ER. simpl. run.
  unfold Np.mul. rewrite zip_Ret by congruence. run.
  rewrite (set2_Ret _ _ _ _ _ _ Erow Ec0). run. simpl.
  rewrite (set2_Ret _ _ _ _ _ _ Emrow Ej). run. reflexivity.
Qed.

Lemma FunctionalF_call_cached f n j v :
  Np.get2 (FunctionalF.mask f) n j = Ret true ->
  Np.get2 (FunctionalF.matrix f) n j = Ret v ->
  FunctionalF.call n j f = (Ret v, f, []).
Proof.
  intros Hmask Hv. unfold FunctionalF.call. run. rewrite Hmask. run. simpl.
  unfold lift. by rewrite Hv.
Qed.

(** *** FunctionalG.__call__ *)

Lemma FunctionalG_call_fresh g n k :
  wf_G g ->
  Np.get2 (FunctionalG.mask g) n k = Ret false ->
  ∃ Kk un,
    Np.column (FunctionalG.K g) k = Ret Kk ∧ FunctionalG.u g !! n = Some un ∧
    let a := zip_with Qcmult (zip_with Qcmult (FunctionalG.r g) Kk) un in
    let v := simpson a (mesh_x (FunctionalG.mesh g)) in
    FunctionalG.call n k g =
      (Ret v,
       FunctionalG.set_mask (alter (<[k:=true]>) n (FunctionalG.mask g))
         (FunctionalG.set_matrix
            (alter (<[k:=v]>) n (FunctionalG.matrix g)) g),
       [Simpson a (mesh_x (FunctionalG.mesh g))]).
Proof.
  intros (Hr & HK & Hu & Hm & Hk) Hmask.
  destruct (get2_inv _ _ _ _ Hmask) as (mrow & Emrow & Ej).
  assert (n < mesh_T (FunctionalG.mesh g) + 1)%nat as Hn.
  { destruct Hk as [<- _]. by eapply lookup_lt_Some. }
  assert (k < mesh_M (FunctionalG.mesh g) + 2)%nat as Hj.
  { destruct Hk as [_ Hf]. rewrite <- (Forall_lookup_1 _ _ _ _ Hf Emrow).
    by eapply lookup_lt_Some. }
  destruct (column_Ret _ _ _ k HK Hj) as (Kk & EK & LK & _).
  destruct (shape_lookup _ _ _ n Hu Hn) as (un & Eu & Lu).
  destruct (shape_lookup2 _ _ _ n k Hm Hn Hj) as (row & c0 & Erow & _ & Ec0).
  exists Kk, un. split; [done|]. split; [done|]. intros a v.
  unfold FunctionalG.call. run. rewrite Hmask. run. simpl.
  rewrite EK. run. unfold Np.mul. rewrite zip_Ret by congruence. run.
  unfold Np.getrow. rewrite Eu. simpl. run.
  rewrite zip_Ret by (rewrite length_zip_with; lia). run.
  rewrite (set2_Ret _ _ _ _ _ _ Erow Ec0). run. simpl.
  rewrite (set2_Ret _ _ _ _ _ _ Emrow Ej). run. reflexivity.
Qed.

Lemma FunctionalG_call_cached g n k v :
  Np.get2 (FunctionalG.mask g) n k = Ret true ->
  Np.get2 (FunctionalG.matrix g) n k = Ret v ->
  FunctionalG.call n k g = (Ret v, g, []).
Proof.
  intros Hmask Hv. unfold FunctionalG.call. run. rewrite Hmask. run. simpl.
  unfold lift. by rewrite Hv.
Qed.

(** *** actualize_row on the functionals *)

Lemma FunctionalF_actualize_row_ok f n row :
  wf_F f -> (n ≤ mesh_T (FunctionalF.mesh f))%nat ->
  length row = (mesh_M (FunctionalF.mesh f) + 2)%nat ->
  FunctionalF.actualize_row row n f =
    (Ret tt,
     FunctionalF.set_mask
       (alter (fun old => replicate (length old) false) n (FunctionalF.mask f))
       (FunctionalF.set_R (<[n:=row]> (FunctionalF.R f)) f),
     []).
Proof.
  intros (HK & HR & Hm & Hk) Hn Hrow.
  destruct (shape_lookup _ _ _ n HR) as (old & Eold & Lold); [lia|].
  destruct (shape_lookup _ _ _ n Hk) as (mold & Emold & _); [lia|].
  unfold FunctionalF.actualize_row. run.
  unfold Np.getrow at 1. rewrite Eold. simpl. run.
  unfold Validators.validate_nth_row. rewrite decide_True by congruence. run.
  rewrite (setrow_Ret _ _ old) by (done || congruence). run.
  unfold AbstractDiscreteFunction.update_mask_row. simpl.
  rewrite (fillrow_Ret _ _ mold) by done. run. reflexivity.
Qed.

Lemma FunctionalF_actualize_row_mismatch f n row :
  wf_F f -> (n ≤ mesh_T (FunctionalF.mesh f))%nat ->
  length row ≠ (mesh_M (FunctionalF.mesh f) + 2)%nat ->
  FunctionalF.actualize_row row n f = (Raise ShapeMismatch, f, []).
Proof.
  intros (HK & HR & Hm & Hk) Hn Hrow.
  destruct (shape_lookup _ _ _ n HR) as (old & Eold & Lold); [lia|].
  unfold FunctionalF.actualize_row. run.
  unfold Np.getrow at 1. rewrite Eold. simpl. run.
  unfold Validators.validate_nth_row. rewrite decide_False by congruence.
  reflexivity.
Qed.

Lemma FunctionalG_actualize_row_ok g n row :
  wf_G g -> (n ≤ mesh_T (FunctionalG.mesh g))%nat ->
  length row = (mesh_N (FunctionalG.mesh g) + 2)%nat ->
  FunctionalG.actualize_row row n g =
    (Ret tt,
     FunctionalG.set_mask
       (alter (fun old => replicate (length old) false) n (FunctionalG.mask g))
       (FunctionalG.set_u (<[n:=row]> (FunctionalG.u g)) g),
     []).
Proof.
  intros (Hr & HK & Hu & Hm & Hk) Hn Hrow.
  destruct (shape_lookup _ _ _ n Hu) as (old & Eold & Lold); [lia|].
  destruct (shape_lookup _ _ _ n Hk) as (mold & Emold & _); [lia|].
  unfold FunctionalG.actualize_row. run.
  unfold Np.getrow at 1. rewrite Eold. simpl. run.
  unfold Validators.validate_nth_row. rewrite decide_True by congruence. run.
  rewrite (setrow_Ret _ _ old) by (done || congruence). run.
  unfold AbstractDiscreteFunction.update_mask_row. simpl.
  rewrite (fillrow_Ret _ _ mold) by done. run. reflexivity.
Qed.

Lemma FunctionalG_actualize_row_mismatch g n row :
  wf_G g -> (n ≤ mesh_T (FunctionalG.mesh g))%nat ->
  length row ≠ (mesh_N (FunctionalG.mesh g) + 2)%nat ->
  FunctionalG.actualize_row row n g = (Raise ShapeMismatch, g, []).
Proof.
  intros (Hr & HK & Hu & Hm & Hk) Hn Hrow.
  destruct (shape_lookup _ _ _ n Hu) as (old & Eold & Lold); [lia|].
  unfold FunctionalG.actualize_row. run.
  unfold Np.getrow at 1. rewrite Eold. simpl. run.
  unfold Validators.validate_nth_row. rewrite decide_False by congruence.
  reflexivity.
Qed.

End Functionals.

(** ** Loops *)

Lemma for_range_steps {St A} (body : nat -> Comp St A) (st : nat -> St)
    (val : nat -> A) (ev : nat -> list event) k : ∀ start,
  (∀ j, (start ≤ j < start + k)%nat ->
        body j (st j) = (Ret (val j), st (S j), ev j)) ->
  for_range start k body (st start) =
    (Ret (val <$> seq start k), st (start + k)%nat, concat (ev <$> seq start k)).
Proof.
  induction k as [|k IH]; intros start Hstep; simpl.
  - rewrite run_ret. by rewrite Nat.add_0_r.
  - rewrite (run_bind _ _ _ _ _ _ (Hstep start ltac:(lia))).
    rewrite (run_bind _ _ _ _ _ _ (IH (S start) ltac:(intros; apply Hstep; lia))).
    rewrite run_ret. rewrite app_nil_r.
    by replace (S start + k)%nat with (start + S k)%nat by lia.
Qed.

Lemma overwrite_prefix_0 {A} (new old : list A) : overwrite_prefix 0 new old = old.
Proof. reflexivity. Qed.

Lemma overwrite_prefix_all {A} n (new old : list A) :
  length new = n -> length old = n -> overwrite_prefix n new old = new.
Proof.
  intros E1 E2. unfold overwrite_prefix.
  rewrite take_ge, drop_ge by lia. apply app_nil_r.
Qed.

Lemma length_overwrite_prefix {A} j (new old : list A) :
  length new = length old -> length (overwrite_prefix j new old) = length old.
Proof.
  intros E. unfold overwrite_prefix.
  rewrite length_app, length_take, length_drop. lia.
Qed.

Lemma lookup_overwrite_prefix_ge {A} j i (new old : list A) :
  length new = length old -> (j ≤ i)%nat ->
  overwrite_prefix j new old !! i = old !! i.
Proof.
  intros E Hi. unfold overwrite_prefix.
  destruct (decide (j ≤ length old)%nat).
  - rewrite lookup_app_r; rewrite length_take; [|lia].
    rewrite lookup_drop. f_equal. lia.
  - rewrite take_ge, drop_ge by lia. rewrite app_nil_r.
    rewrite !lookup_ge_None_2; [done|lia..].
Qed.

Lemma overwrite_prefix_S {A} j c (new old : list A) :
  length new = length old -> new !! j = Some c ->
  <[j:=c]> (overwrite_prefix j new old) = overwrite_prefix (S j) new old.
Proof.
  intros E Hc. pose proof (lookup_lt_Some _ _ _ Hc) as Hj.
  unfold overwrite_prefix.
  rewrite (take_S_r _ _ _ Hc), <- app_assoc. simpl.
  destruct (lookup_lt_is_Some_2 old j) as [o Ho]; [lia|].
  rewrite (drop_S _ _ _ Ho).
  rewrite insert_app_r_alt; rewrite length_take; [|lia].
  by replace (j - j `min` length new)%nat with 0%nat by lia.
Qed.

Lemma overwrite_prefix_S_same {A} j (new old : list A) :
  length new = length old -> (j < length old)%nat -> new !! j = old !! j ->
  overwrite_prefix (S j) new old = overwrite_prefix j new old.
Proof.
  intros E Hj Hsame.
  destruct (lookup_lt_is_Some_2 old j) as [o Ho]; [lia|].
  rewrite <- (overwrite_prefix_S j o) by congruence.
  apply list_insert_id. rewrite lookup_overwrite_prefix_ge by (done || lia). done.
Qed.

Lemma alter_insert_eq {A} (f : A -> A) (l : list A) n x :
  alter f n (<[n:=x]> l) = <[n:=f x]> l.
Proof.
  apply list_eq. intros i. destruct (decide (i = n)) as [->|Hne].
  - rewrite list_lookup_alter_eq. destruct (decide (n < length l)%nat).
    + by rewrite !list_lookup_insert_eq.
    + rewrite !list_insert_ge by lia. by rewrite lookup_ge_None_2 by lia.
  - rewrite list_lookup_alter_ne by done. by rewrite !list_lookup_insert_ne.
Qed.

Lemma run_bind_state {St A B} (m : Comp St A) (b : B) s :
  ((m ≫= fun _ => mret b) s).1.2 = (m s).1.2.
Proof.
  unfold mbind, Comp_bind. destruct (m s) as [[[a|e] s1] l1]; reflexivity.
Qed.

Lemma run_zoom {St St' A B} (proj : St -> St') (upd : St' -> St -> St)
    (m : Comp St' A) (k : A -> Comp St B) s a s1 l1 :
  m (proj s) = (Ret a, s1, l1) ->
  (zoom proj upd m ≫= k) s =
    (let '(o, s2, l2) := k a (upd s1 s) in (o, s2, l1 ++ l2)).
Proof. intros E. apply run_bind. unfold zoom. by rewrite E. Qed.

Lemma run_zoom_modify {St St' B} (proj : St -> St') (upd : St' -> St -> St)
    (f : St' -> St') (k : unit -> Comp St B) s :
  (zoom proj upd (modify f) ≫= k) s = k tt (upd (f (proj s)) s).
Proof.
  rewrite (run_zoom _ _ _ _ _ tt (f (proj s)) []) by reflexivity.
  by destruct (k tt (upd (f (proj s)) s)) as [[o s2] l2].
Qed.

Lemma let_triple_nil {St A} (x : outcome A * St * list event) :
  (let '(o, s2, l2) := x in (o, s2, [] ++ l2)) = x.
Proof. by destruct x as [[o s2] l2]. Qed.

(** ** Evaluating a whole row of a functional *)

Lemma cached_Some {A} (a : list (list A)) n j row c :
  a !! n = Some row -> row !! j = Some c -> cached a n j = Some c.
Proof. intros E1 E2. unfold cached. rewrite E1. simpl. exact E2. Qed.

Lemma column_default rows cols (m : mat) k col :
  shape rows cols m -> (k < cols)%nat -> Np.column m k = Ret col ->
  col = (fun row : vec => default 0 (row !! k)) <$> m.
Proof.
  intros Hs Hk E. destruct (column_Ret _ _ _ k Hs Hk) as (col' & E' & L & Hcol).
  rewrite E in E'. injection E' as <-. apply list_eq. intros i.
  rewrite list_lookup_fmap. destruct (m !! i) as [row|] eqn:Ei; simpl.
  - rewrite (Hcol _ _ Ei). destruct (shape_lookup2 _ _ _ i k Hs) as (r & c & Er & _ & Ec);
      [destruct Hs as [<- _]; by eapply lookup_lt_Some|done|].
    rewrite Ei in Er. injection Er as <-. by rewrite Ec.
  - apply lookup_ge_None_2. apply lookup_ge_None_1 in Ei. destruct Hs as [Hl _]. lia.
Qed.

Section Rows.
Context `{Quadrature}.

Lemma FunctionalF_getitem f n :
  wf_F f -> (n ≤ mesh_T (FunctionalF.mesh f))%nat ->
  FunctionalF.getitem n f =
    (Ret (FunctionalF_row f n),
     FunctionalF.set_mask
       (<[n:=replicate (mesh_N (FunctionalF.mesh f) + 2) true]>
          (FunctionalF.mask f))
       (FunctionalF.set_matrix
          (<[n:=FunctionalF_row f n]> (FunctionalF.matrix f)) f),
     FunctionalF_quadratures f n).
Proof.
  intros Hwf Hn. pose proof Hwf as (HK & HR & Hm & Hk).
  set (cols := (mesh_N (FunctionalF.mesh f) + 2)%nat) in *.
  destruct (shape_lookup _ _ _ n Hm) as (row & Erow & Lrow); [lia|].
  destruct (shape_lookup _ _ _ n Hk) as (mrow & Emrow & Lmrow); [lia|].
  set (vals := FunctionalF_row f n).
  assert (length vals = cols) as Lvals.
  { unfold vals, FunctionalF_row. by rewrite length_fmap, length_seq. }
  set (st := fun j =>
    FunctionalF.set_mask
      (<[n:=overwrite_prefix j (replicate cols true) mrow]> (FunctionalF.mask f))
      (FunctionalF.set_matrix
         (<[n:=overwrite_prefix j vals row]> (FunctionalF.matrix f)) f)).
  assert (f = st 0%nat) as Est0.
  { unfold st. rewrite !overwrite_prefix_0.
    rewrite !list_insert_id by done.
    by destruct f. }
  unfold FunctionalF.getitem. run. unfold Np.getrow. rewrite Erow. simpl. run.
  rewrite Est0 at 1.
  rewrite (for_range_steps _ st (FunctionalF_value f n)
             (fun j => if default false (cached (FunctionalF.mask f) n j)
                       then []
                       else [Simpson (FunctionalF_integrand f n j)
                               (mesh_y (FunctionalF.mesh f))])).
  - rewrite Lrow. simpl. unfold st.
    rewrite !overwrite_prefix_all by (rewrite ?length_replicate; congruence).
    reflexivity.
  - intros j [_ Hj]. simpl in Hj. rewrite Lrow in Hj.
    destruct (lookup_lt_is_Some_2 mrow j) as [b Eb]; [lia|].
    destruct (lookup_lt_is_Some_2 row j) as [c Ec]; [lia|].
    assert (wf_F (st j)) as Hwfj.
    { unfold st. split; [|split; [|split]]; simpl.
      - exact HK.
      - exact HR.
      - apply shape_insert; [done|].
        rewrite length_overwrite_prefix; [exact Lrow|by rewrite Lrow].
      - apply shape_insert; [done|].
        rewrite length_overwrite_prefix;
          [exact Lmrow|by rewrite length_replicate, Lmrow]. }
    assert (Np.get2 (FunctionalF.mask (st j)) n j = Ret b) as Hmask.
    { eapply get2_Ret.
      - unfold st. simpl. apply list_lookup_insert_eq.
        destruct Hk as [-> _]. lia.
      - rewrite lookup_overwrite_prefix_ge;
          rewrite ?length_replicate; (done || lia). }
    assert (Np.get2 (FunctionalF.matrix (st j)) n j = Ret c) as Hval.
    { eapply get2_Ret.
      - unfold st. simpl. apply list_lookup_insert_eq.
        destruct Hm as [-> _]. lia.
      - rewrite lookup_overwrite_prefix_ge; (done || lia). }
    assert (vals !! j = Some (FunctionalF_value f n j)) as Evj.
    { unfold vals, FunctionalF_row. rewrite list_lookup_fmap.
      by rewrite lookup_seq_lt. }
    rewrite (cached_Some _ _ _ _ _ Emrow Eb). simpl.
    destruct b.
    + assert (FunctionalF_value f n j = c) as Ev.
      { unfold FunctionalF_value.
        by rewrite (cached_Some _ _ _ _ _ Emrow Eb),
                   (cached_Some _ _ _ _ _ Erow Ec). }
      rewrite Ev. rewrite (FunctionalF_call_cached _ _ _ _ Hmask Hval).
      f_equal. f_equal. unfold st.
      rewrite !overwrite_prefix_S_same; try done; try lia.
      * congruence.
      * by rewrite length_replicate.
      * rewrite lookup_replicate_2 by lia. done.
    + destruct (FunctionalF_call_fresh _ _ _ Hwfj Hmask)
        as (Kj & Rn & EK & ER & Hcall).
      simpl in Hcall. rewrite Hcall. clear Hcall.
      unfold st in EK, ER. simpl in EK, ER.
      assert (zip_with Qcmult Kj Rn = FunctionalF_integrand f n j) as Ea.
      { unfold FunctionalF_integrand, FunctionalF_integrand_of. by rewrite EK, ER. }
      assert (simpson (zip_with Qcmult Kj Rn) (mesh_y (FunctionalF.mesh f))
              = FunctionalF_value f n j) as Ev.
      { unfold FunctionalF_value.
        rewrite (cached_Some _ _ _ _ _ Emrow Eb). simpl. by rewrite Ea. }
      rewrite Ev, Ea. f_equal. f_equal.
      unfold st, FunctionalF.set_mask, FunctionalF.set_matrix. simpl.
      rewrite !alter_insert_eq.
      rewrite (overwrite_prefix_S j true), (overwrite_prefix_S j _ vals);
        try done.
      * congruence.
      * by rewrite length_replicate.
      * by apply lookup_replicate_2.
Qed.

Lemma FunctionalG_getitem g n :
  wf_G g -> (n ≤ mesh_T (FunctionalG.mesh g))%nat ->
  FunctionalG.getitem n g =
    (Ret (FunctionalG_row g n),
     FunctionalG.set_mask
       (<[n:=replicate (mesh_M (FunctionalG.mesh g) + 2) true]>
          (FunctionalG.mask g))
       (FunctionalG.set_matrix
          (<[n:=FunctionalG_row g n]> (FunctionalG.matrix g)) g),
     FunctionalG_quadratures g n).
Proof.
  intros Hwf Hn. pose proof Hwf as (Hr & HK & Hu & Hm & Hk).
  set (cols := (mesh_M (FunctionalG.mesh g) + 2)%nat) in *.
  destruct (shape_lookup _ _ _ n Hm) as (row & Erow & Lrow); [lia|].
  destruct (shape_lookup _ _ _ n Hk) as (mrow & Emrow & Lmrow); [lia|].
  set (vals := FunctionalG_row g n).
  assert (length vals = cols) as Lvals.
  { unfold vals, FunctionalG_row. by rewrite length_fmap, length_seq. }
  set (st := fun j =>
    FunctionalG.set_mask
      (<[n:=overwrite_prefix j (replicate cols true) mrow]> (FunctionalG.mask g))
      (FunctionalG.set_matrix
         (<[n:=overwrite_prefix j vals row]> (FunctionalG.matrix g)) g)).
  assert (g = st 0%nat) as Est0.
  { unfold st. rewrite !overwrite_prefix_0.
    rewrite !list_insert_id by done.
    by destruct g. }
  unfold FunctionalG.getitem. run. unfold Np.getrow. rewrite Erow. simpl. run.
  rewrite Est0 at 1.
  rewrite (for_range_steps _ st (FunctionalG_value g n)
             (fun j => if default false (cached (FunctionalG.mask g) n j)
                       then []
                       else [Simpson (FunctionalG_integrand g n j)
                               (mesh_x (FunctionalG.mesh g))])).
  - rewrite Lrow. simpl. unfold st.
    rewrite !overwrite_prefix_all by (rewrite ?length_replicate; congruence).
    reflexivity.
  - intros j [_ Hj]. simpl in Hj. rewrite Lrow in Hj.
    destruct (lookup_lt_is_Some_2 mrow j) as [b Eb]; [lia|].
    destruct (lookup_lt_is_Some_2 row j) as [c Ec]; [lia|].
    assert (wf_G (st j)) as Hwfj.
    { unfold st. split; [|split; [|split; [|split]]]; simpl.
      - exact Hr.
      - exact HK.
      - exact Hu.
      - apply shape_insert; [done|].
        rewrite length_overwrite_prefix; [exact Lrow|by rewrite Lrow].
      - apply shape_insert; [done|].
        rewrite length_overwrite_prefix;
          [exact Lmrow|by rewrite length_replicate, Lmrow]. }
    assert (Np.get2 (FunctionalG.mask (st j)) n j = Ret b) as Hmask.
    { eapply get2_Ret.
      - unfold st. simpl. apply list_lookup_insert_eq.
        destruct Hk as [-> _]. lia.
      - rewrite lookup_overwrite_prefix_ge;
          rewrite ?length_replicate; (done || lia). }
    assert (Np.get2 (FunctionalG.matrix (st j)) n j = Ret c) as Hval.
    { eapply get2_Ret.
      - unfold st. simpl. apply list_lookup_insert_eq.
        destruct Hm as [-> _]. lia.
      - rewrite lookup_overwrite_prefix_ge; (done || lia). }
    assert (vals !! j = Some (FunctionalG_value g n j)) as Evj.
    { unfold vals, FunctionalG_row. rewrite list_lookup_fmap.
      by rewrite lookup_seq_lt. }
    rewrite (cached_Some _ _ _ _ _ Emrow Eb). simpl.
    destruct b.
    + assert (FunctionalG_value g n j = c) as Ev.
      { unfold FunctionalG_value.
        by rewrite (cached_Some _ _ _ _ _ Emrow Eb),
                   (cached_Some _ _ _ _ _ Erow Ec). }
      rewrite Ev. rewrite (FunctionalG_call_cached _ _ _ _ Hmask Hval).
      f_equal. f_equal. unfold st.
      rewrite !overwrite_prefix_S_same; try done; try lia.
      * congruence.
      * by rewrite length_replicate.
      * rewrite lookup_replicate_2 by lia. done.
    + destruct (FunctionalG_call_fresh _ _ _ Hwfj Hmask)
        as (Kk & un & EK & Eu & Hcall).
      simpl in Hcall. rewrite Hcall. clear Hcall.
      unfold st in EK, Eu. simpl in EK, Eu.
      assert (j < mesh_M (FunctionalG.mesh g) + 2)%nat as Hj' by exact Hj.
      apply (column_default _ _ _ _ _ HK Hj') in EK.
      assert (zip_with Qcmult (zip_with Qcmult (FunctionalG.r g) Kk) un
              = FunctionalG_integrand g n j) as Ea.
      { unfold FunctionalG_integrand, FunctionalG_integrand_of. by rewrite EK, Eu. }
      assert (simpson (zip_with Qcmult (zip_with Qcmult (FunctionalG.r g) Kk) un)
                (mesh_x (FunctionalG.mesh g))
              = FunctionalG_value g n j) as Ev.
      { unfold FunctionalG_value.
        rewrite (cached_Some _ _ _ _ _ Emrow Eb). simpl. by rewrite Ea. }
      rewrite Ev, Ea. f_equal. f_equal.
      unfold st, FunctionalG.set_mask, FunctionalG.set_matrix. simpl.
      rewrite !alter_insert_eq.
      rewrite (overwrite_prefix_S j true), (overwrite_prefix_S j _ vals);
        try done.
      * congruence.
      * by rewrite length_replicate.
      * by apply lookup_replicate_2.
Qed.

End Rows.

(** ** A cached entry survives everything but an invalidation of its row *)

Lemma get2_alter_ne {A} (a : list (list A)) n j n' j' c :
  (n', j') ≠ (n, j) ->
  Np.get2 (alter (<[j':=c]>) n' a) n j = Np.get2 a n j.
Proof.
  intros Hne. unfold Np.get2, Np.getrow. rewrite list_lookup_alter.
  case_decide as E; [|done]. subst n'.
  destruct (a !! n) as [row|]; [|done]. simpl.
  rewrite list_lookup_insert_ne; [done|]. congruence.
Qed.

Lemma get2_alter_row_ne {A} (a : list (list A)) n j n' (f : list A -> list A) :
  n' ≠ n -> Np.get2 (alter f n' a) n j = Np.get2 a n j.
Proof.
  intros Hne. unfold Np.get2, Np.getrow. by rewrite list_lookup_alter_ne.
Qed.

Lemma set2_inv {A} (a : list (list A)) n j c a' :
  Np.set2 a n j c = Ret a' -> a' = alter (<[j:=c]>) n a.
Proof.
  unfold Np.set2, Np.getrow. destruct (a !! n) as [row|]; [|done]. simpl.
  destruct (row !! j); [|done]. simpl. congruence.
Qed.

Lemma fillrow_inv {A} (a : list (list A)) n c a' :
  Np.fillrow a n c = Ret a' ->
  a' = alter (fun old => replicate (length old) c) n a.
Proof.
  unfold Np.fillrow, Np.getrow. destruct (a !! n); [|done]. simpl. congruence.
Qed.

Lemma setrow_inv {A} (a : list (list A)) n row a' :
  Np.setrow a n row = Ret a' -> a' = <[n:=row]> a.
Proof.
  unfold Np.setrow, Np.getrow. destruct (a !! n) as [old|]; [|done]. simpl.
  case_decide; congruence.
Qed.

(** Case analysis on the outcome that a lifted pure step feeds to the rest
    of a method. *)
Ltac inv_store :=
  match goal with
  | E : Np.set2 _ _ _ _ = Ret _ |- _ => apply set2_inv in E; subst
  | E : Np.fillrow _ _ _ = Ret _ |- _ => apply fillrow_inv in E; subst
  | E : Np.setrow _ _ _ = Ret _ |- _ => apply setrow_inv in E; subst
  end.

Ltac step_lift :=
  match goal with
  | |- context [(lift ?o ≫= _) _] =>
      let E := fresh "E" in
      destruct o eqn:E; [rewrite run_lift | rewrite run_lift_raise]
  end.

Section Memo.
Context `{Quadrature}.

Lemma FunctionalF_holds_call n j v n' j' f :
  FunctionalF_holds n j v f ->
  FunctionalF_holds n j v (state_after (FunctionalF.call n' j') f).
Proof.
  intros [Hm Hv]. unfold state_after, FunctionalF.call. run.
  step_lift; [|done]. destruct a; simpl.
  { unfold lift. by destruct (Np.get2 (FunctionalF.matrix f) n' j'). }
  assert ((n', j') ≠ (n, j)) as Hne by (intros [= -> ->]; congruence).
  repeat (step_lift; [|done]). run.
  step_lift; [|done]. run. simpl. inv_store.
  step_lift; simpl.
  - run. simpl. inv_store.
    split; simpl; by rewrite get2_alter_ne.
  - split; simpl; [done|]. by rewrite get2_alter_ne.
Qed.

Lemma FunctionalF_holds_actualize_row n j v row n' f :
  n' ≠ n -> FunctionalF_holds n j v f ->
  FunctionalF_holds n j v (state_after (FunctionalF.actualize_row row n') f).
Proof.
  intros Hne [Hm Hv]. unfold state_after, FunctionalF.actualize_row. run.
  repeat (step_lift; [|done]). run. simpl.
  unfold AbstractDiscreteFunction.update_mask_row.
  step_lift; simpl.
  - run. simpl. inv_store.
    split; simpl; [|done]. by rewrite get2_alter_row_ne.
  - done.
Qed.

Lemma FunctionalG_holds_call n j v n' j' g :
  FunctionalG_holds n j v g ->
  FunctionalG_holds n j v (state_after (FunctionalG.call n' j') g).
Proof.
  intros [Hm Hv]. unfold state_after, FunctionalG.call. run.
  step_lift; [|done]. destruct a; simpl.
  { unfold lift. by destruct (Np.get2 (FunctionalG.matrix g) n' j'). }
  assert ((n', j') ≠ (n, j)) as Hne by (intros [= -> ->]; congruence).
  repeat (step_lift; [|done]). run.
  step_lift; [|done]. run. simpl. inv_store.
  step_lift; simpl.
  - run. simpl. inv_store.
    split; simpl; by rewrite get2_alter_ne.
  - split; simpl; [done|]. by rewrite get2_alter_ne.
Qed.

Lemma FunctionalG_holds_actualize_row n j v row n' g :
  n' ≠ n -> FunctionalG_holds n j v g ->
  FunctionalG_holds n j v (state_after (FunctionalG.actualize_row row n') g).
Proof.
  intros Hne [Hm Hv]. unfold state_after, FunctionalG.actualize_row. run.
  repeat (step_lift; [|done]). run. simpl.
  unfold AbstractDiscreteFunction.update_mask_row.
  step_lift; simpl.
  - run. simpl. inv_store.
    split; simpl; [|done]. by rewrite get2_alter_row_ne.
  - done.
Qed.

Lemma holds_after n j v ops : ∀ phi,
  Forall (fun op => ¬ invalidates n op) ops ->
  match phi with
  | IntegralFunctional.F f => FunctionalF_holds n j v f
  | IntegralFunctional.G g => FunctionalG_holds n j v g
  end ->
  match functional_after ops phi with
  | IntegralFunctional.F f => FunctionalF_holds n j v f
  | IntegralFunctional.G g => FunctionalG_holds n j v g
  end.
Proof.
  induction ops as [|op ops IH]; intros phi Hops Hphi; [done|].
  apply Forall_cons in Hops as [Hop Hops]. apply IH; [done|].
  destruct op as [n' j'|row n'], phi as [f|g]; simpl.
  - unfold state_after. rewrite run_bind_state.
    pose proof (FunctionalF_holds_call n j v n' j' f Hphi) as Hs.
    unfold state_after in Hs. unfold IntegralFunctional.call, dispatch.
    by destruct (FunctionalF.call n' j' f) as [[o s1] l].
  - unfold state_after. rewrite run_bind_state.
    pose proof (FunctionalG_holds_call n j v n' j' g Hphi) as Hs.
    unfold state_after in Hs. unfold IntegralFunctional.call, dispatch.
    by destruct (FunctionalG.call n' j' g) as [[o s1] l].
  - assert (n' ≠ n) as Hne by (intros ->; by apply Hop).
    pose proof (FunctionalF_holds_actualize_row n j v row n' f Hne Hphi) as Hs.
    unfold state_after in *. unfold IntegralFunctional.actualize_row, dispatch.
    by destruct (FunctionalF.actualize_row row n' f) as [[o s1] l].
  - assert (n' ≠ n) as Hne by (intros ->; by apply Hop).
    pose proof (FunctionalG_holds_actualize_row n j v row n' g Hne Hphi) as Hs.
    unfold state_after in *. unfold IntegralFunctional.actualize_row, dispatch.
    by destruct (FunctionalG.actualize_row row n' g) as [[o s1] l].
Qed.

End Memo.

(** ** The functionals: memoization, invalidation *)

Section FunctionalClaims.
Context `{Quadrature}.

Lemma call_fresh phi n j :
  wf_functional phi ->
  Np.get2 (IntegralFunctional.mask phi) n j = Ret false ->
  let a := integrand phi n j in
  let v := simpson a (IntegralFunctional.nodes phi) in
  IntegralFunctional.call n j phi =
    (Ret v, with_entry n j v phi, [Simpson a (IntegralFunctional.nodes phi)]).
Proof.
  destruct phi as [f|g]; simpl; intros Hwf Hmask.
  - destruct (FunctionalF_call_fresh f n j Hwf Hmask) as (Kj & Rn & EK & ER & E).
    unfold dispatch. simpl in E. rewrite E.
    unfold integrand, integrand_of, FunctionalF_integrand_of. simpl.
    by rewrite EK, ER.
  - destruct (FunctionalG_call_fresh g n j Hwf Hmask) as (Kk & un & EK & Eu & E).
    unfold dispatch. simpl in E. rewrite E.
    unfold integrand, integrand_of, FunctionalG_integrand_of. simpl.
    assert (j < mesh_M (FunctionalG.mesh g) + 2)%nat as Hj.
    { destruct (get2_inv _ _ _ _ Hmask) as (mrow & Em & Ej).
      destruct Hwf as (_ & _ & _ & _ & [_ Hf]).
      rewrite <- (Forall_lookup_1 _ _ _ _ Hf Em). by eapply lookup_lt_Some. }
    destruct Hwf as (_ & HK & _).
    rewrite <- (column_default _ _ _ _ _ HK Hj EK). by rewrite Eu.
Qed.

Lemma call_cached phi n j v :
  Np.get2 (IntegralFunctional.mask phi) n j = Ret true ->
  Np.get2 (IntegralFunctional.matrix phi) n j = Ret v ->
  IntegralFunctional.call n j phi = (Ret v, phi, []).
Proof.
  destruct phi as [f|g]; simpl; intros Hmask Hv; unfold dispatch.
  - by rewrite (FunctionalF_call_cached f n j v Hmask Hv).
  - by rewrite (FunctionalG_call_cached g n j v Hmask Hv).
Qed.

Lemma with_entry_holds phi n j v b :
  Np.get2 (IntegralFunctional.mask phi) n j = Ret b ->
  wf_functional phi ->
  Np.get2 (IntegralFunctional.matrix (with_entry n j v phi)) n j = Ret v ∧
  Np.get2 (IntegralFunctional.mask (with_entry n j v phi)) n j = Ret true.
Proof.
  intros Hmask Hwf.
  destruct (get2_inv _ _ _ _ Hmask) as (mrow & Em & Ej).
  assert (∃ row c, IntegralFunctional.matrix phi !! n = Some row ∧
                   row !! j = Some c) as (row & c & Er & Ec).
  { destruct phi as [f|g]; simpl in *.
    - destruct Hwf as (_ & _ & Hm & [Hl Hf]).
      destruct (shape_lookup2 _ _ _ n j Hm) as (row & c & ? & _ & ?); eauto.
      + rewrite <- Hl. by eapply lookup_lt_Some.
      + rewrite <- (Forall_lookup_1 _ _ _ _ Hf Em). by eapply lookup_lt_Some.
    - destruct Hwf as (_ & _ & _ & Hm & [Hl Hf]).
      destruct (shape_lookup2 _ _ _ n j Hm) as (row & c & ? & _ & ?); eauto.
      + rewrite <- Hl. by eapply lookup_lt_Some.
      + rewrite <- (Forall_lookup_1 _ _ _ _ Hf Em). by eapply lookup_lt_Some. }
  destruct phi as [f|g]; simpl in *; split;
    eauto using get2_alter_eq.
Qed.

(** Inside a well-formed functional the integrand is made of stored rows. *)
Lemma integrand_rows phi n j :
  wf_functional phi ->
  (n ≤ mesh_T (IntegralFunctional.mesh phi))%nat -> (j < cache_width phi)%nat ->
  match phi with
  | IntegralFunctional.F f =>
      ∃ Kj Rn, FunctionalF.K f !! j = Some Kj ∧ FunctionalF.R f !! n = Some Rn ∧
               integrand phi n j = zip_with Qcmult Kj Rn
  | IntegralFunctional.G g =>
      ∃ Kj un, Np.column (FunctionalG.K g) j = Ret Kj ∧
               FunctionalG.u g !! n = Some un ∧
               integrand phi n j =
                 zip_with Qcmult (zip_with Qcmult (FunctionalG.r g) Kj) un
  end.
Proof.
  destruct phi as [f|g]; simpl; intros Hwf Hn Hj.
  - destruct Hwf as (HK & HR & _).
    destruct (shape_lookup _ _ _ j HK Hj) as (Kj & EK & _).
    destruct (shape_lookup _ _ _ n HR) as (Rn & ER & _); [lia|].
    exists Kj, Rn. unfold integrand, integrand_of, FunctionalF_integrand_of.
    simpl. by rewrite EK, ER.
  - destruct Hwf as (_ & HK & Hu & _).
    destruct (column_Ret _ _ _ j HK Hj) as (Kj & EK & _).
    destruct (shape_lookup _ _ _ n Hu) as (un & Eu & _); [lia|].
    exists Kj, un. unfold integrand, integrand_of, FunctionalG_integrand_of.
    simpl. by rewrite <- (column_default _ _ _ _ _ HK Hj EK), Eu.
Qed.

(** C1.  An evaluation at [(n, j)] whose mask entry is False runs the
    quadrature once on the integrand of the current dependency row, stores
    the value in [matrix[n, j]], sets [mask[n, j]] and returns the value.
    After it, and after any further operations among which no
    [actualize_row] is on row [n], an evaluation at [(n, j)] returns the very
    same value, runs no quadrature and leaves the object as it was. *)
Theorem memoization_idempotence (phi : IntegralFunctional.t) (n j : nat) :
  wf_functional phi ->
  Np.get2 (IntegralFunctional.mask phi) n j = Ret false ->
  let a := integrand phi n j in
  let v := simpson a (IntegralFunctional.nodes phi) in
  let phi' := with_entry n j v phi in
  IntegralFunctional.call n j phi =
    (Ret v, phi', [Simpson a (IntegralFunctional.nodes phi)]) ∧
  Np.get2 (IntegralFunctional.matrix phi') n j = Ret v ∧
  Np.get2 (IntegralFunctional.mask phi') n j = Ret true ∧
  ∀ ops, Forall (fun op => ¬ invalidates n op) ops ->
    let phi'' := functional_after ops phi' in
    IntegralFunctional.call n j phi'' = (Ret v, phi'', []).
Proof.
  intros Hwf Hmask a v phi'.
  destruct (with_entry_holds phi n j v false Hmask Hwf) as [Hv Hm].
  split; [by apply call_fresh|]. split; [done|]. split; [done|].
  intros ops Hops phi''.
  pose proof (holds_after n j v ops phi' Hops) as Hafter.
  fold phi'' in Hafter.
  assert (Np.get2 (IntegralFunctional.mask phi'') n j = Ret true ∧
          Np.get2 (IntegralFunctional.matrix phi'') n j = Ret v) as [Hm' Hv'].
  { destruct phi'' as [f''|g'']; apply Hafter;
      subst phi'; destruct phi as [f|g]; by split. }
  by apply call_cached.
Qed.

(** *** actualize_row *)

Lemma actualize_row_ok phi n row :
  wf_functional phi -> (n ≤ mesh_T (IntegralFunctional.mesh phi))%nat ->
  length row = dependency_width phi ->
  IntegralFunctional.actualize_row row n phi = (Ret tt, invalidated row n phi, []).
Proof.
  destruct phi as [f|g]; simpl; intros Hwf Hn Hrow; unfold dispatch.
  - by rewrite FunctionalF_actualize_row_ok.
  - by rewrite FunctionalG_actualize_row_ok.
Qed.

Lemma actualize_row_mismatch phi n row :
  wf_functional phi -> (n ≤ mesh_T (IntegralFunctional.mesh phi))%nat ->
  length row ≠ dependency_width phi ->
  IntegralFunctional.actualize_row row n phi = (Raise ShapeMismatch, phi, []).
Proof.
  destruct phi as [f|g]; simpl; intros Hwf Hn Hrow; unfold dispatch.
  - by rewrite FunctionalF_actualize_row_mismatch.
  - by rewrite FunctionalG_actualize_row_mismatch.
Qed.

Lemma actualize_row_out_of_range phi n row :
  wf_functional phi -> (mesh_T (IntegralFunctional.mesh phi) < n)%nat ->
  IntegralFunctional.actualize_row row n phi = (Raise IndexError, phi, []).
Proof.
  destruct phi as [f|g]; simpl; intros Hwf Hn; unfold dispatch.
  - destruct Hwf as (_ & [Hl _] & _).
    unfold FunctionalF.actualize_row. run. unfold Np.getrow at 1.
    by rewrite lookup_ge_None_2 by lia.
  - destruct Hwf as (_ & _ & [Hl _] & _).
    unfold FunctionalG.actualize_row. run. unfold Np.getrow at 1.
    by rewrite lookup_ge_None_2 by lia.
Qed.

Lemma actualize_row_success phi n row phi' l :
  wf_functional phi ->
  IntegralFunctional.actualize_row row n phi = (Ret tt, phi', l) ->
  (n ≤ mesh_T (IntegralFunctional.mesh phi))%nat ∧
  length row = dependency_width phi ∧ phi' = invalidated row n phi ∧ l = [].
Proof.
  intros Hwf E.
  destruct (decide (n ≤ mesh_T (IntegralFunctional.mesh phi))%nat) as [Hn|Hn].
  - destruct (decide (length row = dependency_width phi)) as [Hr|Hr].
    + rewrite actualize_row_ok in E by done. by injection E as <- <-.
    + by rewrite actualize_row_mismatch in E.
  - by rewrite actualize_row_out_of_range in E by (done || lia).
Qed.

Lemma wf_invalidated phi n row :
  wf_functional phi -> length row = dependency_width phi ->
  wf_functional (invalidated row n phi).
Proof.
  destruct phi as [f|g]; simpl.
  - intros (HK & HR & Hm & Hk) Hrow. split; [|split; [|split]]; simpl;
      auto using shape_insert, shape_fillrow.
  - intros (Hr & HK & Hu & Hm & Hk) Hrow. split; [|split; [|split; [|split]]];
      simpl; auto using shape_insert, shape_fillrow.
Qed.

(** C2.  After a successful [actualize_row(new_row, n)] the whole mask row
    [n] is False, the private copy of dependency row [n] is [new_row], and
    an evaluation at [(n, j)], for any column [j], runs the quadrature on
    the integrand built from [new_row], whatever the cache held before. *)
Theorem invalidation (phi : IntegralFunctional.t) (new_row : vec) (n : nat)
    (phi' : IntegralFunctional.t) (l : list event) :
  wf_functional phi ->
  IntegralFunctional.actualize_row new_row n phi = (Ret tt, phi', l) ->
  IntegralFunctional.mask phi' !! n = Some (replicate (cache_width phi) false) ∧
  IntegralFunctional.dependency phi' !! n = Some new_row ∧
  ∀ j, (j < cache_width phi)%nat ->
    let a := integrand_of phi j new_row in
    let v := simpson a (IntegralFunctional.nodes phi) in
    IntegralFunctional.call n j phi' =
      (Ret v, with_entry n j v phi', [Simpson a (IntegralFunctional.nodes phi)]).
Proof.
  intros Hwf E.
  destruct (actualize_row_success _ _ _ _ _ Hwf E) as (Hn & Hrow & -> & ->).
  assert (IntegralFunctional.mask (invalidated new_row n phi) !! n
          = Some (replicate (cache_width phi) false)) as Hmask.
  { destruct phi as [f|g]; simpl in *.
    - destruct Hwf as (_ & _ & _ & Hk). eapply fillrow_lookup; [done|lia].
    - destruct Hwf as (_ & _ & _ & _ & Hk). eapply fillrow_lookup; [done|lia]. }
  assert (IntegralFunctional.dependency (invalidated new_row n phi) !! n
          = Some new_row) as Hdep.
  { destruct phi as [f|g]; simpl in *.
    - destruct Hwf as (_ & [Hl _] & _). apply list_lookup_insert_eq. lia.
    - destruct Hwf as (_ & _ & [Hl _] & _). apply list_lookup_insert_eq. lia. }
  split; [done|]. split; [done|]. intros j Hj a v.
  pose proof (call_fresh (invalidated new_row n phi) n j
                (wf_invalidated _ _ _ Hwf Hrow)) as Hcall.
  simpl in Hcall. unfold integrand in Hcall. rewrite Hdep in Hcall. simpl in Hcall.
  replace (integrand_of (invalidated new_row n phi) j new_row) with a in Hcall
    by (by destruct phi).
  replace (IntegralFunctional.nodes (invalidated new_row n phi))
    with (IntegralFunctional.nodes phi) in Hcall by (by destruct phi).
  apply Hcall. eapply get2_Ret; [exact Hmask|]. by apply lookup_replicate_2.
Qed.

End FunctionalClaims.

(** ** actualize_row on the solvers *)

Section SolverRows.
Context `{Quadrature}.

Lemma U_actualize_row_ok s n row :
  wf_U s ->
  (n ≤ mesh_T (AbstractSolver.mesh (AbstractSolverU.base s)))%nat ->
  length row = (mesh_M (AbstractSolver.mesh (AbstractSolverU.base s)) + 2)%nat ->
  AbstractSolverU.actualize_row row n s = (Ret tt, U_received row n s, []).
Proof.
  intros (Hb & Hm1 & HF & HFm & Hk) Hn Hrow. pose proof Hb as (Hr & HK & Hu & HR).
  destruct (shape_lookup _ _ _ n HR) as (old & Eold & Lold); [lia|].
  destruct (shape_lookup _ _ _ n Hk) as (mold & Emold & _); [lia|].
  unfold AbstractSolverU.actualize_row. run.
  unfold Np.getrow at 1. rewrite Eold. simpl. run.
  unfold Validators.validate_nth_row. rewrite decide_True by congruence. run.
  rewrite (setrow_Ret _ _ old) by (done || congruence). run.
  rewrite run_zoom_modify.
  erewrite run_zoom; [|apply FunctionalF_actualize_row_ok; simpl; congruence].
  rewrite let_triple_nil. run. simpl.
  unfold AbstractDiscreteFunction.update_mask_row.
  rewrite (fillrow_Ret _ _ mold) by done. run. reflexivity.
Qed.

Lemma U_actualize_row_mismatch s n row :
  wf_U s ->
  (n ≤ mesh_T (AbstractSolver.mesh (AbstractSolverU.base s)))%nat ->
  length row ≠ (mesh_M (AbstractSolver.mesh (AbstractSolverU.base s)) + 2)%nat ->
  AbstractSolverU.actualize_row row n s = (Raise ShapeMismatch, s, []).
Proof.
  intros (Hb & Hm1 & HF & HFm & Hk) Hn Hrow. pose proof Hb as (Hr & HK & Hu & HR).
  destruct (shape_lookup _ _ _ n HR) as (old & Eold & Lold); [lia|].
  unfold AbstractSolverU.actualize_row. run.
  unfold Np.getrow at 1. rewrite Eold. simpl. run.
  unfold Validators.validate_nth_row. rewrite decide_False by congruence.
  reflexivity.
Qed.

Lemma U_actualize_row_out_of_range s n row :
  wf_U s ->
  (mesh_T (AbstractSolver.mesh (AbstractSolverU.base s)) < n)%nat ->
  AbstractSolverU.actualize_row row n s = (Raise IndexError, s, []).
Proof.
  intros ((_ & _ & _ & [Hl _]) & _) Hn.
  unfold AbstractSolverU.actualize_row. run. unfold Np.getrow at 1.
  by rewrite lookup_ge_None_2 by lia.
Qed.

Lemma wf_U_received s n row :
  wf_U s ->
  length row = (mesh_M (AbstractSolver.mesh (AbstractSolverU.base s)) + 2)%nat ->
  wf_U (U_received row n s).
Proof.
  intros (Hb & Hm1 & HF & HFm & Hk) Hrow. pose proof Hb as (Hr & HK & Hu & HR).
  pose proof HF as (FK & FR & Fm & Fk).
  split; [|split; [|split; [|split]]]; simpl.
  - split; [|split; [|split]]; simpl; auto using shape_insert.
  - done.
  - split; [|split; [|split]]; simpl; auto using shape_fillrow.
    apply shape_insert; [done|]. congruence.
  - done.
  - by apply shape_fillrow.
Qed.

Lemma R_actualize_row_ok s n row :
  wf_R s ->
  (n ≤ mesh_T (AbstractSolver.mesh (AbstractSolverR.base s)))%nat ->
  length row = (mesh_N (AbstractSolver.mesh (AbstractSolverR.base s)) + 2)%nat ->
  AbstractSolverR.actualize_row row n s = (Ret tt, R_received row n s, []).
Proof.
  intros (Hb & Hm2 & HRin & HG & HGm & Hk) Hn Hrow.
  pose proof Hb as (Hr & HK & Hu & HR).
  destruct (shape_lookup _ _ _ n Hu) as (old & Eold & Lold); [lia|].
  destruct (shape_lookup _ _ _ n Hk) as (mold & Emold & _); [lia|].
  unfold AbstractSolverR.actualize_row. run.
  unfold Np.getrow at 1. rewrite Eold. simpl. run.
  unfold Validators.validate_nth_row. rewrite decide_True by congruence. run.
  rewrite (setrow_Ret _ _ old) by (done || congruence). run.
  rewrite run_zoom_modify.
  erewrite run_zoom; [|apply FunctionalG_actualize_row_ok; simpl; congruence].
  rewrite let_triple_nil. run. simpl.
  unfold AbstractDiscreteFunction.update_mask_row.
  rewrite (fillrow_Ret _ _ mold) by done. run. reflexivity.
Qed.

Lemma R_actualize_row_mismatch s n row :
  wf_R s ->
  (n ≤ mesh_T (AbstractSolver.mesh (AbstractSolverR.base s)))%nat ->
  length row ≠ (mesh_N (AbstractSolver.mesh (AbstractSolverR.base s)) + 2)%nat ->
  AbstractSolverR.actualize_row row n s = (Raise ShapeMismatch, s, []).
Proof.
  intros (Hb & Hm2 & HRin & HG & HGm & Hk) Hn Hrow.
  pose proof Hb as (Hr & HK & Hu & HR).
  destruct (shape_lookup _ _ _ n Hu) as (old & Eold & Lold); [lia|].
  unfold AbstractSolverR.actualize_row. run.
  unfold Np.getrow at 1. rewrite Eold. simpl. run.
  unfold Validators.validate_nth_row. rewrite decide_False by congruence.
  reflexivity.
Qed.

Lemma R_actualize_row_out_of_range s n row :
  wf_R s ->
  (mesh_T (AbstractSolver.mesh (AbstractSolverR.base s)) < n)%nat ->
  AbstractSolverR.actualize_row row n s = (Raise IndexError, s, []).
Proof.
  intros ((_ & _ & [Hl _] & _) & _) Hn.
  unfold AbstractSolverR.actualize_row. run. unfold Np.getrow at 1.
  by rewrite lookup_ge_None_2 by lia.
Qed.

Lemma wf_R_received s n row :
  wf_R s ->
  length row = (mesh_N (AbstractSolver.mesh (AbstractSolverR.base s)) + 2)%nat ->
  wf_R (R_received row n s).
Proof.
  intros (Hb & Hm2 & HRin & HG & HGm & Hk) Hrow.
  pose proof Hb as (Hr & HK & Hu & HR).
  pose proof HG as (Gr & GK & Gu & Gm & Gk).
  split; [|split; [|split; [|split; [|split]]]]; simpl.
  - split; [|split; [|split]]; simpl; auto using shape_insert.
  - done.
  - done.
  - split; [|split; [|split; [|split]]]; simpl; auto using shape_fillrow.
    apply shape_insert; [done|]. congruence.
  - done.
  - by apply shape_fillrow.
Qed.

End SolverRows.

(** ** The shape contract of actualize_row *)

Section ShapeContract.
Context `{Quadrature}.

Lemma solver_actualize_row_mismatch sigma n row :
  wf_solver sigma -> (n ≤ mesh_T (solver_mesh sigma))%nat ->
  length row ≠ companion_width sigma ->
  Solver.actualize_row row n sigma = (Raise ShapeMismatch, sigma, []).
Proof.
  destruct sigma as [s|s|s]; simpl; intros Hwf Hn Hrow; unfold dispatch.
  - by rewrite U_actualize_row_mismatch.
  - by rewrite R_actualize_row_mismatch.
  - by rewrite R_actualize_row_mismatch.
Qed.

Lemma solver_actualize_row_ok sigma n row :
  wf_solver sigma -> (n ≤ mesh_T (solver_mesh sigma))%nat ->
  length row = companion_width sigma ->
  ∃ sigma', Solver.actualize_row row n sigma = (Ret tt, sigma', []).
Proof.
  destruct sigma as [s|s|s]; simpl; intros Hwf Hn Hrow; unfold dispatch.
  - rewrite U_actualize_row_ok by done. eauto.
  - rewrite R_actualize_row_ok by done. eauto.
  - rewrite R_actualize_row_ok by done. eauto.
Qed.

(** C8.  On a functional and on a solver alike, for a row index [n] within
    [0 .. T], [actualize_row(row, n)] raises ShapeMismatch exactly when the
    length of [row] is not the mesh dimension of the row it replaces
    ([M + 2] for [FunctionalF] and the solver of [u], [N + 2] for
    [FunctionalG] and the solvers of [R]); and when it raises, the object is
    exactly as it was: field copy, cache matrix and mask. *)
Theorem shape_contract :
  (∀ (phi : IntegralFunctional.t) (row : vec) (n : nat),
     wf_functional phi -> (n ≤ mesh_T (IntegralFunctional.mesh phi))%nat ->
     ((IntegralFunctional.actualize_row row n phi).1.1 = Raise ShapeMismatch
      ↔ length row ≠ dependency_width phi) ∧
     (length row ≠ dependency_width phi ->
      IntegralFunctional.actualize_row row n phi = (Raise ShapeMismatch, phi, [])))
  ∧
  (∀ (sigma : Solver.t) (row : vec) (n : nat),
     wf_solver sigma -> (n ≤ mesh_T (solver_mesh sigma))%nat ->
     ((Solver.actualize_row row n sigma).1.1 = Raise ShapeMismatch
      ↔ length row ≠ companion_width sigma) ∧
     (length row ≠ companion_width sigma ->
      Solver.actualize_row row n sigma = (Raise ShapeMismatch, sigma, []))).
Proof.
  split.
  - intros phi row n Hwf Hn. split; [|by apply actualize_row_mismatch].
    split.
    + intros E Hrow. by rewrite actualize_row_ok in E.
    + intros Hrow. by rewrite actualize_row_mismatch.
  - intros sigma row n Hwf Hn. split; [|by apply solver_actualize_row_mismatch].
    split.
    + intros E Hrow.
      destruct (solver_actualize_row_ok sigma n row Hwf Hn Hrow) as [s' E'].
      by rewrite E' in E.
    + intros Hrow. by rewrite solver_actualize_row_mismatch.
Qed.

End ShapeContract.

(** ** The step counter *)

Lemma keeps_ret {St A X} (obs : St -> X) (a : A) : keeps obs (mret a : Comp St A).
Proof. by intros s. Qed.

Lemma keeps_lift {St A X} (obs : St -> X) (o : outcome A) :
  keeps obs (lift o : Comp St A).
Proof. by intros s. Qed.

Lemma keeps_get {St X} (obs : St -> X) : keeps obs (get : Comp St St).
Proof. by intros s. Qed.

Lemma keeps_emit {St X} (obs : St -> X) e : keeps obs (emit e : Comp St unit).
Proof. by intros s. Qed.

Lemma keeps_modify {St X} (obs : St -> X) (f : St -> St) :
  (∀ s, obs (f s) = obs s) -> keeps obs (modify f).
Proof. intros Hf s. apply Hf. Qed.

Lemma keeps_bind {St A B X} (obs : St -> X) (m : Comp St A) (k : A -> Comp St B) :
  keeps obs m -> (∀ a, keeps obs (k a)) -> keeps obs (m ≫= k).
Proof.
  intros Hm Hk s. specialize (Hm s). unfold state_after, mbind, Comp_bind in *.
  destruct (m s) as [[[a|e] s1] l1]; simpl in *; [|done].
  specialize (Hk a s1). unfold state_after in Hk.
  destruct (k a s1) as [[o s2] l2]. simpl in *. congruence.
Qed.

Lemma keeps_zoom {St St' A X} (obs : St -> X) (proj : St -> St')
    (upd : St' -> St -> St) (m : Comp St' A) :
  (∀ s' s, obs (upd s' s) = obs s) -> keeps obs (zoom proj upd m).
Proof.
  intros Hupd s. unfold state_after, zoom.
  destruct (m (proj s)) as [[o s1] l1]. apply Hupd.
Qed.

Lemma keeps_zoom_modify {St St' X} (obs : St -> X) (proj : St -> St')
    (upd : St' -> St -> St) (f : St' -> St') :
  (∀ s, obs (upd (f (proj s)) s) = obs s) -> keeps obs (zoom proj upd (modify f)).
Proof. intros Hupd s. apply Hupd. Qed.

Lemma keeps_dispatch {St St' A X} (obs : St -> X) (inj : St' -> St)
    (m : Comp St' A) s' :
  keeps (obs ∘ inj) m -> obs (dispatch inj m s').1.2 = obs (inj s').
Proof.
  intros Hm. specialize (Hm s'). unfold state_after, dispatch in *.
  by destruct (m s') as [[o s1] l1].
Qed.

Ltac keeps_steps :=
  repeat first
    [ apply keeps_ret | apply keeps_lift | apply keeps_get | apply keeps_emit
    | apply keeps_zoom_modify; done
    | apply keeps_zoom; done
    | apply keeps_modify; done
    | apply keeps_bind; [|intros ?]
    | match goal with |- keeps _ (if ?b then _ else _) => destruct b end ].

Section StepCounter.
Context `{Quadrature}.

Lemma U_actualize_row_keeps row n :
  keeps (AbstractSolver.current_step ∘ AbstractSolverU.base)
        (AbstractSolverU.actualize_row row n).
Proof. unfold AbstractSolverU.actualize_row. keeps_steps. Qed.

Lemma R_actualize_row_keeps row n :
  keeps (AbstractSolver.current_step ∘ AbstractSolverR.base)
        (AbstractSolverR.actualize_row row n).
Proof. unfold AbstractSolverR.actualize_row. keeps_steps. Qed.

Lemma create_transition_matrix_keeps n :
  keeps (AbstractSolver.current_step ∘ AbstractSolverU.base)
        (SolverU.create_transition_matrix n).
Proof. unfold SolverU.create_transition_matrix. keeps_steps. Qed.

Lemma U_actualize_step_np1_keeps n :
  keeps (AbstractSolver.current_step ∘ AbstractSolverU.base)
        (SolverU.actualize_step_np1 n).
Proof.
  unfold SolverU.actualize_step_np1.
  pose proof (create_transition_matrix_keeps n). keeps_steps; done.
Qed.

Lemma R1_actualize_step_np1_keeps n :
  keeps (AbstractSolver.current_step ∘ AbstractSolverR.base)
        (SolverRMethod1.actualize_step_np1 n).
Proof. unfold SolverRMethod1.actualize_step_np1. keeps_steps. Qed.

Lemma R2_actualize_step_np1_keeps n :
  keeps (AbstractSolver.current_step ∘ AbstractSolverR.base)
        (SolverRMethod2.actualize_step_np1 n).
Proof. unfold SolverRMethod2.actualize_step_np1. keeps_steps. Qed.

Lemma solver_do_keeps op sigma :
  Solver.current_step (state_after (solver_do op) sigma) = Solver.current_step sigma.
Proof.
  destruct op as [row n|n]; simpl.
  - unfold state_after, Solver.actualize_row.
    destruct sigma as [s|s|s];
      apply (keeps_dispatch Solver.current_step);
      auto using U_actualize_row_keeps, R_actualize_row_keeps.
  - unfold state_after. rewrite run_bind_state. unfold Solver.actualize_step_np1.
    destruct sigma as [s|s|s];
      apply (keeps_dispatch Solver.current_step);
      auto using U_actualize_step_np1_keeps, R1_actualize_step_np1_keeps,
                 R2_actualize_step_np1_keeps.
Qed.

(** C9, as the code has it.  The constructor sets [current_step] to 0.
    Whatever sequence of [actualize_row] and [actualize_step_np1] calls a
    solver of any class goes through, returning or raising, [current_step]
    stays what it was: it never decreases, and a step that computes a new
    row does not advance it.  The counter only moves in [_update_step(n)],
    which sets it to [n + 1] and which no method calls. *)
Theorem current_step_unchanged :
  (∀ (sigma : Solver.t) (ops : list solver_op),
     Solver.current_step (solver_after ops sigma) = Solver.current_step sigma) ∧
  (∀ (b : AbstractSolver.t) (n : nat),
     AbstractSolver.current_step (state_after (AbstractSolver.update_step n) b)
     = (n + 1)%nat) ∧
  (∀ (r0 : vec) (K0 : mat) (u_0 R_0 : vec) (m : Mesh),
     match AbstractSolver.init r0 K0 u_0 R_0 m with
     | Ret b => AbstractSolver.current_step b = 0%nat
     | Raise _ => True
     end).
Proof.
  split; [|split; [done|]].
  - intros sigma ops. revert sigma.
    induction ops as [|op ops IH]; intros sigma; [done|].
    change (solver_after (op :: ops) sigma)
      with (solver_after ops (state_after (solver_do op) sigma)).
    rewrite IH. apply solver_do_keeps.
  - intros r0 K0 u_0 R_0 m. unfold AbstractSolver.init.
    destruct (Validators.discrete1 _ _); simpl; [|done].
    destruct (Validators.discrete2 _ _ _); simpl; [|done].
    destruct (Validators.initial _ _ u_0); simpl; [|done].
    by destruct (Validators.initial _ _ R_0).
Qed.

End StepCounter.

(** ** Matrices entry by entry *)

Lemma mat_ext {A} rows cols (a b : list (list A)) :
  shape rows cols a -> shape rows cols b ->
  (∀ i j, (i < rows)%nat -> (j < cols)%nat -> cached a i j = cached b i j) ->
  a = b.
Proof.
  intros Ha Hb Hab. apply list_eq. intros i.
  destruct (decide (i < rows)%nat) as [Hi|Hi].
  - destruct (shape_lookup _ _ _ i Ha Hi) as (ra & Ea & La).
    destruct (shape_lookup _ _ _ i Hb Hi) as (rb & Eb & Lb).
    rewrite Ea, Eb. f_equal. apply list_eq. intros j.
    destruct (decide (j < cols)%nat) as [Hj|Hj].
    + specialize (Hab i j Hi Hj). unfold cached in Hab.
      by rewrite Ea, Eb in Hab.
    + by rewrite !lookup_ge_None_2 by lia.
  - destruct Ha as [La _], Hb as [Lb _]. by rewrite !lookup_ge_None_2 by lia.
Qed.

Lemma shape_tabulate {A} rows cols (f : nat -> nat -> A) :
  shape rows cols ((fun i => f i <$> seq 0 cols) <$> seq 0 rows).
Proof.
  split; [by rewrite length_fmap, length_seq|].
  apply Forall_fmap, Forall_forall. intros i _. simpl.
  by rewrite length_fmap, length_seq.
Qed.

Lemma cached_tabulate {A} rows cols (f : nat -> nat -> A) i j :
  (i < rows)%nat -> (j < cols)%nat ->
  cached ((fun i => f i <$> seq 0 cols) <$> seq 0 rows) i j = Some (f i j).
Proof.
  intros Hi Hj. unfold cached. rewrite list_lookup_fmap, lookup_seq_lt by done.
  simpl. by rewrite list_lookup_fmap, lookup_seq_lt.
Qed.

Lemma shape_diag v k :
  shape (length v + Z.abs_nat k) (length v + Z.abs_nat k) (Np.diag v k).
Proof. apply shape_tabulate. Qed.

Lemma cached_diag v k i j :
  (i < length v + Z.abs_nat k)%nat -> (j < length v + Z.abs_nat k)%nat ->
  cached (Np.diag v k) i j =
    Some (if decide (Z.of_nat j - Z.of_nat i = k)%Z
          then default 0 (v !! (i `min` j)%nat) else 0).
Proof. intros Hi Hj. unfold Np.diag. by rewrite cached_tabulate. Qed.

Lemma cached_alter {A} (a : list (list A)) i j i' j' c old :
  cached a i j = Some old ->
  cached (alter (<[j':=c]>) i' a) i j =
    Some (if decide (i = i' ∧ j = j') then c else old).
Proof.
  unfold cached. intros E.
  destruct (a !! i) as [row|] eqn:Ei; [|done]. simpl in E.
  destruct (decide (i = i')) as [<-|Hne].
  - rewrite list_lookup_alter_eq, Ei. simpl.
    pose proof (lookup_lt_Some _ _ _ E).
    destruct (decide (j' = j)) as [<-|Hj].
    + rewrite list_lookup_insert_eq by done. by rewrite decide_True by done.
    + rewrite list_lookup_insert_ne by done.
      by rewrite decide_False by (intros [_ ?]; congruence).
  - rewrite list_lookup_alter_ne by done. rewrite Ei. simpl.
    rewrite decide_False by (intros [? _]; congruence). done.
Qed.

Lemma shape_zip2 {A} rows cols (f : A -> A -> A) (a b : list (list A)) :
  shape rows cols a -> shape rows cols b ->
  shape rows cols (zip_with (zip_with f) a b).
Proof.
  intros [La Fa] [Lb Fb]. split; [rewrite length_zip_with; lia|].
  apply Forall_lookup. intros i row. rewrite lookup_zip_with.
  destruct (a !! i) as [ra|] eqn:Ea; [|done]. simpl.
  destruct (b !! i) as [rb|] eqn:Eb; [|done]. simpl. intros [= <-].
  rewrite length_zip_with.
  rewrite (Forall_lookup_1 _ _ _ _ Fa Ea), (Forall_lookup_1 _ _ _ _ Fb Eb). lia.
Qed.

Lemma cached_zip2 {A} (f : A -> A -> A) (a b : list (list A)) i j x y :
  cached a i j = Some x -> cached b i j = Some y ->
  cached (zip_with (zip_with f) a b) i j = Some (f x y).
Proof.
  unfold cached. intros Ea Eb. rewrite lookup_zip_with.
  destruct (a !! i) as [ra|]; [|done]. destruct (b !! i) as [rb|]; [|done].
  simpl in *. rewrite lookup_zip_with. by rewrite Ea, Eb.
Qed.

Lemma madd_Ret rows cols (a : mat) : ∀ (b : mat),
  shape rows cols a -> shape rows cols b ->
  Np.madd a b = Ret (zip_with (zip_with Qcplus) a b).
Proof.
  revert rows. induction a as [|ra a IH]; intros rows [|rb b] [La Fa] [Lb Fb];
    simpl in *; try done; try lia.
  apply Forall_cons in Fa as [Hra Fa]. apply Forall_cons in Fb as [Hrb Fb].
  unfold Np.add. rewrite zip_Ret by congruence. simpl.
  rewrite (IH (length a) b); [done|by split|split; [lia|done]].
Qed.

Lemma dot_Ret (m : mat) (v : vec) :
  Forall (fun row => length row = length v) m -> Np.dot m v = Ret (matvec m v).
Proof.
  induction m as [|row m IH]; intros Hm; [done|].
  apply Forall_cons in Hm as [Hrow Hm]. simpl.
  unfold Np.mul. rewrite zip_Ret by done. simpl. by rewrite IH.
Qed.

Ltac solve_index :=
  unfold Np.index;
  first [ rewrite decide_True by lia
        | rewrite decide_False by lia; rewrite decide_True by lia ];
  f_equal; lia.

Lemma set2Z_Ret rows cols (a : mat) (i j : Z) n k c :
  shape rows cols a -> (n < rows)%nat -> (k < cols)%nat ->
  Np.index rows i = Ret n -> Np.index cols j = Ret k ->
  Np.set2Z a i j c = Ret (alter (<[k:=c]>) n a).
Proof.
  intros Hs Hn Hk Ei Ej.
  destruct (shape_lookup2 _ _ _ n k Hs Hn Hk) as (row & c0 & Er & Lr & Ec).
  unfold Np.set2Z. destruct Hs as [-> _]. rewrite Ei. simpl.
  unfold Np.getrow at 1. rewrite Er. simpl. rewrite Lr, Ej. simpl.
  by rewrite (set2_Ret _ _ _ _ _ _ Er Ec).
Qed.

(** ** SolverU *)

Ltac diag_range :=
  unfold Np.ones;
  repeat first [ rewrite length_fmap | rewrite length_replicate
               | match goal with E : length _ = _ |- _ => rewrite E end ];
  simpl; lia.

Section Transition.
Context `{Quadrature}.

Lemma create_transition_matrix_spec s n :
  wf_U s ->
  (n ≤ mesh_T (AbstractSolver.mesh (AbstractSolverU.base s)))%nat ->
  let f := AbstractSolverU.F s in
  let Fn := FunctionalF_row f n in
  SolverU.create_transition_matrix n s =
    (Ret (transition_matrix s Fn),
     AbstractSolverU.set_F
       (FunctionalF.set_mask
          (<[n:=replicate (mesh_N (FunctionalF.mesh f) + 2) true]>
             (FunctionalF.mask f))
          (FunctionalF.set_matrix (<[n:=Fn]> (FunctionalF.matrix f)) f)) s,
     FunctionalF_quadratures f n).
Proof.
  intros (Hb & Hm1 & HF & HFm & Hk) Hn f Fn.
  pose proof Hb as (Hr & HK & Hu & HR).
  set (msh := AbstractSolver.mesh (AbstractSolverU.base s)) in *.
  set (N := mesh_N msh) in *.
  set (alpha := alpha_of s).
  set (alpha_array := (fun e => e * alpha) <$> Np.ones (N + 1)).
  assert (length alpha_array = (N + 1)%nat) as La.
  { unfold alpha_array, Np.ones. by rewrite length_fmap, length_replicate. }
  assert (length Fn = (N + 2)%nat) as LF.
  { unfold Fn, FunctionalF_row. rewrite length_fmap, length_seq.
    unfold f. by rewrite HFm. }
  pose proof (shape_diag alpha_array 1) as Sup.
  pose proof (shape_diag alpha_array (-1)) as Slo.
  rewrite La in Sup, Slo.
  change (Z.abs_nat 1) with 1%nat in Sup. change (Z.abs_nat (-1)) with 1%nat in Slo.
  replace (N + 1 + 1)%nat with (N + 2)%nat in Sup, Slo by lia.
  unfold SolverU.create_transition_matrix. run.
  fold msh. fold N. fold (alpha_of s). fold alpha. fold alpha_array.
  rewrite (set2Z_Ret (N + 2) (N + 2) _ 0 1 0%nat 1%nat);
    [|done|lia|lia|solve_index|solve_index].
  run.
  rewrite (set2Z_Ret (N + 2) (N + 2) _ (-1) (-2) (N + 1)%nat N);
    [|done|lia|lia|solve_index|solve_index].
  run.
  erewrite run_zoom;
    [|apply FunctionalF_getitem; [done|unfold f in *; rewrite HFm; exact Hn]].
  fold f. fold Fn.
  unfold Np.mul at 1. rewrite zip_Ret by congruence. run.
  unfold Np.add at 1.
  rewrite zip_Ret
    by (unfold Np.neg; rewrite length_fmap, length_zip_with; lia).
  run.
  set (beta := Np.sadd _ _).
  assert (length beta = (N + 2)%nat) as Lb.
  { unfold beta, Np.sadd, Np.smul, Np.neg.
    rewrite !length_fmap, !length_zip_with, length_fmap. lia. }
  pose proof (shape_diag beta 0) as Sce. rewrite Lb in Sce.
  change (Z.abs_nat 0) with 0%nat in Sce. rewrite Nat.add_0_r in Sce.
  set (upper := alter _ 0%nat _) in *. set (lower := alter _ (N + 1)%nat _) in *.
  assert (shape (N + 2) (N + 2) upper) as Sup'
    by (apply shape_alter; [done|intros; apply length_insert]).
  assert (shape (N + 2) (N + 2) lower) as Slo'
    by (apply shape_alter; [done|intros; apply length_insert]).
  rewrite (madd_Ret (N + 2) (N + 2)) by done. run.
  rewrite (madd_Ret (N + 2) (N + 2)) by (done || by apply shape_zip2).
  unfold lift. rewrite app_nil_r. f_equal. f_equal. f_equal.
  apply (mat_ext (N + 2) (N + 2)).
  { by repeat apply shape_zip2. }
  { apply shape_tabulate. }
  intros i j Hi Hj. unfold transition_matrix. fold msh. fold N.
  rewrite cached_tabulate by done.
  erewrite cached_zip2; [| |].
  2:{ eapply cached_zip2.
      - unfold lower. eapply cached_alter. apply cached_diag; diag_range.
      - apply cached_diag; diag_range. }
  2:{ unfold upper. eapply cached_alter. apply cached_diag; diag_range. }
  f_equal. unfold transition_entry. fold msh. fold N. fold alpha.
  assert (∀ k, (k < N + 1)%nat -> default 0 (alpha_array !! k) = alpha) as Hal.
  { intros k Hk'. unfold alpha_array, Np.ones.
    rewrite list_lookup_fmap, lookup_replicate_2 by done. simpl. ring. }
  assert (default 0 (beta !! i) = reaction_diagonal s Fn i) as Hbe.
  { destruct (lookup_lt_is_Some_2 (AbstractSolverU.m_1 s) i) as [m Em];
      [unfold msh, N in *; lia|].
    destruct (lookup_lt_is_Some_2 (AbstractSolver.r (AbstractSolverU.base s)) i)
      as [ri Er]; [unfold msh, N in *; lia|].
    destruct (lookup_lt_is_Some_2 Fn i) as [Fi EF]; [lia|].
    unfold beta, Np.sadd, Np.smul, Np.neg, reaction_diagonal.
    rewrite !list_lookup_fmap, lookup_zip_with, list_lookup_fmap, Em.
    simpl. rewrite lookup_zip_with, Er, EF. simpl. reflexivity. }
  repeat case_decide; try lia; subst;
    rewrite ?Nat.min_id, ?Hbe, ?Hal by lia;
    unfold alpha, alpha_of, msh; ring.
Qed.

End Transition.

(** ** One step of each solver *)

Lemma scheme1_row_eq s (Gv Rn : vec) :
  let msh := AbstractSolver.mesh (AbstractSolverR.base s) in
  length (AbstractSolverR.m_2 s) = (mesh_M msh + 2)%nat ->
  length (AbstractSolverR.R_in s) = (mesh_M msh + 2)%nat ->
  length Gv = (mesh_M msh + 2)%nat -> length Rn = (mesh_M msh + 2)%nat ->
  zip_with Qcplus
    (zip_with Qcmult
       (Np.ssub 1 (Np.smul (mesh_dt msh)
                     (zip_with Qcplus (AbstractSolverR.m_2 s) Gv))) Rn)
    (Np.smul (mesh_dt msh) (AbstractSolverR.R_in s))
  = scheme1_row s Gv Rn.
Proof.
  intros msh L2 Li LG LR. apply list_eq. intros k.
  unfold scheme1_row, Np.ssub, Np.smul. fold msh.
  destruct (decide (k < mesh_M msh + 2)%nat) as [Hk|Hk].
  - destruct (lookup_lt_is_Some_2 (AbstractSolverR.m_2 s) k) as [m Em]; [lia|].
    destruct (lookup_lt_is_Some_2 (AbstractSolverR.R_in s) k) as [ri Ei]; [lia|].
    destruct (lookup_lt_is_Some_2 Gv k) as [g Eg]; [lia|].
    destruct (lookup_lt_is_Some_2 Rn k) as [rk Er]; [lia|].
    rewrite list_lookup_fmap, lookup_seq_lt by done.
    rewrite !lookup_zip_with, !list_lookup_fmap, lookup_zip_with.
    repeat (first [rewrite Em|rewrite Eg|rewrite Er|rewrite Ei]; simpl).
    reflexivity.
  - rewrite !lookup_ge_None_2; [done|..].
    + rewrite length_fmap, length_seq. lia.
    + rewrite !length_zip_with, !length_fmap, length_zip_with. lia.
Qed.

Lemma scheme2_row_eq s (Gv : vec) :
  let msh := AbstractSolver.mesh (AbstractSolverR.base s) in
  length (AbstractSolverR.m_2 s) = (mesh_M msh + 2)%nat ->
  length (AbstractSolverR.R_in s) = (mesh_M msh + 2)%nat ->
  length Gv = (mesh_M msh + 2)%nat ->
  zip_with Qcdiv (AbstractSolverR.R_in s)
    (zip_with Qcplus (AbstractSolverR.m_2 s) Gv)
  = scheme2_row s Gv.
Proof.
  intros msh L2 Li LG. apply list_eq. intros k.
  unfold scheme2_row. fold msh.
  destruct (decide (k < mesh_M msh + 2)%nat) as [Hk|Hk].
  - destruct (lookup_lt_is_Some_2 (AbstractSolverR.m_2 s) k) as [m Em]; [lia|].
    destruct (lookup_lt_is_Some_2 (AbstractSolverR.R_in s) k) as [ri Ei]; [lia|].
    destruct (lookup_lt_is_Some_2 Gv k) as [g Eg]; [lia|].
    rewrite list_lookup_fmap, lookup_seq_lt by done.
    rewrite !lookup_zip_with.
    repeat (first [rewrite Em|rewrite Eg|rewrite Ei]; simpl).
    reflexivity.
  - rewrite !lookup_ge_None_2; [done|..].
    + rewrite length_fmap, length_seq. lia.
    + rewrite !length_zip_with. lia.
Qed.

Section Steps.
Context `{Quadrature}.

Lemma U_step_spec s n :
  wf_U s ->
  (n < mesh_T (AbstractSolver.mesh (AbstractSolverU.base s)))%nat ->
  AbstractDiscreteFunction.is_row_calculated (AbstractSolverU.mask s) (n + 1)
    = Ret false ->
  ∃ un, AbstractSolver.u (AbstractSolverU.base s) !! n = Some un ∧
    let Fn := FunctionalF_row (AbstractSolverU.F s) n in
    let new := matvec (transition_matrix s Fn) un in
    SolverU.actualize_step_np1 n s =
      (Ret new, U_stepped n new s,
       FunctionalF_quadratures (AbstractSolverU.F s) n).
Proof.
  intros Hwf Hn Hcalc. pose proof Hwf as (Hb & Hm1 & HF & HFm & Hk).
  pose proof Hb as (Hr & HK & Hu & HR).
  set (msh := AbstractSolver.mesh (AbstractSolverU.base s)) in *.
  destruct (shape_lookup _ _ _ n Hu) as (un & Eun & Lun); [lia|].
  destruct (shape_lookup _ _ _ (n + 1) Hu) as (old & Eold & Lold); [lia|].
  destruct (shape_lookup _ _ _ (n + 1) Hk) as (mold & Emold & _); [lia|].
  exists un. split; [done|]. intros Fn new.
  unfold SolverU.actualize_step_np1. run. rewrite Hcalc. run. simpl. run.
  rewrite (run_bind _ _ _ _ _ _
             (create_transition_matrix_spec s n Hwf ltac:(fold msh; lia))).
  fold Fn. run. simpl. rewrite (getrow_Ret _ _ _ Eun). run.
  rewrite dot_Ret.
  2:{ unfold transition_matrix. apply Forall_fmap, Forall_forall.
      intros i _. simpl. rewrite length_fmap, length_seq. fold msh. lia. }
  run. fold new.
  rewrite (setrow_Ret _ _ old);
    [|done|unfold new, matvec, transition_matrix;
           rewrite !length_fmap, length_seq; fold msh; lia].
  run. rewrite run_zoom_modify. run. simpl.
  unfold AbstractDiscreteFunction.update_mask_row.
  rewrite (fillrow_Ret _ _ mold) by done. run. simpl.
  erewrite getrow_Ret
    by (apply list_lookup_insert_eq; destruct Hu as [-> _]; lia).
  unfold lift. rewrite !app_nil_r. reflexivity.
Qed.

Lemma length_FunctionalG_row g n :
  length (FunctionalG_row g n) = (mesh_M (FunctionalG.mesh g) + 2)%nat.
Proof. unfold FunctionalG_row. by rewrite length_fmap, length_seq. Qed.

Lemma length_scheme1_row s Gv Rn :
  length (scheme1_row s Gv Rn)
  = (mesh_M (AbstractSolver.mesh (AbstractSolverR.base s)) + 2)%nat.
Proof. unfold scheme1_row. by rewrite length_fmap, length_seq. Qed.

Lemma length_scheme2_row s Gv :
  length (scheme2_row s Gv)
  = (mesh_M (AbstractSolver.mesh (AbstractSolverR.base s)) + 2)%nat.
Proof. unfold scheme2_row. by rewrite length_fmap, length_seq. Qed.

Lemma R1_step_spec s n :
  wf_R s ->
  (n < mesh_T (AbstractSolver.mesh (AbstractSolverR.base s)))%nat ->
  AbstractDiscreteFunction.is_row_calculated (AbstractSolverR.mask s) (n + 1)
    = Ret false ->
  ∃ Rn, AbstractSolver.R (AbstractSolverR.base s) !! n = Some Rn ∧
    let Gn := FunctionalG_row (AbstractSolverR.G s) n in
    let new := scheme1_row s Gn Rn in
    SolverRMethod1.actualize_step_np1 n s =
      (Ret new, R_stepped n n new s,
       FunctionalG_quadratures (AbstractSolverR.G s) n).
Proof.
  intros Hwf Hn Hcalc. pose proof Hwf as (Hb & Hm2 & HRin & HG & HGm & Hk).
  pose proof Hb as (Hr & HK & Hu & HR).
  set (msh := AbstractSolver.mesh (AbstractSolverR.base s)) in *.
  destruct (shape_lookup _ _ _ n HR) as (Rn & ERn & LRn); [lia|].
  destruct (shape_lookup _ _ _ (n + 1) HR) as (old & Eold & Lold); [lia|].
  destruct (shape_lookup _ _ _ (n + 1) Hk) as (mold & Emold & _); [lia|].
  exists Rn. split; [done|]. intros Gn new.
  assert (length Gn = (mesh_M msh + 2)%nat) as LG.
  { unfold Gn. rewrite length_FunctionalG_row. by rewrite HGm. }
  unfold SolverRMethod1.actualize_step_np1. run. rewrite Hcalc. run. simpl. run.
  erewrite run_zoom; [|apply FunctionalG_getitem; [done|rewrite HGm; fold msh; lia]].
  fold Gn. run. simpl. unfold Np.add, Np.mul.
  rewrite (zip_Ret Qcplus (AbstractSolverR.m_2 s) Gn) by lia. run.
  rewrite (getrow_Ret _ _ _ ERn). run.
  rewrite (zip_Ret Qcmult _ Rn)
    by (unfold Np.ssub, Np.smul; rewrite !length_fmap, length_zip_with; lia).
  run.
  rewrite (zip_Ret Qcplus)
    by (unfold Np.ssub, Np.smul;
        rewrite length_zip_with, !length_fmap, length_zip_with; lia).
  run. rewrite (scheme1_row_eq s Gn Rn) by done. fold new.
  rewrite (setrow_Ret _ _ old);
    [|done|unfold new; rewrite length_scheme1_row; fold msh; lia].
  run. rewrite run_zoom_modify. run. simpl.
  unfold AbstractDiscreteFunction.update_mask_row.
  rewrite (fillrow_Ret _ _ mold) by done. run. simpl.
  erewrite getrow_Ret
    by (apply list_lookup_insert_eq; destruct HR as [-> _]; lia).
  unfold lift. rewrite !app_nil_r. reflexivity.
Qed.

Lemma R2_step_spec s n :
  wf_R s ->
  (n < mesh_T (AbstractSolver.mesh (AbstractSolverR.base s)))%nat ->
  AbstractDiscreteFunction.is_row_calculated (AbstractSolverR.mask s) (n + 1)
    = Ret false ->
  let G_np1 := FunctionalG_row (AbstractSolverR.G s) (n + 1) in
  let new := scheme2_row s G_np1 in
  SolverRMethod2.actualize_step_np1 n s =
    (Ret new, R_stepped (n + 1) n new s,
     FunctionalG_quadratures (AbstractSolverR.G s) (n + 1)).
Proof.
  intros Hwf Hn Hcalc. pose proof Hwf as (Hb & Hm2 & HRin & HG & HGm & Hk).
  pose proof Hb as (Hr & HK & Hu & HR).
  set (msh := AbstractSolver.mesh (AbstractSolverR.base s)) in *.
  destruct (shape_lookup _ _ _ (n + 1) HR) as (old & Eold & Lold); [lia|].
  destruct (shape_lookup _ _ _ (n + 1) Hk) as (mold & Emold & _); [lia|].
  intros G_np1 new.
  assert (length G_np1 = (mesh_M msh + 2)%nat) as LG.
  { unfold G_np1. rewrite length_FunctionalG_row. by rewrite HGm. }
  unfold SolverRMethod2.actualize_step_np1. run. rewrite Hcalc. run. simpl. run.
  erewrite run_zoom; [|apply FunctionalG_getitem; [done|rewrite HGm; fold msh; lia]].
  fold G_np1. run. simpl. unfold Np.add, Np.div.
  rewrite (zip_Ret Qcplus (AbstractSolverR.m_2 s) G_np1) by lia. run.
  rewrite (zip_Ret Qcdiv) by (rewrite length_zip_with; lia).
  run. rewrite (scheme2_row_eq s G_np1) by done. fold new.
  rewrite (setrow_Ret _ _ old);
    [|done|unfold new; rewrite length_scheme2_row; fold msh; lia].
  run. rewrite run_zoom_modify. run. simpl.
  unfold AbstractDiscreteFunction.update_mask_row.
  rewrite (fillrow_Ret _ _ mold) by done. run. simpl.
  erewrite getrow_Ret
    by (apply list_lookup_insert_eq; destruct HR as [-> _]; lia).
  unfold lift. rewrite !app_nil_r. reflexivity.
Qed.

End Steps.

(** ** The update rules *)

Lemma is_row_calculated_filled rows cols (mask : bmat) n :
  shape rows cols mask -> (n < rows)%nat ->
  AbstractDiscreteFunction.is_row_calculated
    (alter (fun old => replicate (length old) true) n mask) n = Ret true.
Proof.
  intros Hs Hn. unfold AbstractDiscreteFunction.is_row_calculated.
  rewrite (getrow_Ret _ _ _ (fillrow_lookup _ _ _ _ true Hs Hn)). simpl.
  f_equal. clear Hs. induction cols as [|cols IH]; [done|]. simpl. exact IH.
Qed.

Section StepClaims.
Context `{Quadrature}.

(** C4.  When row [n + 1] of [u] is not yet marked computed,
    [SolverU.actualize_step_np1(n)] evaluates [F[n]], builds the transition
    matrix with the entries described ([alpha] next to the diagonal,
    [2 alpha] at [(0, 1)] and [(N + 1, N)], the reaction term on the
    diagonal, [0] elsewhere), stores its product with [u[n]] as [u[n + 1]],
    marks row [n + 1] computed and returns it. *)
Theorem SolverU_step (s : AbstractSolverU.t) (n : nat) :
  wf_U s ->
  (n < mesh_T (AbstractSolver.mesh (AbstractSolverU.base s)))%nat ->
  AbstractDiscreteFunction.is_row_calculated (AbstractSolverU.mask s) (n + 1)
    = Ret false ->
  ∃ un s' l,
    AbstractSolver.u (AbstractSolverU.base s) !! n = Some un ∧
    let Fn := FunctionalF_row (AbstractSolverU.F s) n in
    let new := matvec (transition_matrix s Fn) un in
    (FunctionalF.getitem n (AbstractSolverU.F s)).1.1 = Ret Fn ∧
    (SolverU.create_transition_matrix n s).1.1 = Ret (transition_matrix s Fn) ∧
    SolverU.actualize_step_np1 n s = (Ret new, s', l) ∧
    AbstractSolver.u (AbstractSolverU.base s') !! (n + 1)%nat = Some new ∧
    AbstractDiscreteFunction.is_row_calculated (AbstractSolverU.mask s') (n + 1)
      = Ret true.
Proof.
  intros Hwf Hn Hcalc.
  destruct (U_step_spec s n Hwf Hn Hcalc) as (un & Eun & Hstep).
  pose proof Hwf as (Hb & Hm1 & HF & HFm & Hk).
  pose proof Hb as (Hr & HK & Hu & HR).
  exists un. eexists. eexists. split; [done|]. intros Fn new.
  split; [|split; [|split; [apply Hstep|split]]].
  - rewrite FunctionalF_getitem; [done..|]. rewrite HFm. lia.
  - rewrite create_transition_matrix_spec; [done..|lia].
  - simpl. apply list_lookup_insert_eq. destruct Hu as [-> _]. lia.
  - simpl. eapply is_row_calculated_filled; [done|lia].
Qed.

(** C5.  When row [n + 1] of [R] is not yet marked computed,
    [SolverRMethod1.actualize_step_np1(n)] evaluates [G[n]] and stores
    [(1 - dt (m_2 + G[n])) R[n] + dt R_in], componentwise over the [M + 2]
    resource points, as [R[n + 1]], marks row [n + 1] computed and returns
    it. *)
Theorem SolverRMethod1_step (s : AbstractSolverR.t) (n : nat) :
  wf_R s ->
  (n < mesh_T (AbstractSolver.mesh (AbstractSolverR.base s)))%nat ->
  AbstractDiscreteFunction.is_row_calculated (AbstractSolverR.mask s) (n + 1)
    = Ret false ->
  ∃ Rn s' l,
    AbstractSolver.R (AbstractSolverR.base s) !! n = Some Rn ∧
    let Gn := FunctionalG_row (AbstractSolverR.G s) n in
    let new := scheme1_row s Gn Rn in
    (FunctionalG.getitem n (AbstractSolverR.G s)).1.1 = Ret Gn ∧
    SolverRMethod1.actualize_step_np1 n s = (Ret new, s', l) ∧
    AbstractSolver.R (AbstractSolverR.base s') !! (n + 1)%nat = Some new ∧
    AbstractDiscreteFunction.is_row_calculated (AbstractSolverR.mask s') (n + 1)
      = Ret true.
Proof.
  intros Hwf Hn Hcalc.
  destruct (R1_step_spec s n Hwf Hn Hcalc) as (Rn & ERn & Hstep).
  pose proof Hwf as (Hb & Hm2 & HRin & HG & HGm & Hk).
  pose proof Hb as (Hr & HK & Hu & HR).
  exists Rn. eexists. eexists. split; [done|]. intros Gn new.
  split; [|split; [apply Hstep|split]].
  - rewrite FunctionalG_getitem; [done..|]. rewrite HGm. lia.
  - simpl. apply list_lookup_insert_eq. destruct HR as [-> _]. lia.
  - simpl. eapply is_row_calculated_filled; [done|lia].
Qed.

(** C6.  When row [n + 1] of [R] is not yet marked computed,
    [SolverRMethod2.actualize_step_np1(n)] evaluates [G[n + 1]], one step
    ahead, and stores [R_in / (m_2 + G[n + 1])], componentwise over the
    [M + 2] resource points, as [R[n + 1]], marks row [n + 1] computed and
    returns it. *)
Theorem SolverRMethod2_step (s : AbstractSolverR.t) (n : nat) :
  wf_R s ->
  (n < mesh_T (AbstractSolver.mesh (AbstractSolverR.base s)))%nat ->
  AbstractDiscreteFunction.is_row_calculated (AbstractSolverR.mask s) (n + 1)
    = Ret false ->
  ∃ s' l,
    let G_np1 := FunctionalG_row (AbstractSolverR.G s) (n + 1) in
    let new := scheme2_row s G_np1 in
    (FunctionalG.getitem (n + 1) (AbstractSolverR.G s)).1.1 = Ret G_np1 ∧
    SolverRMethod2.actualize_step_np1 n s = (Ret new, s', l) ∧
    AbstractSolver.R (AbstractSolverR.base s') !! (n + 1)%nat = Some new ∧
    AbstractDiscreteFunction.is_row_calculated (AbstractSolverR.mask s') (n + 1)
      = Ret true.
Proof.
  intros Hwf Hn Hcalc.
  pose proof (R2_step_spec s n Hwf Hn Hcalc) as Hstep.
  pose proof Hwf as (Hb & Hm2 & HRin & HG & HGm & Hk).
  pose proof Hb as (Hr & HK & Hu & HR).
  eexists. eexists. intros G_np1 new.
  split; [|split; [apply Hstep|split]].
  - rewrite FunctionalG_getitem; [done..|]. rewrite HGm. lia.
  - simpl. apply list_lookup_insert_eq. destruct HR as [-> _]. lia.
  - simpl. eapply is_row_calculated_filled; [done|lia].
Qed.

Lemma R2_step_row (s : AbstractSolverR.t) (n : nat) :
  wf_R s ->
  (n < mesh_T (AbstractSolver.mesh (AbstractSolverR.base s)))%nat ->
  AbstractDiscreteFunction.is_row_calculated (AbstractSolverR.mask s) (n + 1)
    = Ret false ->
  ∃ s' l,
    let new := scheme2_row s (FunctionalG_row (AbstractSolverR.G s) (n + 1)) in
    SolverRMethod2.actualize_step_np1 n s = (Ret new, s', l) ∧
    AbstractSolver.R (AbstractSolverR.base s') !! (n + 1)%nat = Some new.
Proof.
  intros Hwf Hn Hcalc.
  pose proof (R2_step_spec s n Hwf Hn Hcalc) as Hstep.
  pose proof Hwf as ((_ & _ & _ & HR) & _).
  eexists. eexists. intros new. split; [apply Hstep|].
  simpl. apply list_lookup_insert_eq. destruct HR as [-> _]. lia.
Qed.

(** C7, as the code has it.  With every component of [R_in] and of [m_2]
    strictly positive, and every component of [m_2 + G[n + 1]] strictly
    positive as well, every component of the row [R[n + 1]] that
    [SolverRMethod2.actualize_step_np1(n)] produces is non-negative. *)
Theorem SolverRMethod2_nonnegative (s : AbstractSolverR.t) (n : nat) :
  wf_R s ->
  (n < mesh_T (AbstractSolver.mesh (AbstractSolverR.base s)))%nat ->
  AbstractDiscreteFunction.is_row_calculated (AbstractSolverR.mask s) (n + 1)
    = Ret false ->
  Forall (fun ri => 0 < ri) (AbstractSolverR.R_in s) ->
  Forall (fun m => 0 < m) (AbstractSolverR.m_2 s) ->
  Forall2 (fun m g => 0 < m + g) (AbstractSolverR.m_2 s)
          (FunctionalG_row (AbstractSolverR.G s) (n + 1)) ->
  ∃ new s' l,
    SolverRMethod2.actualize_step_np1 n s = (Ret new, s', l) ∧
    AbstractSolver.R (AbstractSolverR.base s') !! (n + 1)%nat = Some new ∧
    Forall (fun v => 0 ≤ v) new.
Proof.
  intros Hwf Hn Hcalc Hin Hm2 Hden.
  destruct (R2_step_row s n Hwf Hn Hcalc) as (s' & l & Hstep & Hrow).
  eexists. exists s', l. split; [exact Hstep|]. split; [exact Hrow|].
  pose proof Hwf as (Hb & Lm2 & LRin & _).
  unfold scheme2_row. apply Forall_fmap, Forall_forall. intros k Hk. simpl.
  apply elem_of_seq in Hk.
  destruct (lookup_lt_is_Some_2 (AbstractSolverR.R_in s) k) as [ri Ei]; [lia|].
  destruct (lookup_lt_is_Some_2 (AbstractSolverR.m_2 s) k) as [m Em]; [lia|].
  destruct (Forall2_lookup_l _ _ _ _ _ Hden Em) as (g & Eg & Hpos).
  rewrite Ei, Em, Eg. simpl.
  pose proof (Forall_lookup_1 _ _ _ _ Hin Ei) as Hri. simpl in Hri.
  apply Qclt_le_weak. unfold Qcdiv.
  apply Qcmult_pos_pos; [done|]. by apply Qcinv_pos.
Qed.

End StepClaims.

(** ** One iteration of the driver loop *)

Lemma is_row_calculated_other (mask : bmat) n n' b
    (f : list bool -> list bool) :
  n' ≠ n ->
  AbstractDiscreteFunction.is_row_calculated mask n = Ret b ->
  AbstractDiscreteFunction.is_row_calculated (alter f n' mask) n = Ret b.
Proof.
  intros Hne. unfold AbstractDiscreteFunction.is_row_calculated, Np.getrow.
  by rewrite list_lookup_alter_ne.
Qed.

Lemma is_row_calculated_cleared rows cols (mask : bmat) n :
  shape rows cols mask -> (n < rows)%nat -> (0 < cols)%nat ->
  AbstractDiscreteFunction.is_row_calculated
    (alter (fun old => replicate (length old) false) n mask) n = Ret false.
Proof.
  intros Hs Hn Hc. unfold AbstractDiscreteFunction.is_row_calculated.
  rewrite (getrow_Ret _ _ _ (fillrow_lookup _ _ _ _ false Hs Hn)). simpl.
  f_equal. destruct cols; [lia|done].
Qed.

Section Iteration.
Context `{Quadrature}.

Lemma FunctionalF_row_received f n row :
  wf_F f -> (n ≤ mesh_T (FunctionalF.mesh f))%nat ->
  FunctionalF_row
    (FunctionalF.set_mask
       (alter (fun old => replicate (length old) false) n (FunctionalF.mask f))
       (FunctionalF.set_R (<[n:=row]> (FunctionalF.R f)) f)) n
  = FunctionalF_fresh_row f row.
Proof.
  intros (HK & HR & Hm & Hk) Hn. unfold FunctionalF_row, FunctionalF_fresh_row.
  simpl. apply list_fmap_ext. intros i j Hj.
  apply lookup_seq in Hj as [-> Hj]. simpl.
  unfold FunctionalF_value. simpl.
  erewrite cached_Some;
    [|eapply fillrow_lookup; [done|lia]|by apply lookup_replicate_2].
  simpl. unfold FunctionalF_integrand. simpl.
  rewrite list_lookup_insert_eq by (destruct HR as [-> _]; lia). done.
Qed.

Lemma FunctionalG_row_received g n row :
  wf_G g -> (n ≤ mesh_T (FunctionalG.mesh g))%nat ->
  FunctionalG_row
    (FunctionalG.set_mask
       (alter (fun old => replicate (length old) false) n (FunctionalG.mask g))
       (FunctionalG.set_u (<[n:=row]> (FunctionalG.u g)) g)) n
  = FunctionalG_fresh_row g row.
Proof.
  intros (Hr & HK & Hu & Hm & Hk) Hn. unfold FunctionalG_row, FunctionalG_fresh_row.
  simpl. apply list_fmap_ext. intros i j Hj.
  apply lookup_seq in Hj as [-> Hj]. simpl.
  unfold FunctionalG_value. simpl.
  erewrite cached_Some;
    [|eapply fillrow_lookup; [done|lia]|by apply lookup_replicate_2].
  simpl. unfold FunctionalG_integrand. simpl.
  rewrite list_lookup_insert_eq by (destruct Hu as [-> _]; lia). done.
Qed.

Lemma FunctionalG_row_other g n n' row :
  n' ≠ n ->
  FunctionalG_row
    (FunctionalG.set_mask
       (alter (fun old => replicate (length old) false) n' (FunctionalG.mask g))
       (FunctionalG.set_u (<[n':=row]> (FunctionalG.u g)) g)) n
  = FunctionalG_row g n.
Proof.
  intros Hne. unfold FunctionalG_row. simpl. apply list_fmap_ext.
  intros i j _. unfold FunctionalG_value, FunctionalG_integrand, cached. simpl.
  rewrite list_lookup_alter_ne by done.
  by rewrite list_lookup_insert_ne by done.
Qed.

Lemma iteration_spec cls s n :
  wf_solvers s ->
  (n < mesh_T (AbstractSolver.mesh (AbstractSolverU.base (solver_u s))))%nat ->
  AbstractDiscreteFunction.is_row_calculated
    (AbstractSolverU.mask (solver_u s)) (n + 1) = Ret false ->
  ∃ Rn un,
    AbstractSolver.R (AbstractSolverR.base (solver_R s)) !! n = Some Rn ∧
    AbstractSolver.u (AbstractSolverU.base (solver_u s)) !! n = Some un ∧
    let su1 := U_received Rn n (solver_u s) in
    let u_np1 :=
      matvec (transition_matrix (solver_u s)
                (FunctionalF_row (AbstractSolverU.F su1) n)) un in
    let sr1 := R_received u_np1 (n + 1) (solver_R s) in
    let R_np1 := R_step_row cls n sr1 Rn in
    iteration cls n s =
      (Ret tt,
       {| solver_u := U_stepped n u_np1 su1;
          solver_R := R_stepped (R_step_reads cls n) n R_np1 sr1 |},
       Call (u_actualize_row Rn n) :: Call (u_actualize_step_np1 n)
       :: FunctionalF_quadratures (AbstractSolverU.F su1) n
       ++ Call (R_actualize_row u_np1 (n + 1)) :: Call (R_actualize_step_np1 n)
       :: FunctionalG_quadratures (AbstractSolverR.G sr1) (R_step_reads cls n)).
Proof.
  intros (HU & HR & Hmesh) Hn Hcalc.
  pose proof HU as (HUb & HUm1 & HUF & HUFm & HUk).
  pose proof HR as (HRb & HRm2 & HRin & HRG & HRGm & HRk).
  pose proof HUb as (_ & _ & HUu & _). pose proof HRb as (_ & _ & _ & HRR).
  set (msh := AbstractSolver.mesh (AbstractSolverU.base (solver_u s))) in *.
  destruct (shape_lookup _ _ _ n HRR) as (Rn & ERn & LRn); [rewrite <- Hmesh; lia|].
  destruct (shape_lookup _ _ _ n HUu) as (un & Eun & Lun); [lia|].
  exists Rn, un. split; [done|]. split; [done|]. intros su1 u_np1 sr1 R_np1.
  assert (wf_U su1) as Hsu1
    by (apply wf_U_received; [done|]; rewrite LRn, <- Hmesh; done).
  assert (AbstractDiscreteFunction.is_row_calculated
            (AbstractSolverU.mask su1) (n + 1) = Ret false) as Hcalc1.
  { unfold su1. simpl. apply is_row_calculated_other; [lia|done]. }
  destruct (U_step_spec su1 n Hsu1 Hn Hcalc1) as (un' & Eun' & Hstep').
  simpl in Eun'. rewrite Eun in Eun'. injection Eun' as <-.
  assert (SolverU.actualize_step_np1 n su1 =
          (Ret u_np1, U_stepped n u_np1 su1,
           FunctionalF_quadratures (AbstractSolverU.F su1) n)) as Hstep
    by exact Hstep'.
  clear Hstep'.
  assert (length u_np1 = (mesh_N msh + 2)%nat) as Lu.
  { unfold u_np1, matvec, transition_matrix.
    by rewrite !length_fmap, length_seq. }
  clearbody u_np1.
  assert (wf_R sr1) as Hsr1
    by (apply wf_R_received; [done|]; rewrite Lu, Hmesh; done).
  assert (AbstractDiscreteFunction.is_row_calculated
            (AbstractSolverR.mask sr1) (n + 1) = Ret false) as Hcalc2.
  { unfold sr1. simpl.
    apply (is_row_calculated_cleared _ _ _ _ HRk); [rewrite <- Hmesh; lia|lia]. }
  unfold iteration, on_R, on_u.
  erewrite run_zoom; [|unfold AbstractSolverR.getitem; run;
                       rewrite (getrow_Ret _ _ _ ERn); reflexivity].
  run. simpl.
  erewrite run_zoom;
    [|simpl; apply U_actualize_row_ok;
      [done|fold msh; lia|rewrite LRn, <- Hmesh; done]].
  run. simpl. fold su1.
  erewrite run_zoom; [|simpl; exact Hstep].
  simpl.
  erewrite run_zoom.
  2:{ unfold AbstractSolverU.getitem. run. simpl.
      erewrite getrow_Ret; [reflexivity|].
      apply list_lookup_insert_eq. destruct HUu as [-> _]. lia. }
  run. simpl.
  erewrite run_zoom;
    [|simpl; apply R_actualize_row_ok;
      [done|rewrite <- Hmesh; fold msh; lia|rewrite Lu, Hmesh; done]].
  run. simpl. fold sr1.
  assert (R_step cls n sr1 =
          (Ret R_np1, R_stepped (R_step_reads cls n) n R_np1 sr1,
           FunctionalG_quadratures (AbstractSolverR.G sr1) (R_step_reads cls n)))
    as HRstep.
  { assert (n < mesh_T (AbstractSolver.mesh (AbstractSolverR.base sr1)))%nat as Hn'
      by (simpl; rewrite <- Hmesh; exact Hn).
    destruct cls; simpl.
    - destruct (R1_step_spec sr1 n Hsr1 Hn' Hcalc2) as (Rn' & ERn' & HR1).
      simpl in ERn'. rewrite ERn in ERn'. injection ERn' as <-. exact HR1.
    - exact (R2_step_spec sr1 n Hsr1 Hn' Hcalc2). }
  erewrite run_zoom; [|simpl; exact HRstep].
  rewrite run_ret. simpl. rewrite !app_nil_r. reflexivity.
Qed.

End Iteration.

(** ** The loop keeps the solvers ready *)

Section Loop.
Context `{Quadrature}.

Lemma quadratures_F f n : Forall is_quadrature (FunctionalF_quadratures f n).
Proof.
  unfold FunctionalF_quadratures. apply Forall_concat, Forall_fmap, Forall_forall.
  intros j _. simpl. destruct (default false _); by repeat constructor.
Qed.

Lemma quadratures_G g n : Forall is_quadrature (FunctionalG_quadratures g n).
Proof.
  unfold FunctionalG_quadratures. apply Forall_concat, Forall_fmap, Forall_forall.
  intros j _. simpl. destruct (default false _); by repeat constructor.
Qed.

Lemma length_FunctionalF_row f n :
  length (FunctionalF_row f n) = (mesh_N (FunctionalF.mesh f) + 2)%nat.
Proof. unfold FunctionalF_row. by rewrite length_fmap, length_seq. Qed.

Lemma wf_F_evaluated f n : wf_F f -> wf_F (FunctionalF_evaluated n f).
Proof.
  intros (HK & HR & Hm & Hk). split; [|split; [|split]]; simpl; try done.
  - apply shape_insert; [done|]. apply length_FunctionalF_row.
  - apply shape_insert; [done|]. apply length_replicate.
Qed.

Lemma wf_G_evaluated g n : wf_G g -> wf_G (FunctionalG_evaluated n g).
Proof.
  intros (Hr & HK & Hu & Hm & Hk). split; [|split; [|split; [|split]]];
    simpl; try done.
  - apply shape_insert; [done|]. apply length_FunctionalG_row.
  - apply shape_insert; [done|]. apply length_replicate.
Qed.

Lemma wf_U_stepped s n new :
  wf_U s ->
  length new = (mesh_N (AbstractSolver.mesh (AbstractSolverU.base s)) + 2)%nat ->
  wf_U (U_stepped n new s).
Proof.
  intros (Hb & Hm1 & HF & HFm & Hk) Hnew. pose proof Hb as (Hr & HK & Hu & HR).
  split; [|split; [|split; [|split]]]; simpl; try done.
  - split; [|split; [|split]]; simpl; auto using shape_insert.
  - by apply wf_F_evaluated.
  - by apply shape_fillrow.
Qed.

Lemma wf_R_stepped s k n new :
  wf_R s ->
  length new = (mesh_M (AbstractSolver.mesh (AbstractSolverR.base s)) + 2)%nat ->
  wf_R (R_stepped k n new s).
Proof.
  intros (Hb & Hm2 & HRin & HG & HGm & Hk) Hnew.
  pose proof Hb as (Hr & HK & Hu & HR).
  split; [|split; [|split; [|split; [|split]]]]; simpl; try done.
  - split; [|split; [|split]]; simpl; auto using shape_insert.
  - by apply wf_G_evaluated.
  - by apply shape_fillrow.
Qed.

Lemma length_R_step_row cls n s Rn :
  length (R_step_row cls n s Rn)
  = (mesh_M (AbstractSolver.mesh (AbstractSolverR.base s)) + 2)%nat.
Proof.
  destruct cls; simpl; [apply length_scheme1_row|apply length_scheme2_row].
Qed.

Lemma ready_iteration cls n s :
  ready n s ->
  (n < mesh_T (AbstractSolver.mesh (AbstractSolverU.base (solver_u s))))%nat ->
  ∃ s' l, iteration cls n s = (Ret tt, s', l) ∧ ready (n + 1) s'.
Proof.
  intros [Hwf Hrows] Hn.
  destruct (iteration_spec cls s n Hwf Hn (Hrows (n + 1)%nat ltac:(lia)))
    as (Rn & un & ERn & Eun & Hit).
  simpl in Hit. eexists. eexists. split; [exact Hit|].
  destruct Hwf as (HU & HR & Hmesh).
  pose proof HU as (HUb & _). pose proof HUb as (_ & _ & HUu & _).
  pose proof HR as (HRb & _).
  set (u_np1 := matvec _ un) in *.
  assert (length u_np1
          = (mesh_N (AbstractSolver.mesh (AbstractSolverU.base (solver_u s))) + 2)%nat)
    as Lu.
  { unfold u_np1, matvec, transition_matrix. by rewrite !length_fmap, length_seq. }
  split; [split; [|split]|]; simpl.
  - apply wf_U_stepped; [|done]. apply wf_U_received; [done|].
    destruct HRb as (_ & _ & _ & [_ HRf]).
    rewrite (Forall_lookup_1 _ _ _ _ HRf ERn). by rewrite Hmesh.
  - apply wf_R_stepped; [|apply length_R_step_row].
    apply wf_R_received; [done|]. by rewrite Lu, Hmesh.
  - exact Hmesh.
  - intros m Hm. apply is_row_calculated_other; [lia|].
    apply is_row_calculated_other; [lia|]. apply Hrows. lia.
Qed.

Lemma ready_loop cls k : ∀ start s,
  ready start s ->
  (start + k ≤ mesh_T (AbstractSolver.mesh (AbstractSolverU.base (solver_u s))))%nat ->
  ∃ s' l,
    for_range start k (iteration cls) s = (Ret (replicate k tt), s', l) ∧
    ready (start + k) s' ∧
    AbstractSolver.mesh (AbstractSolverU.base (solver_u s'))
    = AbstractSolver.mesh (AbstractSolverU.base (solver_u s)).
Proof.
  induction k as [|k IH]; intros start s Hready Hk; simpl.
  - exists s, []. rewrite Nat.add_0_r. by rewrite run_ret.
  - destruct (iteration_spec cls s start) as (Rn & un & _ & _ & Hit);
      [apply Hready|lia|apply Hready; lia|].
    destruct (ready_iteration cls start s Hready ltac:(lia))
      as (s1 & l1 & Hit1 & Hready1).
    assert (AbstractSolver.mesh (AbstractSolverU.base (solver_u s1))
            = AbstractSolver.mesh (AbstractSolverU.base (solver_u s))) as Hmesh1.
    { simpl in Hit. rewrite Hit in Hit1. by injection Hit1 as <- _. }
    destruct (IH (S start) s1) as (s2 & l2 & Hloop & Hready2 & Hmesh2).
    { by replace (S start) with (start + 1)%nat by lia. }
    { rewrite Hmesh1. lia. }
    exists s2, (l1 ++ l2). rewrite (run_bind _ _ _ _ _ _ Hit1).
    rewrite (run_bind _ _ _ _ _ _ Hloop). rewrite run_ret, app_nil_r.
    split; [done|]. split; [|congruence].
    by replace (start + S k)%nat with (S start + k)%nat by lia.
Qed.

End Loop.

(** ** The driver *)

Section DriverClaims.
Context `{Quadrature}.

Lemma loop_returns cls T s :
  ready 0 s ->
  (T ≤ mesh_T (AbstractSolver.mesh (AbstractSolverU.base (solver_u s))))%nat ->
  ∃ s' l, loop cls T s = (Ret tt, s', l) ∧ ready T s'.
Proof.
  intros Hready HT.
  destruct (ready_loop cls T 0 s Hready ltac:(lia)) as (s' & l & Hloop & Hr & _).
  exists s', l. unfold loop. rewrite (run_bind _ _ _ _ _ _ Hloop).
  rewrite run_ret, app_nil_r. done.
Qed.

(** C3, as the code has it.  In the state the loop has reached after [n]
    iterations, iteration [n] issues exactly four method calls, in this
    order: [u.actualize_row(R[n], n)], [u.actualize_step_np1(n)],
    [R.actualize_row(u[n+1], n+1)], [R.actualize_step_np1(n)]; between them
    only quadratures run.  The row [u[n+1]] is the transition operator,
    built from [F[n]] recomputed from [R[n]], applied to [u[n]].  Under
    [SolverRMethod2] the row [R[n+1]] is computed from [G[n+1]], recomputed
    from that [u[n+1]]; under [SolverRMethod1] it is computed from [R[n]]
    and from [G[n]] as the solver of [R] held it before the iteration. *)
Theorem leapfrog (cls : SolverR_class) (s : Solvers) (n : nat) :
  ready 0 s ->
  (n < mesh_T (AbstractSolver.mesh (AbstractSolverU.base (solver_u s))))%nat ->
  let sn := after_iterations cls n s in
  ∃ Rn un u_np1 R_np1 s' q1 q2,
    AbstractSolver.R (AbstractSolverR.base (solver_R sn)) !! n = Some Rn ∧
    AbstractSolver.u (AbstractSolverU.base (solver_u sn)) !! n = Some un ∧
    iteration cls n sn =
      (Ret tt, s',
       Call (u_actualize_row Rn n) :: Call (u_actualize_step_np1 n) :: q1
       ++ Call (R_actualize_row u_np1 (n + 1)) :: Call (R_actualize_step_np1 n)
       :: q2) ∧
    Forall is_quadrature q1 ∧ Forall is_quadrature q2 ∧
    AbstractSolver.u (AbstractSolverU.base (solver_u s')) !! (n + 1)%nat
      = Some u_np1 ∧
    AbstractSolver.R (AbstractSolverR.base (solver_R s')) !! (n + 1)%nat
      = Some R_np1 ∧
    u_np1 =
      matvec (transition_matrix (solver_u sn)
                (FunctionalF_fresh_row (AbstractSolverU.F (solver_u sn)) Rn)) un ∧
    R_np1 =
      match cls with
      | Method1 =>
          scheme1_row (solver_R sn)
            (FunctionalG_row (AbstractSolverR.G (solver_R sn)) n) Rn
      | Method2 =>
          scheme2_row (solver_R sn)
            (FunctionalG_fresh_row (AbstractSolverR.G (solver_R sn)) u_np1)
      end.
Proof.
  intros Hready Hn sn.
  destruct (ready_loop cls n 0 s Hready ltac:(lia)) as (sn' & l & Hloop & Hr & Hmesh).
  assert (sn = sn') as <-.
  { unfold sn, after_iterations, state_after. by rewrite Hloop. }
  simpl in Hr. destruct Hr as [Hwf Hrows]. rewrite <- Hmesh in Hn.
  destruct (iteration_spec cls sn n Hwf Hn (Hrows (n + 1)%nat ltac:(lia)))
    as (Rn & un & ERn & Eun & Hit).
  simpl in Hit.
  destruct Hwf as (HU & HR & Hm).
  pose proof HU as (HUb & _ & HUF & HUFm & _).
  pose proof HUb as (_ & _ & HUu & _).
  pose proof HR as (HRb & _ & _ & HRG & HRGm & _).
  pose proof HRb as (_ & _ & _ & HRR).
  exists Rn, un. eexists. eexists. eexists. eexists. eexists.
  split; [done|]. split; [done|]. split; [exact Hit|].
  split; [apply quadratures_F|]. split; [apply quadratures_G|].
  split; [|split; [|split]]; simpl.
  - apply list_lookup_insert_eq. destruct HUu as [-> _]. lia.
  - apply list_lookup_insert_eq. destruct HRR as [-> _]. rewrite <- Hm. lia.
  - rewrite FunctionalF_row_received; [done..|]. rewrite HUFm. lia.
  - destruct cls; simpl.
    + rewrite FunctionalG_row_other by lia. reflexivity.
    + rewrite FunctionalG_row_received; [done..|]. rewrite HRGm, <- Hm. lia.
Qed.

End DriverClaims.

(** ** The constructors *)

Lemma initial_inv T cols row0 (m : mat) :
  Validators.initial T cols row0 = Ret m ->
  m = row0 :: Np.zeros2 T cols ∧ length row0 = cols ∧ shape (T + 1) cols m.
Proof.
  unfold Validators.initial, Validators.discrete1.
  case_decide as E; [|done]. simpl. intros [= <-]. split; [done|]. split; [done|].
  split.
  - simpl. unfold Np.zeros2. rewrite length_replicate. lia.
  - apply Forall_cons. split; [done|]. unfold Np.zeros2.
    apply Forall_replicate. apply length_replicate.
Qed.

Lemma discrete1_inv cols v v' :
  Validators.discrete1 cols v = Ret v' -> v' = v ∧ length v = cols.
Proof. unfold Validators.discrete1. case_decide; [|done]. by intros [= <-]. Qed.

Lemma discrete2_inv rows cols (m m' : mat) :
  Validators.discrete2 rows cols m = Ret m' -> m' = m ∧ shape rows cols m.
Proof. unfold Validators.discrete2. case_decide; [|done]. by intros [= <-]. Qed.

Lemma shape_zeros2 rows cols : shape rows cols (Np.zeros2 rows cols).
Proof.
  split; [apply length_replicate|]. apply Forall_replicate, length_replicate.
Qed.

Lemma shape_create_mask rows cols (m : mat) :
  shape rows cols m -> shape rows cols (AbstractDiscreteFunction.create_mask m).
Proof.
  unfold AbstractDiscreteFunction.create_mask.
  intros [Hl Hf]. split; [by rewrite length_fmap|].
  apply Forall_forall. intros mrow Hin.
  apply list_elem_of_fmap in Hin as (row & -> & Hrow). rewrite length_fmap.
  by apply (proj1 (Forall_forall _ _) Hf).
Qed.

Ltac inv_bind H :=
  match type of H with
  | (?m ≫= _) = Ret _ =>
      let E := fresh "E" in
      destruct m eqn:E; simpl in H; [|discriminate H]
  end.

Lemma FunctionalF_init_wf K0 R_0 m f :
  FunctionalF.init K0 R_0 m = Ret f -> wf_F f ∧ FunctionalF.mesh f = m.
Proof.
  unfold FunctionalF.init. intros Hinit.
  inv_bind Hinit. inv_bind Hinit. injection Hinit as <-.
  apply discrete2_inv in E as [-> HK]. apply initial_inv in E0 as (_ & _ & HR).
  split; [|done]. split; [|split; [|split]]; simpl; try done.
  - apply shape_zeros2.
  - apply shape_create_mask, shape_zeros2.
Qed.

Lemma FunctionalG_init_wf r0 K0 u_0 m g :
  FunctionalG.init r0 K0 u_0 m = Ret g -> wf_G g ∧ FunctionalG.mesh g = m.
Proof.
  unfold FunctionalG.init. intros Hinit.
  inv_bind Hinit. inv_bind Hinit. inv_bind Hinit. injection Hinit as <-.
  apply discrete2_inv in E as [-> HK]. apply discrete1_inv in E0 as [-> Hr].
  apply initial_inv in E1 as (_ & _ & Hu).
  split; [|done]. split; [|split; [|split; [|split]]]; simpl; try done.
  - apply shape_zeros2.
  - apply shape_create_mask, shape_zeros2.
Qed.

Lemma AbstractSolver_init_wf r0 K0 u_0 R_0 m b :
  AbstractSolver.init r0 K0 u_0 R_0 m = Ret b ->
  wf_base b ∧ AbstractSolver.mesh b = m ∧ AbstractSolver.current_step b = 0%nat.
Proof.
  unfold AbstractSolver.init. intros Hinit.
  inv_bind Hinit. inv_bind Hinit. inv_bind Hinit. inv_bind Hinit.
  injection Hinit as <-.
  apply discrete1_inv in E as [-> Hr]. apply discrete2_inv in E0 as [-> HK].
  apply initial_inv in E1 as (_ & _ & Hu). apply initial_inv in E2 as (_ & _ & HR).
  split; [|done]. split; [|split; [|split]]; simpl; done.
Qed.

Lemma create_mask_unmarked rows cols (m : mat) :
  shape rows cols m -> (0 < cols)%nat ->
  Forall (fun row => forallb id row = false)
         (AbstractDiscreteFunction.create_mask m).
Proof.
  unfold AbstractDiscreteFunction.create_mask.
  intros [_ Hf] Hc. apply Forall_forall. intros mrow Hin.
  apply list_elem_of_fmap in Hin as (row & -> & Hrow).
  pose proof (proj1 (Forall_forall _ _) Hf row Hrow) as Hlen.
  destruct row; simpl in *; [lia|done].
Qed.

Ltac inv_init :=
  repeat match goal with
  | E : AbstractSolver.init _ _ _ _ _ = Ret _ |- _ =>
      apply AbstractSolver_init_wf in E as (? & ? & ?)
  | E : FunctionalF.init _ _ _ = Ret _ |- _ =>
      apply FunctionalF_init_wf in E as (? & ?)
  | E : FunctionalG.init _ _ _ _ = Ret _ |- _ =>
      apply FunctionalG_init_wf in E as (? & ?)
  | E : Validators.discrete1 _ _ = Ret _ |- _ =>
      apply discrete1_inv in E as [-> ?]
  | E : AbstractDiscreteFunction.update_mask_row _ _ _ = Ret _ |- _ =>
      apply fillrow_inv in E
  end.

Lemma AbstractSolverU_init_wf m_1 eps r0 K0 u_0 R_0 m u :
  AbstractSolverU.init m_1 eps r0 K0 u_0 R_0 m = Ret u ->
  wf_U u ∧ AbstractSolver.mesh (AbstractSolverU.base u) = m ∧
  ∀ n, (0 < n ≤ mesh_T m)%nat ->
       AbstractDiscreteFunction.is_row_calculated (AbstractSolverU.mask u) n
       = Ret false.
Proof.
  unfold AbstractSolverU.init. intros HU.
  inv_bind HU. inv_bind HU. inv_bind HU. inv_bind HU. inv_bind HU.
  injection HU as <-. inv_init. subst. simpl.
  match goal with Hb : wf_base _ |- _ => pose proof Hb as (_ & _ & HUu & _) end.
  split; [|split; [done|]].
  - split; [|split; [|split; [|split]]]; simpl; try done.
    by apply shape_fillrow, shape_create_mask.
  - intros n Hn. unfold AbstractDiscreteFunction.is_row_calculated, Np.getrow.
    rewrite list_lookup_alter_ne by lia.
    destruct (shape_lookup _ _ _ n (shape_create_mask _ _ _ HUu))
      as (row & E & _); [lia|].
    rewrite E. simpl. f_equal.
    apply (Forall_lookup_1 _ _ _ _
             (create_mask_unmarked _ _ _ HUu ltac:(lia)) E).
Qed.

Lemma AbstractSolverR_init_wf m_2 R_in r0 K0 u_0 R_0 m R :
  AbstractSolverR.init m_2 R_in r0 K0 u_0 R_0 m = Ret R ->
  wf_R R ∧ AbstractSolver.mesh (AbstractSolverR.base R) = m.
Proof.
  unfold AbstractSolverR.init. intros HR.
  inv_bind HR. inv_bind HR. inv_bind HR. inv_bind HR. inv_bind HR.
  injection HR as <-. inv_init. subst. simpl.
  match goal with Hb : wf_base _ |- _ => pose proof Hb as (_ & _ & _ & HRR) end.
  split; [|done].
  split; [|split; [|split; [|split; [|split]]]]; simpl; try done.
  by apply shape_fillrow, shape_create_mask.
Qed.

(** Solvers as the constructors build them are ready for iteration 0. *)
Lemma constructed_ready m_2 R_in m_1 eps r0 K0 u_0 R_0 m u R :
  AbstractSolverR.init m_2 R_in r0 K0 u_0 R_0 m = Ret R ->
  AbstractSolverU.init m_1 eps r0 K0 u_0 R_0 m = Ret u ->
  ready 0 {| solver_u := u; solver_R := R |}.
Proof.
  intros HR HU.
  apply AbstractSolverR_init_wf in HR as (HwR & HmR).
  apply AbstractSolverU_init_wf in HU as (HwU & HmU & Hrows).
  split; [split; [|split]|]; simpl; try done; [congruence|].
  intros n Hn. rewrite HmU in Hn. apply Hrows. lia.
Qed.

(** ** solve_perthame *)

(** Once the arrays are sampled and both constructors have accepted them,
    the loop runs to its end: no method raises. *)
Lemma solve_perthame_returns `{Quadrature} (u_0 R_0 r R_in m_1 m_2 : Qc -> Qc)
    (K : Qc -> Qc -> Qc) (eps : Qc) (cls : option SolverR_class)
    (x_lims : Qc * Qc) (y_lims : option (Qc * Qc)) (N : Z) (M : option Z)
    (dt : Qc) (T : option nat) a m R u :
  sample u_0 R_0 r R_in m_1 m_2 K x_lims y_lims N M = Ret a ->
  disc_configs x_lims a N dt (default 100%nat T) = Ret m ->
  AbstractSolverR.init (s_m_2 a) (s_R_in a) (s_r a) (s_K a) (s_u_0 a) (s_R_0 a) m
    = Ret R ->
  AbstractSolverU.init (s_m_1 a) eps (s_r a) (s_K a) (s_u_0 a) (s_R_0 a) m
    = Ret u ->
  ∃ s l,
    solve_perthame u_0 R_0 r R_in m_1 m_2 K eps cls x_lims y_lims N M dt T
      = (Ret s, Construct_R :: Construct_u :: l) ∧
    ready (default 100%nat T) s.
Proof.
  intros Ea Em ER EU. unfold solve_perthame. rewrite Ea, Em. simpl.
  rewrite ER, EU.
  assert (mesh_T m = default 100%nat T) as HT.
  { unfold disc_configs in Em. inv_bind Em. inv_bind Em.
    unfold AbstractDiscreteFunction.init in Em. inv_bind Em. inv_bind Em.
    by injection Em as <-. }
  pose proof (AbstractSolverU_init_wf _ _ _ _ _ _ _ _ EU) as (_ & HmU & _).
  destruct (loop_returns (default Method1 cls) (default 100%nat T)
              {| solver_u := u; solver_R := R |})
    as (s & l & Hloop & Hready).
  { by eapply constructed_ready. }
  { simpl. rewrite HmU, HT. done. }
  exists s, l. by rewrite Hloop.
Qed.

(** ** The default arguments of solve_perthame *)

(** C10, as the code has it.  A call that leaves [y_lims] or [M] at [None],
    and whose trait mesh can be built ([N + 2] is not negative), raises a
    TypeError on line 38, before any solver is constructed and with no
    fallback to [x_lims] or [N].  (With [N + 2 < 0] line 37 has already
    raised numpy's ValueError.) *)
Theorem defaults_raise `{Quadrature} (u_0 R_0 r R_in m_1 m_2 : Qc -> Qc)
    (K : Qc -> Qc -> Qc) (eps : Qc) (cls : option SolverR_class)
    (x_lims : Qc * Qc) (y_lims : option (Qc * Qc)) (N : Z) (M : option Z)
    (dt : Qc) (T : option nat) :
  y_lims = None ∨ M = None ->
  solve_perthame u_0 R_0 r R_in m_1 m_2 K eps cls x_lims y_lims N M dt T =
    (Raise (if decide (N + 2 < 0)%Z then ValueError else TypeError), []).
Proof.
  intros Hnone. unfold solve_perthame, sample, Np.linspace.
  case_decide; [done|]. simpl.
  destruct Hnone as [-> | ->]; [done|]. by destruct y_lims.
Qed.

(** * Further properties *)

(** ** Evaluations and row updates of a functional, on any input *)

Lemma get2_out_of_range {A} rows cols (a : list (list A)) n j :
  shape rows cols a -> (rows ≤ n ∨ cols ≤ j)%nat ->
  Np.get2 a n j = Raise IndexError.
Proof.
  intros [Hl Hf] Hout. unfold Np.get2, Np.getrow.
  destruct (a !! n) as [row|] eqn:E; [|done]. simpl.
  rewrite lookup_ge_None_2; [done|].
  rewrite (Forall_lookup_1 _ _ _ _ Hf E).
  destruct Hout as [Hn|Hj]; [|done].
  apply lookup_lt_Some in E. lia.
Qed.

Section FunctionalFrames.
Context `{Quadrature}.

(** What an evaluation can leave behind: nothing, or a new entry of the
    cache, with or without its mask bit. *)
Lemma FunctionalF_call_cases n j f :
  let f' := state_after (FunctionalF.call n j) f in
  f' = f ∨
  ∃ v, f' = FunctionalF.set_matrix (alter (<[j:=v]>) n (FunctionalF.matrix f)) f ∨
       f' = FunctionalF.set_mask (alter (<[j:=true]>) n (FunctionalF.mask f))
              (FunctionalF.set_matrix
                 (alter (<[j:=v]>) n (FunctionalF.matrix f)) f).
Proof.
  unfold state_after, FunctionalF.call. run.
  step_lift; [|by left]. destruct a; simpl.
  { left. unfold lift. by destruct (Np.get2 (FunctionalF.matrix f) n j). }
  repeat (step_lift; [|by left]). run.
  step_lift; [|by left]. run. simpl. inv_store.
  right. eexists. step_lift; simpl.
  - run. simpl. inv_store. by right.
  - by left.
Qed.

Lemma FunctionalG_call_cases n k g :
  let g' := state_after (FunctionalG.call n k) g in
  g' = g ∨
  ∃ v, g' = FunctionalG.set_matrix (alter (<[k:=v]>) n (FunctionalG.matrix g)) g ∨
       g' = FunctionalG.set_mask (alter (<[k:=true]>) n (FunctionalG.mask g))
              (FunctionalG.set_matrix
                 (alter (<[k:=v]>) n (FunctionalG.matrix g)) g).
Proof.
  unfold state_after, FunctionalG.call. run.
  step_lift; [|by left]. destruct a; simpl.
  { left. unfold lift. by destruct (Np.get2 (FunctionalG.matrix g) n k). }
  repeat (step_lift; [|by left]). run.
  step_lift; [|by left]. run. simpl. inv_store.
  right. eexists. step_lift; simpl.
  - run. simpl. inv_store. by right.
  - by left.
Qed.

(** What a row update can leave behind: nothing, the new dependency row, or
    the new row with the mask row cleared. *)
Lemma FunctionalF_actualize_row_cases row n f :
  let f' := state_after (FunctionalF.actualize_row row n) f in
  f' = f ∨
  f' = FunctionalF.set_R (<[n:=row]> (FunctionalF.R f)) f ∨
  f' = FunctionalF.set_mask
         (alter (fun old => replicate (length old) false) n (FunctionalF.mask f))
         (FunctionalF.set_R (<[n:=row]> (FunctionalF.R f)) f).
Proof.
  unfold state_after, FunctionalF.actualize_row. run.
  repeat (step_lift; [|by left]). run. simpl. inv_store.
  unfold AbstractDiscreteFunction.update_mask_row. right.
  step_lift; simpl.
  - run. simpl. inv_store. by right.
  - by left.
Qed.

Lemma FunctionalG_actualize_row_cases row n g :
  let g' := state_after (FunctionalG.actualize_row row n) g in
  g' = g ∨
  g' = FunctionalG.set_u (<[n:=row]> (FunctionalG.u g)) g ∨
  g' = FunctionalG.set_mask
         (alter (fun old => replicate (length old) false) n (FunctionalG.mask g))
         (FunctionalG.set_u (<[n:=row]> (FunctionalG.u g)) g).
Proof.
  unfold state_after, FunctionalG.actualize_row. run.
  repeat (step_lift; [|by left]). run. simpl. inv_store.
  unfold AbstractDiscreteFunction.update_mask_row. right.
  step_lift; simpl.
  - run. simpl. inv_store. by right.
  - by left.
Qed.

(** X1.  An evaluation at a time row beyond [T] or at a column beyond the
    cache width raises IndexError at the first look at the mask: the object
    is untouched and no quadrature runs. *)
Theorem evaluate_out_of_range (phi : IntegralFunctional.t) (n j : nat) :
  wf_functional phi ->
  (mesh_T (IntegralFunctional.mesh phi) < n ∨ cache_width phi ≤ j)%nat ->
  IntegralFunctional.call n j phi = (Raise IndexError, phi, []).
Proof.
  intros Hwf Hout.
  assert (Np.get2 (IntegralFunctional.mask phi) n j = Raise IndexError) as Hm.
  { destruct phi as [f|g]; simpl in *.
    - destruct Hwf as (_ & _ & _ & Hk).
      eapply get2_out_of_range; [exact Hk|lia].
    - destruct Hwf as (_ & _ & _ & _ & Hk).
      eapply get2_out_of_range; [exact Hk|lia]. }
  destruct phi as [f|g]; simpl in *; unfold dispatch.
  - unfold FunctionalF.call. run. by rewrite Hm.
  - unfold FunctionalG.call. run. by rewrite Hm.
Qed.

(** X2.  Whatever the object and the indices, and whether it returns or
    raises, an evaluation at [(n, j)] leaves the dependency field, the
    kernel, the rate and the mesh as they were, and changes no entry of the
    cache matrix or of the mask other than [(n, j)]. *)
Theorem evaluate_frame (phi : IntegralFunctional.t) (n j : nat) :
  let phi' := state_after (IntegralFunctional.call n j) phi in
  IntegralFunctional.dependency phi' = IntegralFunctional.dependency phi ∧
  kernel phi' = kernel phi ∧ rate phi' = rate phi ∧
  IntegralFunctional.mesh phi' = IntegralFunctional.mesh phi ∧
  ∀ n' j', (n, j) ≠ (n', j') ->
    Np.get2 (IntegralFunctional.matrix phi') n' j'
      = Np.get2 (IntegralFunctional.matrix phi) n' j' ∧
    Np.get2 (IntegralFunctional.mask phi') n' j'
      = Np.get2 (IntegralFunctional.mask phi) n' j'.
Proof.
  destruct phi as [f|g]; simpl; unfold state_after, IntegralFunctional.call, dispatch.
  - pose proof (FunctionalF_call_cases n j f) as Hc. unfold state_after in Hc.
    destruct (FunctionalF.call n j f) as [[o f'] l]. simpl in *.
    destruct Hc as [->|[v [->| ->]]]; simpl; repeat split;
      try done; by rewrite ?get2_alter_ne.
  - pose proof (FunctionalG_call_cases n j g) as Hc. unfold state_after in Hc.
    destruct (FunctionalG.call n j g) as [[o g'] l]. simpl in *.
    destruct Hc as [->|[v [->| ->]]]; simpl; repeat split;
      try done; by rewrite ?get2_alter_ne.
Qed.

(** X3.  Whatever the object, the row and the index, and whether it returns
    or raises, [actualize_row(row, n)] never writes the cache matrix, the
    kernel, the rate or the mesh, and leaves every row other than [n] of the
    dependency field and of the mask as it was. *)
Theorem actualize_row_frame (phi : IntegralFunctional.t) (row : vec) (n : nat) :
  let phi' := state_after (IntegralFunctional.actualize_row row n) phi in
  IntegralFunctional.matrix phi' = IntegralFunctional.matrix phi ∧
  kernel phi' = kernel phi ∧ rate phi' = rate phi ∧
  IntegralFunctional.mesh phi' = IntegralFunctional.mesh phi ∧
  ∀ n', n ≠ n' ->
    IntegralFunctional.dependency phi' !! n'
      = IntegralFunctional.dependency phi !! n' ∧
    IntegralFunctional.mask phi' !! n' = IntegralFunctional.mask phi !! n'.
Proof.
  destruct phi as [f|g]; simpl;
    unfold state_after, IntegralFunctional.actualize_row, dispatch.
  - pose proof (FunctionalF_actualize_row_cases row n f) as Hc.
    unfold state_after in Hc.
    destruct (FunctionalF.actualize_row row n f) as [[o f'] l]. simpl in *.
    destruct Hc as [->|[->| ->]]; simpl; repeat split; try done;
      by rewrite ?list_lookup_insert_ne, ?list_lookup_alter_ne.
  - pose proof (FunctionalG_actualize_row_cases row n g) as Hc.
    unfold state_after in Hc.
    destruct (FunctionalG.actualize_row row n g) as [[o g'] l]. simpl in *.
    destruct Hc as [->|[->| ->]]; simpl; repeat split; try done;
      by rewrite ?list_lookup_insert_ne, ?list_lookup_alter_ne.
Qed.

End FunctionalFrames.

(** ** Sequences of operations on a functional *)

Lemma fill_fill {A} (c c' : A) n (a : list (list A)) :
  alter (fun old => replicate (length old) c) n
    (alter (fun old => replicate (length old) c') n a)
  = alter (fun old => replicate (length old) c) n a.
Proof.
  apply list_eq. intros i. destruct (decide (i = n)) as [->|Hne].
  - rewrite !list_lookup_alter_eq. destruct (a !! n); [|done]. simpl.
    by rewrite length_replicate.
  - by rewrite !list_lookup_alter_ne.
Qed.

Lemma fill_fill_ne {A} (c c' : A) n n' (a : list (list A)) :
  n ≠ n' ->
  alter (fun old => replicate (length old) c) n
    (alter (fun old => replicate (length old) c') n' a)
  = alter (fun old => replicate (length old) c') n'
      (alter (fun old => replicate (length old) c) n a).
Proof.
  intros Hne. apply list_eq. intros i.
  destruct (decide (i = n)) as [E1|H1]; destruct (decide (i = n')) as [E2|H2];
    subst; try done;
    by rewrite ?list_lookup_alter_eq, ?list_lookup_alter_ne,
               ?list_lookup_alter_eq, ?list_lookup_alter_ne by done.
Qed.

Lemma insert_insert_same {A} n (x y : A) (l : list A) :
  <[n:=x]> (<[n:=y]> l) = <[n:=x]> l.
Proof.
  apply list_eq. intros i. destruct (decide (i = n)) as [->|Hne].
  - destruct (decide (n < length l)%nat).
    + by rewrite !list_lookup_insert_eq by (rewrite ?length_insert; lia).
    + by rewrite !lookup_ge_None_2 by (rewrite !length_insert; lia).
  - by rewrite !list_lookup_insert_ne.
Qed.

Lemma insert_insert_swap {A} n n' (x y : A) (l : list A) :
  n ≠ n' -> <[n:=x]> (<[n':=y]> l) = <[n':=y]> (<[n:=x]> l).
Proof.
  intros Hne. apply list_eq. intros i.
  destruct (decide (i < length l)%nat) as [Hi|Hi].
  - destruct (decide (i = n)) as [E1|H1]; destruct (decide (i = n')) as [E2|H2];
      subst; try done;
      by rewrite ?list_lookup_insert_eq, ?list_lookup_insert_ne,
                 ?list_lookup_insert_eq, ?list_lookup_insert_ne
        by (rewrite ?length_insert; lia).
  - by rewrite !lookup_ge_None_2 by (rewrite !length_insert; lia).
Qed.

Lemma invalidated_same row row' n phi :
  invalidated row n (invalidated row' n phi) = invalidated row n phi.
Proof.
  destruct phi as [f|g]; simpl; f_equal;
    [destruct f|destruct g]; simpl;
    unfold FunctionalF.set_mask, FunctionalF.set_R,
           FunctionalG.set_mask, FunctionalG.set_u; simpl;
    by rewrite fill_fill, insert_insert_same.
Qed.

Lemma invalidated_swap row row' n n' phi :
  n ≠ n' ->
  invalidated row n (invalidated row' n' phi)
  = invalidated row' n' (invalidated row n phi).
Proof.
  intros Hne. destruct phi as [f|g]; simpl; f_equal;
    [destruct f|destruct g]; simpl;
    unfold FunctionalF.set_mask, FunctionalF.set_R,
           FunctionalG.set_mask, FunctionalG.set_u; simpl;
    by rewrite (fill_fill_ne _ _ n n'), (insert_insert_swap n n').
Qed.

Lemma invalidated_mesh row n phi :
  IntegralFunctional.mesh (invalidated row n phi) = IntegralFunctional.mesh phi.
Proof. by destruct phi. Qed.

Lemma invalidated_width row n phi :
  dependency_width (invalidated row n phi) = dependency_width phi.
Proof. by destruct phi. Qed.

Lemma wf_with_entry n j v phi :
  wf_functional phi -> wf_functional (with_entry n j v phi).
Proof.
  assert (∀ A (c : A) (row : list A), length (<[j:=c]> row) = length row) as Hlen
    by (intros; apply length_insert).
  destruct phi as [f|g]; simpl.
  - intros (HK & HR & Hm & Hk). split; [|split; [|split]]; simpl;
      auto using shape_alter.
  - intros (Hr & HK & Hu & Hm & Hk). split; [|split; [|split; [|split]]];
      simpl; auto using shape_alter.
Qed.

Section FunctionalSequences.
Context `{Quadrature}.

(** Under the shape invariant an operation leaves the object as it was, or
    with one more cache entry, or with one row invalidated. *)
Lemma functional_do_cases op phi :
  wf_functional phi ->
  let phi' := state_after (functional_do op) phi in
  phi' = phi ∨ (∃ n j v, phi' = with_entry n j v phi) ∨
  (∃ row n, length row = dependency_width phi ∧ phi' = invalidated row n phi).
Proof.
  intros Hwf. destruct op as [n j|row n]; unfold state_after; simpl.
  - rewrite run_bind_state.
    destruct (Np.get2 (IntegralFunctional.mask phi) n j) as [[|]|e] eqn:Em.
    + left. destruct (get2_inv _ _ _ _ Em) as (mrow & E1 & E2).
      assert (∃ v, Np.get2 (IntegralFunctional.matrix phi) n j = Ret v) as [v Ev].
      { assert (∃ row c, IntegralFunctional.matrix phi !! n = Some row ∧
                         row !! j = Some c) as (row & c & Er & Ec).
        { destruct phi as [f|g]; simpl in *.
          - destruct Hwf as (_ & _ & Hm & [Hl Hf]).
            destruct (shape_lookup2 _ _ _ n j Hm) as (row & c & ? & _ & ?); eauto.
            + rewrite <- Hl. by eapply lookup_lt_Some.
            + rewrite <- (Forall_lookup_1 _ _ _ _ Hf E1). by eapply lookup_lt_Some.
          - destruct Hwf as (_ & _ & _ & Hm & [Hl Hf]).
            destruct (shape_lookup2 _ _ _ n j Hm) as (row & c & ? & _ & ?); eauto.
            + rewrite <- Hl. by eapply lookup_lt_Some.
            + rewrite <- (Forall_lookup_1 _ _ _ _ Hf E1). by eapply lookup_lt_Some. }
        exists c. by eapply get2_Ret. }
      by rewrite (call_cached _ _ _ _ Em Ev).
    + right. left. exists n, j. eexists. by rewrite (call_fresh _ _ _ Hwf Em).
    + left. destruct phi as [f|g]; simpl in *; unfold dispatch.
      * unfold FunctionalF.call. run. by rewrite Em.
      * unfold FunctionalG.call. run. by rewrite Em.
  - destruct (decide (n ≤ mesh_T (IntegralFunctional.mesh phi))%nat) as [Hn|Hn].
    + destruct (decide (length row = dependency_width phi)) as [Hr|Hr].
      * right. right. exists row, n. by rewrite actualize_row_ok.
      * left. by rewrite actualize_row_mismatch.
    + left. by rewrite actualize_row_out_of_range by (done || lia).
Qed.

Lemma functional_do_wf op phi :
  wf_functional phi -> wf_functional (state_after (functional_do op) phi).
Proof.
  intros Hwf.
  destruct (functional_do_cases op phi Hwf) as [->|[(n & j & v & ->)|(row & n & Hr & ->)]];
    auto using wf_with_entry, wf_invalidated.
Qed.

(** X4.  Every sequence of evaluations and row updates, with any indices
    and any rows, failing calls included, keeps the shapes of a functional:
    kernel [(N+2) x (M+2)], dependency field, cache matrix and mask with
    [T+1] rows of their fixed widths. *)
Theorem functional_shapes_invariant (ops : list functional_op)
    (phi : IntegralFunctional.t) :
  wf_functional phi -> wf_functional (functional_after ops phi).
Proof.
  unfold functional_after. revert phi.
  induction ops as [|op ops IH]; intros phi Hwf; simpl; [done|].
  apply IH. by apply functional_do_wf.
Qed.

(** X5.  Two row updates of the same time row compose to the last one, and
    row updates of different time rows commute: with rows of the right
    length and indices within [0..T],
    [actualize_row(r1, n); actualize_row(r2, n)] leaves the object that
    [actualize_row(r2, n)] alone leaves, and
    [actualize_row(r1, n); actualize_row(r2, n')] leaves the same object as
    the two calls in the other order when [n ≠ n']. *)
Theorem actualize_row_composition (phi : IntegralFunctional.t)
    (r1 r2 : vec) (n n' : nat) :
  wf_functional phi ->
  (n ≤ mesh_T (IntegralFunctional.mesh phi))%nat ->
  (n' ≤ mesh_T (IntegralFunctional.mesh phi))%nat ->
  length r1 = dependency_width phi -> length r2 = dependency_width phi ->
  functional_after [ActualizeRow r1 n; ActualizeRow r2 n] phi
    = functional_after [ActualizeRow r2 n] phi ∧
  (n ≠ n' ->
   functional_after [ActualizeRow r1 n; ActualizeRow r2 n'] phi
     = functional_after [ActualizeRow r2 n'; ActualizeRow r1 n] phi).
Proof.
  intros Hwf Hn Hn' H1 H2. unfold functional_after, state_after. simpl.
  rewrite !(actualize_row_ok phi) by done. simpl.
  rewrite !actualize_row_ok
    by (rewrite ?invalidated_mesh, ?invalidated_width; auto using wf_invalidated).
  simpl. split; [apply invalidated_same|]. intros Hne. symmetry.
  by apply invalidated_swap.
Qed.

End FunctionalSequences.

(** ** Steps and row updates of a solver, on any input *)

Lemma is_row_calculated_total rows cols (mask : bmat) n :
  shape rows cols mask -> (n < rows)%nat ->
  ∃ b, AbstractDiscreteFunction.is_row_calculated mask n = Ret b.
Proof.
  intros Hs Hn. destruct (shape_lookup _ _ _ n Hs Hn) as (row & E & _).
  unfold AbstractDiscreteFunction.is_row_calculated.
  rewrite (getrow_Ret _ _ _ E). simpl. eauto.
Qed.

Lemma is_row_calculated_out_of_range rows cols (mask : bmat) n :
  shape rows cols mask -> (rows ≤ n)%nat ->
  AbstractDiscreteFunction.is_row_calculated mask n = Raise IndexError.
Proof.
  intros [Hl _] Hn. unfold AbstractDiscreteFunction.is_row_calculated, Np.getrow.
  by rewrite lookup_ge_None_2 by lia.
Qed.

Section SolverSteps.
Context `{Quadrature}.

(** A step whose target row is marked computed only reads that row. *)
Lemma solver_step_calculated sigma n :
  AbstractDiscreteFunction.is_row_calculated (Solver.mask sigma) (n + 1) = Ret true ->
  Solver.actualize_step_np1 n sigma
    = (Np.getrow (Solver.matrix sigma) (n + 1), sigma, []).
Proof.
  destruct sigma as [s|s|s]; simpl; intros Hc; unfold dispatch.
  - unfold SolverU.actualize_step_np1. run. rewrite Hc. run. simpl. run.
    unfold lift. by destruct (Np.getrow _ _).
  - unfold SolverRMethod1.actualize_step_np1. run. rewrite Hc. run. simpl. run.
    unfold lift. by destruct (Np.getrow _ _).
  - unfold SolverRMethod2.actualize_step_np1. run. rewrite Hc. run. simpl. run.
    unfold lift. by destruct (Np.getrow _ _).
Qed.

(** A step whose look at the mask raises stops there. *)
Lemma solver_step_raises sigma n e :
  AbstractDiscreteFunction.is_row_calculated (Solver.mask sigma) (n + 1) = Raise e ->
  Solver.actualize_step_np1 n sigma = (Raise e, sigma, []).
Proof.
  destruct sigma as [s|s|s]; simpl; intros Hc; unfold dispatch.
  - unfold SolverU.actualize_step_np1. run. by rewrite Hc.
  - unfold SolverRMethod1.actualize_step_np1. run. by rewrite Hc.
  - unfold SolverRMethod2.actualize_step_np1. run. by rewrite Hc.
Qed.

(** A step whose target row is not marked computes it, stores it and marks
    it. *)
Lemma solver_step_fresh sigma n :
  wf_solver sigma -> (n < mesh_T (solver_mesh sigma))%nat ->
  AbstractDiscreteFunction.is_row_calculated (Solver.mask sigma) (n + 1) = Ret false ->
  ∃ new sigma' l,
    Solver.actualize_step_np1 n sigma = (Ret new, sigma', l) ∧
    wf_solver sigma' ∧
    AbstractDiscreteFunction.is_row_calculated (Solver.mask sigma') (n + 1)
      = Ret true ∧
    Solver.matrix sigma' !! (n + 1)%nat = Some new.
Proof.
  destruct sigma as [s|s|s]; simpl; unfold solver_mesh; simpl;
    intros Hwf Hn Hc; unfold dispatch.
  - destruct (U_step_spec s n Hwf Hn Hc) as (un & Eun & E). simpl in E.
    rewrite E. eexists. eexists. eexists. split; [done|].
    pose proof Hwf as (Hb & _ & _ & _ & Hk). pose proof Hb as (_ & _ & Hu & _).
    split; [|split]; simpl.
    + apply wf_U_stepped; [done|]. unfold matvec, transition_matrix.
      by rewrite !length_fmap, length_seq.
    + eapply is_row_calculated_filled; [exact Hk|lia].
    + apply list_lookup_insert_eq. destruct Hu as [-> _]. lia.
  - destruct (R1_step_spec s n Hwf Hn Hc) as (Rn & ERn & E). simpl in E.
    rewrite E. eexists. eexists. eexists. split; [done|].
    pose proof Hwf as (Hb & _ & _ & _ & _ & Hk). pose proof Hb as (_ & _ & _ & HR).
    split; [|split]; simpl.
    + apply wf_R_stepped; [done|]. apply length_scheme1_row.
    + eapply is_row_calculated_filled; [exact Hk|lia].
    + apply list_lookup_insert_eq. destruct HR as [-> _]. lia.
  - pose proof (R2_step_spec s n Hwf Hn Hc) as E. simpl in E.
    rewrite E. eexists. eexists. eexists. split; [done|].
    pose proof Hwf as (Hb & _ & _ & _ & _ & Hk). pose proof Hb as (_ & _ & _ & HR).
    split; [|split]; simpl.
    + apply wf_R_stepped; [done|]. apply length_scheme2_row.
    + eapply is_row_calculated_filled; [exact Hk|lia].
    + apply list_lookup_insert_eq. destruct HR as [-> _]. lia.
Qed.

Lemma wf_solver_mask sigma :
  wf_solver sigma ->
  ∃ cols, (0 < cols)%nat ∧
    shape (mesh_T (solver_mesh sigma) + 1) cols (Solver.mask sigma) ∧
    shape (mesh_T (solver_mesh sigma) + 1) cols (Solver.matrix sigma).
Proof.
  destruct sigma as [s|s|s]; simpl; unfold solver_mesh; simpl.
  - intros ((_ & _ & Hu & _) & _ & _ & _ & Hk). eexists. split; [|done]. lia.
  - intros ((_ & _ & _ & HR) & _ & _ & _ & _ & Hk). eexists. split; [|done]. lia.
  - intros ((_ & _ & _ & HR) & _ & _ & _ & _ & Hk). eexists. split; [|done]. lia.
Qed.

(** The three ways a step can go on a well-formed solver. *)
Lemma solver_step_cases sigma n :
  wf_solver sigma ->
  (∃ e, Solver.actualize_step_np1 n sigma = (Raise e, sigma, [])) ∨
  (∃ row, AbstractDiscreteFunction.is_row_calculated (Solver.mask sigma) (n + 1)
            = Ret true ∧
          Solver.matrix sigma !! (n + 1)%nat = Some row ∧
          Solver.actualize_step_np1 n sigma = (Ret row, sigma, [])) ∨
  (∃ new sigma' l,
     Solver.actualize_step_np1 n sigma = (Ret new, sigma', l) ∧
     wf_solver sigma' ∧
     AbstractDiscreteFunction.is_row_calculated (Solver.mask sigma') (n + 1)
       = Ret true ∧
     Solver.matrix sigma' !! (n + 1)%nat = Some new).
Proof.
  intros Hwf. destruct (wf_solver_mask sigma Hwf) as (cols & Hc & Hk & Hm).
  destruct (decide (n < mesh_T (solver_mesh sigma))%nat) as [Hn|Hn].
  - destruct (is_row_calculated_total _ _ _ (n + 1) Hk) as [[|] Eb]; [lia| |].
    + right. left.
      destruct (shape_lookup _ _ _ (n + 1) Hm) as (row & E & _); [lia|].
      exists row. split; [done|]. split; [done|].
      rewrite (solver_step_calculated _ _ Eb). by rewrite (getrow_Ret _ _ _ E).
    + right. right. by apply solver_step_fresh.
  - left. exists IndexError. apply solver_step_raises.
    eapply is_row_calculated_out_of_range; [exact Hk|lia].
Qed.

Lemma wf_solver_received sigma row n :
  wf_solver sigma -> (n ≤ mesh_T (solver_mesh sigma))%nat ->
  length row = companion_width sigma ->
  Solver.actualize_row row n sigma
    = (Ret tt,
       match sigma with
       | Solver.U s => Solver.U (U_received row n s)
       | Solver.R1 s => Solver.R1 (R_received row n s)
       | Solver.R2 s => Solver.R2 (R_received row n s)
       end, []).
Proof.
  destruct sigma as [s|s|s]; simpl; unfold solver_mesh; simpl;
    intros Hwf Hn Hrow; unfold dispatch.
  - by rewrite U_actualize_row_ok.
  - by rewrite R_actualize_row_ok.
  - by rewrite R_actualize_row_ok.
Qed.

Lemma solver_actualize_row_out_of_range sigma row n :
  wf_solver sigma -> (mesh_T (solver_mesh sigma) < n)%nat ->
  Solver.actualize_row row n sigma = (Raise IndexError, sigma, []).
Proof.
  destruct sigma as [s|s|s]; simpl; unfold solver_mesh; simpl;
    intros Hwf Hn; unfold dispatch.
  - by rewrite U_actualize_row_out_of_range.
  - by rewrite R_actualize_row_out_of_range.
  - by rewrite R_actualize_row_out_of_range.
Qed.

Lemma solver_do_wf op sigma :
  wf_solver sigma -> wf_solver (state_after (solver_do op) sigma).
Proof.
  intros Hwf. destruct op as [row n|n]; unfold state_after; simpl.
  - destruct (decide (n ≤ mesh_T (solver_mesh sigma))%nat) as [Hn|Hn].
    + destruct (decide (length row = companion_width sigma)) as [Hr|Hr].
      * rewrite wf_solver_received by done. simpl.
        destruct sigma as [s|s|s]; simpl in *;
          auto using wf_U_received, wf_R_received.
      * by rewrite solver_actualize_row_mismatch.
    + by rewrite solver_actualize_row_out_of_range by (done || lia).
  - rewrite run_bind_state.
    destruct (solver_step_cases sigma n Hwf)
      as [[e ->]|[(row & _ & _ & ->)|(new & sigma' & l & -> & Hwf' & _)]]; done.
Qed.

(** X6.  Every sequence of row updates and steps on a solver of any class,
    with any indices and any rows, failing calls included, keeps the shapes
    of the solver: the two fields with [T+1] rows of widths [N+2] and [M+2],
    the coefficient arrays, the mask, and the shapes of the functional it
    owns. *)
Theorem solver_shapes_invariant (ops : list solver_op) (sigma : Solver.t) :
  wf_solver sigma -> wf_solver (solver_after ops sigma).
Proof.
  unfold solver_after. revert sigma.
  induction ops as [|op ops IH]; intros sigma Hwf; simpl; [done|].
  apply IH. by apply solver_do_wf.
Qed.

(** X7.  A step is idempotent: on a solver of any class and for any [n],
    calling [actualize_step_np1(n)] again right after a call gives the same
    answer (the same row, or the same exception), leaves the solver as the
    first call left it and runs no quadrature. *)
Theorem step_idempotent (sigma : Solver.t) (n : nat) :
  wf_solver sigma ->
  let first := Solver.actualize_step_np1 n sigma in
  Solver.actualize_step_np1 n first.1.2 = (first.1.1, first.1.2, []).
Proof.
  intros Hwf.
  destruct (solver_step_cases sigma n Hwf)
    as [[e E]|[(row & _ & _ & E)|(new & sigma' & l & E & Hwf' & Hc & Em)]];
    simpl; rewrite E; simpl; try done.
  rewrite (solver_step_calculated _ _ Hc). by rewrite (getrow_Ret _ _ _ Em).
Qed.

(** X8.  A row update at time row [n] does not invalidate the stored row
    [n + 1]: when row [n + 1] of the solver's field is marked computed,
    [actualize_row(row, n)] followed by [actualize_step_np1(n)] returns the
    stored row [n + 1] as it was, runs no quadrature and evaluates nothing. *)
Theorem step_after_row_update (sigma : Solver.t) (row old : vec) (n : nat) :
  wf_solver sigma -> (n < mesh_T (solver_mesh sigma))%nat ->
  length row = companion_width sigma ->
  AbstractDiscreteFunction.is_row_calculated (Solver.mask sigma) (n + 1) = Ret true ->
  Solver.matrix sigma !! (n + 1)%nat = Some old ->
  let sigma1 := state_after (Solver.actualize_row row n) sigma in
  Solver.actualize_row row n sigma = (Ret tt, sigma1, []) ∧
  Solver.actualize_step_np1 n sigma1 = (Ret old, sigma1, []).
Proof.
  intros Hwf Hn Hrow Hc Eold sigma1. unfold sigma1, state_after.
  rewrite wf_solver_received by (done || lia). simpl. split; [done|].
  rewrite solver_step_calculated.
  - destruct sigma as [s|s|s]; simpl in *; by rewrite (getrow_Ret _ _ _ Eold).
  - destruct sigma as [s|s|s]; simpl in *;
      (apply is_row_calculated_other; [lia|done]).
Qed.

(** X9.  A row update within range and of the right length, on a solver of
    any class: it returns, runs no quadrature, stores [row] as row [n] of
    the solver's copy of the companion field, does to the solver's
    functional exactly what the functional's own [actualize_row(row, n)]
    does, leaves the solver's own field as it was, and unmarks row [n] of
    the solver's mask and no other row. *)
Theorem solver_actualize_row_effect (sigma : Solver.t) (row : vec) (n : nat) :
  wf_solver sigma -> (n ≤ mesh_T (solver_mesh sigma))%nat ->
  length row = companion_width sigma ->
  let sigma' := state_after (Solver.actualize_row row n) sigma in
  Solver.actualize_row row n sigma = (Ret tt, sigma', []) ∧
  Solver.companion sigma' = <[n:=row]> (Solver.companion sigma) ∧
  IntegralFunctional.actualize_row row n (Solver.functional sigma)
    = (Ret tt, Solver.functional sigma', []) ∧
  Solver.matrix sigma' = Solver.matrix sigma ∧
  AbstractDiscreteFunction.is_row_calculated (Solver.mask sigma') n = Ret false ∧
  (∀ n', n' ≠ n -> Solver.mask sigma' !! n' = Solver.mask sigma !! n').
Proof.
  intros Hwf Hn Hrow sigma'. unfold sigma', state_after.
  rewrite wf_solver_received by done. simpl. split; [done|].
  destruct (wf_solver_mask sigma Hwf) as (cols & Hc & Hk & _).
  destruct sigma as [s|s|s]; simpl in *; unfold solver_mesh in *; simpl in *.
  - pose proof Hwf as (_ & _ & HF & HFm & _).
    repeat split; try done.
    + unfold dispatch. rewrite FunctionalF_actualize_row_ok; [done..| |];
        rewrite HFm; done.
    + eapply is_row_calculated_cleared; [exact Hk|lia|done].
    + intros n' Hne. by rewrite list_lookup_alter_ne.
  - pose proof Hwf as (_ & _ & _ & HG & HGm & _).
    repeat split; try done.
    + unfold dispatch. rewrite FunctionalG_actualize_row_ok; [done..| |];
        rewrite HGm; done.
    + eapply is_row_calculated_cleared; [exact Hk|lia|done].
    + intros n' Hne. by rewrite list_lookup_alter_ne.
  - pose proof Hwf as (_ & _ & _ & HG & HGm & _).
    repeat split; try done.
    + unfold dispatch. rewrite FunctionalG_actualize_row_ok; [done..| |];
        rewrite HGm; done.
    + eapply is_row_calculated_cleared; [exact Hk|lia|done].
    + intros n' Hne. by rewrite list_lookup_alter_ne.
Qed.

(** X10.  A row update at a time row beyond [T] raises IndexError and
    leaves the object exactly as it was, on a functional and on a solver
    alike, whatever the row. *)
Theorem actualize_row_beyond_T :
  (∀ (phi : IntegralFunctional.t) (row : vec) (n : nat),
     wf_functional phi -> (mesh_T (IntegralFunctional.mesh phi) < n)%nat ->
     IntegralFunctional.actualize_row row n phi = (Raise IndexError, phi, [])) ∧
  (∀ (sigma : Solver.t) (row : vec) (n : nat),
     wf_solver sigma -> (mesh_T (solver_mesh sigma) < n)%nat ->
     Solver.actualize_row row n sigma = (Raise IndexError, sigma, [])).
Proof.
  split.
  - intros phi row n Hwf Hn. by apply actualize_row_out_of_range.
  - intros sigma row n Hwf Hn. by apply solver_actualize_row_out_of_range.
Qed.

End SolverSteps.

(** ** The schemes in exact arithmetic *)

Lemma foldl_Qcplus (a : Qc) (l : vec) : foldl Qcplus a l = a + Np.sum l.
Proof.
  unfold Np.sum. revert a. induction l as [|x l IH]; intros a; simpl.
  - ring.
  - rewrite (IH (a + x)), (IH (0 + x)). ring.
Qed.

Lemma sum_cons (x : Qc) (l : vec) : Np.sum (x :: l) = x + Np.sum l.
Proof. unfold Np.sum at 1. simpl. rewrite foldl_Qcplus. ring. Qed.

Lemma sum_nonneg (l : vec) : Forall (fun v => 0 ≤ v) l -> 0 ≤ Np.sum l.
Proof.
  induction 1 as [|x l Hx Hl IH]; [done|].
  rewrite sum_cons. by apply Qcplus_nonneg_nonneg.
Qed.

Lemma sum_fmap_plus {A} (f g : A -> Qc) (l : list A) :
  Np.sum ((fun j => f j + g j) <$> l) = Np.sum (f <$> l) + Np.sum (g <$> l).
Proof.
  induction l as [|x l IH]; [by apply Qc_is_canon|].
  rewrite !fmap_cons, !sum_cons, IH. ring.
Qed.

(** The sum of a row with at most one entry that is not zero. *)
Lemma sum_none (P : nat -> Prop) `{∀ j, Decision (P j)} (c : Qc) (l : list nat) :
  (∀ j, j ∈ l -> ¬ P j) ->
  Np.sum ((fun j => if decide (P j) then c else 0) <$> l) = 0.
Proof.
  induction l as [|x l IH]; intros Hl; [done|].
  rewrite fmap_cons, sum_cons, IH by (intros j Hj; apply Hl; by right).
  rewrite decide_False by (apply Hl; by left). ring.
Qed.

Lemma sum_one (P : nat -> Prop) `{∀ j, Decision (P j)} (c : Qc) (j0 k : nat) :
  (∀ j, P j ↔ j = j0) -> ∀ a, (a ≤ j0 < a + k)%nat ->
  Np.sum ((fun j => if decide (P j) then c else 0) <$> seq a k) = c.
Proof.
  intros HP. induction k as [|k IH]; intros a Ha; [lia|].
  rewrite <- cons_seq, fmap_cons, sum_cons. destruct (decide (a = j0)) as [->|Hne].
  - rewrite decide_True by (by apply HP).
    rewrite sum_none; [ring|]. intros j Hj. apply elem_of_seq in Hj.
    rewrite HP. lia.
  - rewrite decide_False by (rewrite HP; lia).
    rewrite IH by lia. ring.
Qed.

Lemma transition_entry_split s Fn i j :
  let N := mesh_N (AbstractSolver.mesh (AbstractSolverU.base s)) in
  transition_entry s Fn i j
  = (if decide (j = i) then reaction_diagonal s Fn i else 0)
    + ((if decide (j = i + 1)%nat
        then (if decide (i = 0%nat) then 2 * alpha_of s else alpha_of s) else 0)
       + (if decide (i = j + 1)%nat
          then (if decide (i = N + 1)%nat then 2 * alpha_of s else alpha_of s)
          else 0)).
Proof.
  intros N. unfold transition_entry. fold N.
  repeat case_decide; try lia; ring.
Qed.

Lemma transition_row_sum s Fn i :
  let msh := AbstractSolver.mesh (AbstractSolverU.base s) in
  (i < mesh_N msh + 2)%nat ->
  Np.sum (transition_entry s Fn i <$> seq 0 (mesh_N msh + 2))
  = 1 + mesh_dt msh
        * (- default 0 (AbstractSolverU.m_1 s !! i)
           + default 0 (AbstractSolver.r (AbstractSolverU.base s) !! i)
             * default 0 (Fn !! i)).
Proof.
  intros msh Hi.
  pose (up := if decide (i = 0%nat) then 2 * alpha_of s else alpha_of s).
  pose (low := if decide (i = mesh_N msh + 1)%nat then 2 * alpha_of s
               else alpha_of s).
  pose (fD := fun j : nat => if decide (j = i) then reaction_diagonal s Fn i else 0).
  pose (fU := fun j : nat => if decide (j = i + 1)%nat then up else 0).
  pose (fL := fun j : nat => if decide (i = j + 1)%nat then low else 0).
  assert (Np.sum (transition_entry s Fn i <$> seq 0 (mesh_N msh + 2))
          = Np.sum (fD <$> seq 0 (mesh_N msh + 2))
            + (Np.sum (fU <$> seq 0 (mesh_N msh + 2))
               + Np.sum (fL <$> seq 0 (mesh_N msh + 2)))) as ->.
  { rewrite <- !sum_fmap_plus. f_equal. apply list_fmap_ext.
    intros _ j _. apply transition_entry_split. }
  assert (Np.sum (fD <$> seq 0 (mesh_N msh + 2)) = reaction_diagonal s Fn i) as ->.
  { apply (sum_one (fun j => j = i) _ i); [done|lia]. }
  assert (reaction_diagonal s Fn i + 2 * alpha_of s
          = 1 + mesh_dt msh
                * (- default 0 (AbstractSolverU.m_1 s !! i)
                   + default 0 (AbstractSolver.r (AbstractSolverU.base s) !! i)
                     * default 0 (Fn !! i))) as <-.
  { unfold reaction_diagonal. fold msh. ring. }
  destruct (decide (i = 0%nat)) as [E0|H0].
  - assert (Np.sum (fU <$> seq 0 (mesh_N msh + 2)) = up) as ->.
    { apply (sum_one (fun j => j = (i + 1)%nat) _ (i + 1)); [done|lia]. }
    assert (Np.sum (fL <$> seq 0 (mesh_N msh + 2)) = 0) as ->.
    { apply (sum_none (fun j => i = (j + 1)%nat)). intros; lia. }
    unfold up. ring.
  - destruct (decide (i = mesh_N msh + 1)%nat) as [EN|HN].
    + assert (Np.sum (fU <$> seq 0 (mesh_N msh + 2)) = 0) as ->.
      { apply (sum_none (fun j => j = (i + 1)%nat)).
        intros j Hj. apply elem_of_seq in Hj. lia. }
      assert (Np.sum (fL <$> seq 0 (mesh_N msh + 2)) = low) as ->.
      { apply (sum_one (fun j => i = (j + 1)%nat) _ (i - 1)); intros; lia. }
      unfold low. ring.
    + assert (Np.sum (fU <$> seq 0 (mesh_N msh + 2)) = up) as ->.
      { apply (sum_one (fun j => j = (i + 1)%nat) _ (i + 1)); [done|lia]. }
      assert (Np.sum (fL <$> seq 0 (mesh_N msh + 2)) = low) as ->.
      { apply (sum_one (fun j => i = (j + 1)%nat) _ (i - 1)); intros; lia. }
      unfold up, low. ring.
Qed.

Lemma transition_entry_nonneg s Fn i j :
  0 ≤ alpha_of s -> 0 ≤ reaction_diagonal s Fn i ->
  0 ≤ transition_entry s Fn i j.
Proof.
  intros Ha Hd. unfold transition_entry. repeat case_decide; try done.
  by apply Qcmult_nonneg_nonneg.
Qed.

Lemma zip_with_nonneg (a b : vec) :
  Forall (fun v => 0 ≤ v) a -> Forall (fun v => 0 ≤ v) b ->
  Forall (fun v => 0 ≤ v) (zip_with Qcmult a b).
Proof.
  intros Ha. revert b. induction Ha as [|x a Hx Ha IH]; intros b Hb; [done|].
  destruct Hb as [|y b Hy Hb]; [done|]. simpl. constructor.
  - by apply Qcmult_nonneg_nonneg.
  - by apply IH.
Qed.

Lemma zip_with_fmap_seq (f : nat -> Qc) (v : vec) n :
  length v = n ->
  zip_with Qcmult (f <$> seq 0 n) v
  = (fun j => f j * default 0 (v !! j)) <$> seq 0 n.
Proof.
  intros Hv. apply list_eq. intros k.
  rewrite lookup_zip_with, !list_lookup_fmap.
  destruct (decide (k < n)%nat) as [Hk|Hk].
  - rewrite lookup_seq_lt by done. simpl.
    destruct (lookup_lt_is_Some_2 v k) as [x Ex]; [lia|]. by rewrite Ex.
  - by rewrite lookup_seq_ge by lia.
Qed.

Lemma transition_row_apply s Fn un i :
  let msh := AbstractSolver.mesh (AbstractSolverU.base s) in
  (i < mesh_N msh + 2)%nat -> length un = (mesh_N msh + 2)%nat ->
  Np.sum (zip_with Qcmult (transition_entry s Fn i <$> seq 0 (mesh_N msh + 2)) un)
  = stencil s Fn un i.
Proof.
  intros msh Hi Hun. rewrite zip_with_fmap_seq by done.
  pose (v := fun k : nat => default 0 (un !! k)).
  pose (up := if decide (i = 0%nat) then 2 * alpha_of s else alpha_of s).
  pose (low := if decide (i = mesh_N msh + 1)%nat then 2 * alpha_of s
               else alpha_of s).
  pose (fD := fun j : nat =>
                if decide (j = i) then reaction_diagonal s Fn i * v i else 0).
  pose (fU := fun j : nat =>
                if decide (j = i + 1)%nat then up * v (i + 1)%nat else 0).
  pose (fL := fun j : nat =>
                if decide (i = j + 1)%nat then low * v (i - 1)%nat else 0).
  assert (Np.sum ((fun j => transition_entry s Fn i j * default 0 (un !! j))
                  <$> seq 0 (mesh_N msh + 2))
          = Np.sum (fD <$> seq 0 (mesh_N msh + 2))
            + (Np.sum (fU <$> seq 0 (mesh_N msh + 2))
               + Np.sum (fL <$> seq 0 (mesh_N msh + 2)))) as ->.
  { rewrite <- !sum_fmap_plus. f_equal. apply list_fmap_ext.
    intros _ j _. rewrite transition_entry_split. fold msh.
    unfold fD, fU, fL, up, low, v.
    destruct (decide (j = i)) as [E1|H1]; destruct (decide (j = i + 1)%nat) as [E2|H2];
      destruct (decide (i = j + 1)%nat) as [E3|H3]; try lia; subst;
      rewrite ?Nat.add_sub; ring. }
  assert (Np.sum (fD <$> seq 0 (mesh_N msh + 2))
          = reaction_diagonal s Fn i * v i) as ->.
  { apply (sum_one (fun j => j = i) _ i); [done|lia]. }
  unfold stencil. fold msh. fold v.
  destruct (decide (i = 0%nat)) as [E0|H0].
  - assert (Np.sum (fU <$> seq 0 (mesh_N msh + 2)) = up * v (i + 1)%nat) as ->.
    { apply (sum_one (fun j => j = (i + 1)%nat) _ (i + 1)); [done|lia]. }
    assert (Np.sum (fL <$> seq 0 (mesh_N msh + 2)) = 0) as ->.
    { apply (sum_none (fun j => i = (j + 1)%nat)). intros; lia. }
    unfold up, v. subst i. simpl. ring.
  - destruct (decide (i = mesh_N msh + 1)%nat) as [EN|HN].
    + assert (Np.sum (fU <$> seq 0 (mesh_N msh + 2)) = 0) as ->.
      { apply (sum_none (fun j => j = (i + 1)%nat)).
        intros j Hj. apply elem_of_seq in Hj. lia. }
      assert (Np.sum (fL <$> seq 0 (mesh_N msh + 2)) = low * v (i - 1)%nat) as ->.
      { apply (sum_one (fun j => i = (j + 1)%nat) _ (i - 1)); intros; lia. }
      unfold low, v. replace (i - 1)%nat with (mesh_N msh) by lia. ring.
    + assert (Np.sum (fU <$> seq 0 (mesh_N msh + 2)) = up * v (i + 1)%nat) as ->.
      { apply (sum_one (fun j => j = (i + 1)%nat) _ (i + 1)); [done|lia]. }
      assert (Np.sum (fL <$> seq 0 (mesh_N msh + 2)) = low * v (i - 1)%nat) as ->.
      { apply (sum_one (fun j => i = (j + 1)%nat) _ (i - 1)); intros; lia. }
      unfold up, low, v. ring.
Qed.

Section Numerics.
Context `{Quadrature}.

(** X11.  In exact arithmetic every row [i] of the matrix that
    [_create_transition_matrix(n)] returns sums to
    [1 + dt (- m_1[i] + r[i] F[n][i])]: the diffusion part, with its doubled
    entries at the two ends, adds nothing to a row sum, whatever [eps] is. *)
Theorem transition_matrix_row_sums (s : AbstractSolverU.t) (n i : nat) :
  let msh := AbstractSolver.mesh (AbstractSolverU.base s) in
  wf_U s -> (n ≤ mesh_T msh)%nat -> (i < mesh_N msh + 2)%nat ->
  ∃ Mn row,
    (SolverU.create_transition_matrix n s).1.1 = Ret Mn ∧
    Mn !! i = Some row ∧
    Np.sum row
    = 1 + mesh_dt msh
          * (- default 0 (AbstractSolverU.m_1 s !! i)
             + default 0 (AbstractSolver.r (AbstractSolverU.base s) !! i)
               * default 0 (FunctionalF_row (AbstractSolverU.F s) n !! i)).
Proof.
  intros msh Hwf Hn Hi. unfold msh in *. clear msh.
  pose proof (create_transition_matrix_spec s n Hwf Hn) as E. simpl in E.
  rewrite E. simpl. eexists. eexists. split; [done|]. split.
  - unfold transition_matrix.
    rewrite list_lookup_fmap, lookup_seq_lt by done. done.
  - by apply transition_row_sum.
Qed.

(** X12.  In exact arithmetic a step of [SolverU] keeps the density
    non-negative under the usual step-size condition: when [eps dt / h1^2]
    is non-negative, every diagonal entry
    [1 - 2 eps dt / h1^2 + dt (- m_1[i] + r[i] F[n][i])] is non-negative and
    every component of [u[n]] is non-negative, every component of the row
    [u[n + 1]] that [actualize_step_np1(n)] computes is non-negative. *)
Theorem SolverU_nonnegative (s : AbstractSolverU.t) (n : nat) (un : vec) :
  let msh := AbstractSolver.mesh (AbstractSolverU.base s) in
  wf_U s -> (n < mesh_T msh)%nat ->
  AbstractDiscreteFunction.is_row_calculated (AbstractSolverU.mask s) (n + 1)
    = Ret false ->
  AbstractSolver.u (AbstractSolverU.base s) !! n = Some un ->
  0 ≤ alpha_of s ->
  (∀ i, (i < mesh_N msh + 2)%nat ->
        0 ≤ reaction_diagonal s (FunctionalF_row (AbstractSolverU.F s) n) i) ->
  Forall (fun v => 0 ≤ v) un ->
  ∃ new s' l,
    SolverU.actualize_step_np1 n s = (Ret new, s', l) ∧
    AbstractSolver.u (AbstractSolverU.base s') !! (n + 1)%nat = Some new ∧
    Forall (fun v => 0 ≤ v) new.
Proof.
  intros msh Hwf Hn Hcalc Eun Ha Hd Hun. unfold msh in *. clear msh.
  destruct (U_step_spec s n Hwf Hn Hcalc) as (un' & Eun' & E). simpl in E.
  assert (un' = un) as -> by congruence.
  rewrite E. eexists. eexists. eexists. split; [done|].
  pose proof Hwf as ((_ & _ & Hu & _) & _). split.
  - simpl. apply list_lookup_insert_eq. destruct Hu as [-> _]. lia.
  - unfold matvec, transition_matrix.
    rewrite <- list_fmap_compose. apply Forall_fmap, Forall_forall.
    intros i Hi. apply elem_of_seq in Hi. simpl.
    apply sum_nonneg, zip_with_nonneg; [|done].
    apply Forall_fmap, Forall_forall. intros j _. simpl.
    apply transition_entry_nonneg; [done|]. apply Hd. lia.
Qed.

(** X13.  In exact arithmetic a step of [SolverRMethod1] keeps the resource
    non-negative under the step-size condition [dt (m_2[k] + G[n][k]) <= 1]:
    with [dt], every component of [R_in] and every component of [R[n]]
    non-negative, every component of the row [R[n + 1]] that
    [actualize_step_np1(n)] computes is non-negative. *)
Theorem SolverRMethod1_nonnegative (s : AbstractSolverR.t) (n : nat) (Rn : vec) :
  let msh := AbstractSolver.mesh (AbstractSolverR.base s) in
  wf_R s -> (n < mesh_T msh)%nat ->
  AbstractDiscreteFunction.is_row_calculated (AbstractSolverR.mask s) (n + 1)
    = Ret false ->
  AbstractSolver.R (AbstractSolverR.base s) !! n = Some Rn ->
  0 ≤ mesh_dt msh ->
  (∀ k, (k < mesh_M msh + 2)%nat ->
        mesh_dt msh
        * (default 0 (AbstractSolverR.m_2 s !! k)
           + default 0 (FunctionalG_row (AbstractSolverR.G s) n !! k)) ≤ 1) ->
  Forall (fun v => 0 ≤ v) (AbstractSolverR.R_in s) ->
  Forall (fun v => 0 ≤ v) Rn ->
  ∃ new s' l,
    SolverRMethod1.actualize_step_np1 n s = (Ret new, s', l) ∧
    AbstractSolver.R (AbstractSolverR.base s') !! (n + 1)%nat = Some new ∧
    Forall (fun v => 0 ≤ v) new.
Proof.
  intros msh Hwf Hn Hcalc ERn Hdt Hcfl Hin HRn. unfold msh in *. clear msh.
  destruct (R1_step_spec s n Hwf Hn Hcalc) as (Rn' & ERn' & E). simpl in E.
  assert (Rn' = Rn) as -> by congruence.
  rewrite E. eexists. eexists. eexists. split; [done|].
  pose proof Hwf as ((_ & _ & _ & HR) & _ & LRin & _). split.
  - simpl. apply list_lookup_insert_eq. destruct HR as [-> _]. lia.
  - unfold scheme1_row. apply Forall_fmap, Forall_forall.
    intros k Hk. apply elem_of_seq in Hk. simpl.
    apply Qcplus_nonneg_nonneg.
    + apply Qcmult_nonneg_nonneg.
      * specialize (Hcfl k ltac:(lia)). apply Qcle_minus_iff in Hcfl.
        exact Hcfl.
      * destruct (Rn !! k) as [v|] eqn:Ev; simpl; [|done].
        by apply (Forall_lookup_1 _ _ _ _ HRn Ev).
    + apply Qcmult_nonneg_nonneg; [done|].
      destruct (AbstractSolverR.R_in s !! k) as [v|] eqn:Ev; simpl; [|done].
      by apply (Forall_lookup_1 _ _ _ _ Hin Ev).
Qed.

(** X14.  In exact arithmetic a resource row that balances supply and
    consumption is a fixed point of [SolverRMethod1]: when
    [R[n][k] (m_2[k] + G[n][k]) = R_in[k]] at every resource point, the row
    [R[n + 1]] that [actualize_step_np1(n)] computes is [R[n]], whatever
    [dt] is. *)
Theorem SolverRMethod1_equilibrium (s : AbstractSolverR.t) (n : nat) (Rn : vec) :
  let msh := AbstractSolver.mesh (AbstractSolverR.base s) in
  wf_R s -> (n < mesh_T msh)%nat ->
  AbstractDiscreteFunction.is_row_calculated (AbstractSolverR.mask s) (n + 1)
    = Ret false ->
  AbstractSolver.R (AbstractSolverR.base s) !! n = Some Rn ->
  (∀ k, (k < mesh_M msh + 2)%nat ->
        default 0 (Rn !! k)
        * (default 0 (AbstractSolverR.m_2 s !! k)
           + default 0 (FunctionalG_row (AbstractSolverR.G s) n !! k))
        = default 0 (AbstractSolverR.R_in s !! k)) ->
  ∃ s' l,
    SolverRMethod1.actualize_step_np1 n s = (Ret Rn, s', l) ∧
    AbstractSolver.R (AbstractSolverR.base s') !! (n + 1)%nat = Some Rn.
Proof.
  intros msh Hwf Hn Hcalc ERn Hbal. unfold msh in *. clear msh.
  destruct (R1_step_spec s n Hwf Hn Hcalc) as (Rn' & ERn' & E). simpl in E.
  assert (Rn' = Rn) as -> by congruence.
  pose proof Hwf as ((_ & _ & _ & HR) & _).
  assert (scheme1_row s (FunctionalG_row (AbstractSolverR.G s) n) Rn = Rn) as Efix.
  { apply list_eq. intros k. unfold scheme1_row.
    pose proof (Forall_lookup_1 _ _ _ _ (proj2 HR) ERn) as LRn. simpl in LRn.
   
    destruct (decide (k < mesh_M (AbstractSolver.mesh (AbstractSolverR.base s)) + 2)%nat)
      as [Hk|Hk].
    - rewrite list_lookup_fmap, lookup_seq_lt by done. simpl.
      rewrite <- (Hbal k Hk).
      destruct (lookup_lt_is_Some_2 Rn k) as [v Ev]; [lia|].
      rewrite Ev. simpl. f_equal. ring.
    - rewrite !lookup_ge_None_2; [done|lia|].
      rewrite length_fmap, length_seq. lia. }
  rewrite E, Efix. eexists. eexists. split; [done|].
  simpl. apply list_lookup_insert_eq. destruct HR as [-> _]. lia.
Qed.

(** X15.  In exact arithmetic the row that a step of [SolverU] computes is
    the explicit finite-difference scheme with reflecting ends: component
    [i] of [u[n + 1]] is
    [(1 - 2 a + dt (- m_1[i] + r[i] F[n][i])) u[n][i]] plus
    [a (u[n][i-1] + u[n][i+1])] inside the mesh, [2 a u[n][1]] at [i = 0]
    and [2 a u[n][N]] at [i = N + 1], with [a = eps dt / h1^2]. *)
Theorem SolverU_stencil (s : AbstractSolverU.t) (n : nat) (un : vec) :
  let msh := AbstractSolver.mesh (AbstractSolverU.base s) in
  wf_U s -> (n < mesh_T msh)%nat ->
  AbstractDiscreteFunction.is_row_calculated (AbstractSolverU.mask s) (n + 1)
    = Ret false ->
  AbstractSolver.u (AbstractSolverU.base s) !! n = Some un ->
  ∃ new s' l,
    SolverU.actualize_step_np1 n s = (Ret new, s', l) ∧
    length new = (mesh_N msh + 2)%nat ∧
    ∀ i, (i < mesh_N msh + 2)%nat ->
         new !! i
         = Some (stencil s (FunctionalF_row (AbstractSolverU.F s) n) un i).
Proof.
  intros msh Hwf Hn Hcalc Eun. unfold msh in *. clear msh.
  destruct (U_step_spec s n Hwf Hn Hcalc) as (un' & Eun' & E). simpl in E.
  assert (un' = un) as -> by congruence.
  rewrite E. eexists. eexists. eexists. split; [done|].
  pose proof Hwf as ((_ & _ & Hu & _) & _).
  pose proof (Forall_lookup_1 _ _ _ _ (proj2 Hu) Eun) as Lun. simpl in Lun.
  unfold matvec, transition_matrix. split.
  - by rewrite !length_fmap, length_seq.
  - intros i Hi. rewrite <- list_fmap_compose.
    rewrite list_lookup_fmap, lookup_seq_lt by done. simpl. f_equal.
    by apply transition_row_apply.
Qed.

End Numerics.

(** ** The whole loop *)

Lemma calls_quadratures (l : list event) : Forall is_quadrature l -> calls l = [].
Proof.
  induction 1 as [|e l He Hl IH]; [done|]. by destruct e.
Qed.

Lemma quadrature_count_all (l : list event) :
  Forall is_quadrature l -> quadrature_count l = length l.
Proof.
  unfold quadrature_count.
  induction 1 as [|e l He Hl IH]; [done|].
  destruct e; try done; simpl; f_equal; exact IH.
Qed.

Lemma quadrature_count_app (l1 l2 : list event) :
  quadrature_count (l1 ++ l2) = (quadrature_count l1 + quadrature_count l2)%nat.
Proof. unfold quadrature_count. by rewrite omap_app, length_app. Qed.

Lemma quadrature_count_call c (l : list event) :
  quadrature_count (Call c :: l) = quadrature_count l.
Proof. reflexivity. Qed.

Lemma calls_app (l1 l2 : list event) : calls (l1 ++ l2) = calls l1 ++ calls l2.
Proof. unfold calls. by rewrite omap_app. Qed.

Lemma cached_cleared (mask : bmat) n j :
  default false
    (cached (alter (fun old => replicate (length old) false) n mask) n j) = false.
Proof.
  unfold cached. rewrite list_lookup_alter_eq.
  destruct (mask !! n) as [old|]; simpl; [|done].
  destruct (replicate (length old) false !! j) as [b|] eqn:E; [|done].
  by apply lookup_replicate in E as [-> _].
Qed.

Lemma is_row_calculated_alter_ne (mask : bmat) n n' (f : list bool -> list bool) :
  n' ≠ n ->
  AbstractDiscreteFunction.is_row_calculated (alter f n' mask) n
  = AbstractDiscreteFunction.is_row_calculated mask n.
Proof.
  intros Hne. unfold AbstractDiscreteFunction.is_row_calculated, Np.getrow.
  by rewrite list_lookup_alter_ne.
Qed.

Lemma length_concat_singletons {A B} (g : A -> list B) (l : list A) :
  (∀ j, length (g j) = 1%nat) -> length (concat (g <$> l)) = length l.
Proof.
  intros Hg. induction l as [|j l IH]; [done|].
  rewrite fmap_cons. simpl. rewrite length_app, Hg, IH. done.
Qed.

Lemma length_quadratures_F f n :
  (∀ j, default false (cached (FunctionalF.mask f) n j) = false) ->
  length (FunctionalF_quadratures f n) = (mesh_N (FunctionalF.mesh f) + 2)%nat.
Proof.
  intros Hm. unfold FunctionalF_quadratures.
  rewrite length_concat_singletons; [by rewrite length_seq|].
  intros j. by rewrite Hm.
Qed.

Lemma length_quadratures_G g n :
  (∀ k, default false (cached (FunctionalG.mask g) n k) = false) ->
  length (FunctionalG_quadratures g n) = (mesh_M (FunctionalG.mesh g) + 2)%nat.
Proof.
  intros Hm. unfold FunctionalG_quadratures.
  rewrite length_concat_singletons; [by rewrite length_seq|].
  intros j. by rewrite Hm.
Qed.

Section WholeLoop.
Context `{Quadrature}.

(** One iteration, from the state in which the driver enters it. *)
Lemma iteration_facts cls n s :
  let msh := AbstractSolver.mesh (AbstractSolverU.base (solver_u s)) in
  ready n s -> (n < mesh_T msh)%nat ->
  ∃ s1 l1,
    iteration cls n s = (Ret tt, s1, l1) ∧ ready (n + 1) s1 ∧
    AbstractSolver.mesh (AbstractSolverU.base (solver_u s1)) = msh ∧
    (∀ m, m ≠ (n + 1)%nat -> u_row s1 m = u_row s m ∧ R_row s1 m = R_row s m) ∧
    calls l1 = [u_actualize_row (R_row s n) n; u_actualize_step_np1 n;
                R_actualize_row (u_row s1 (n + 1)) (n + 1);
                R_actualize_step_np1 n] ∧
    ((cls = Method1 -> G_unevaluated n s) ->
     quadrature_count l1 = ((mesh_N msh + 2) + (mesh_M msh + 2))%nat ∧
     (cls = Method1 -> G_unevaluated (n + 1) s1)) ∧
    (∀ m, AbstractDiscreteFunction.is_row_calculated
            (AbstractSolverU.mask (solver_u s1)) m
          = if decide (m = n) then Ret false
            else if decide (m = n + 1)%nat then Ret true
            else AbstractDiscreteFunction.is_row_calculated
                   (AbstractSolverU.mask (solver_u s)) m) ∧
    (∀ m, AbstractDiscreteFunction.is_row_calculated
            (AbstractSolverR.mask (solver_R s1)) m
          = if decide (m = n + 1)%nat then Ret true
            else AbstractDiscreteFunction.is_row_calculated
                   (AbstractSolverR.mask (solver_R s)) m).
Proof.
  intros msh Hready Hn. unfold msh in *. clear msh.
  destruct (iteration_spec cls s n) as (Rn & un & ERn & Eun & Hit);
    [apply Hready|lia|apply Hready; lia|].
  destruct (ready_iteration cls n s Hready Hn) as (s1 & l1 & Hit1 & Hready1).
  simpl in Hit. rewrite Hit in Hit1. injection Hit1 as Es El.
  exists s1, l1. split; [by rewrite Hit, Es, El|]. split; [done|].
  destruct Hready as [(HU & HR & Hmesh) Hrows].
  pose proof HU as (HUb & _ & HUF & HUFm & HUk).
  pose proof HUb as (_ & _ & HUu & _).
  pose proof HR as (HRb & _ & _ & HRG & HRGm & HRk).
  pose proof HRb as (_ & _ & _ & HRR).
  assert (u_row s1 (n + 1)
          = matvec (transition_matrix (solver_u s)
                      (FunctionalF_row
                         (AbstractSolverU.F (U_received Rn n (solver_u s))) n)) un)
    as Eu1.
  { rewrite <- Es. unfold u_row. simpl.
    rewrite list_lookup_insert_eq by (destruct HUu as [-> _]; lia). done. }
  split; [by rewrite <- Es|]. split; [|split; [|split; [|split]]].
  - intros m Hm. rewrite <- Es. unfold u_row, R_row. simpl.
    by rewrite !list_lookup_insert_ne by done.
  - rewrite <- El. simpl. rewrite calls_app. simpl.
    rewrite (calls_quadratures _ (quadratures_F _ _)).
    rewrite (calls_quadratures _ (quadratures_G _ _)). simpl.
    rewrite Eu1. unfold R_row. by rewrite ERn.
  - intros HG. split.
    + rewrite <- El.
      rewrite !quadrature_count_call, quadrature_count_app,
              !quadrature_count_call.
      rewrite (quadrature_count_all _ (quadratures_F _ _)).
      rewrite (quadrature_count_all _ (quadratures_G _ _)).
      rewrite length_quadratures_F, length_quadratures_G; simpl.
      * by rewrite HUFm, HRGm, Hmesh.
      * intros k. destruct cls; simpl.
        -- unfold cached. rewrite list_lookup_alter_ne by lia.
           apply (HG eq_refl n k). lia.
        -- apply cached_cleared.
      * intros j. apply cached_cleared.
    + intros -> m k Hm. rewrite <- Es. simpl. unfold cached.
      rewrite list_lookup_insert_ne by lia.
      destruct (decide (m = n + 1)%nat) as [->|Hne].
      * apply cached_cleared.
      * rewrite list_lookup_alter_ne by lia. apply (HG eq_refl m k). lia.
  - intros m. rewrite <- Es. simpl. repeat case_decide; subst.
    + rewrite is_row_calculated_alter_ne by lia.
      eapply is_row_calculated_cleared; [exact HUk|lia|lia].
    + eapply is_row_calculated_filled; [by apply shape_fillrow|lia].
    + by rewrite !is_row_calculated_alter_ne by lia.
  - intros m. rewrite <- Es. simpl. case_decide; subst.
    + eapply is_row_calculated_filled; [by apply shape_fillrow|].
      rewrite <- Hmesh. lia.
    + by rewrite !is_row_calculated_alter_ne by lia.
Qed.

(** Any number of iterations, from the state in which the driver enters
    the first of them. *)
Lemma loop_facts cls k : ∀ start s,
  let msh := AbstractSolver.mesh (AbstractSolverU.base (solver_u s)) in
  ready start s -> (start + k ≤ mesh_T msh)%nat ->
  ∃ s' l,
    for_range start k (iteration cls) s = (Ret (replicate k tt), s', l) ∧
    AbstractSolver.mesh (AbstractSolverU.base (solver_u s')) = msh ∧
    (∀ m, (m ≤ start)%nat -> u_row s' m = u_row s m ∧ R_row s' m = R_row s m) ∧
    calls l = concat (iteration_calls s' <$> seq start k) ∧
    ((cls = Method1 -> G_unevaluated start s) ->
     quadrature_count l = (k * ((mesh_N msh + 2) + (mesh_M msh + 2)))%nat) ∧
    (∀ m, AbstractDiscreteFunction.is_row_calculated
            (AbstractSolverU.mask (solver_u s')) m
          = if decide (start ≤ m < start + k)%nat then Ret false
            else if decide (m = start + k ∧ 0 < k)%nat then Ret true
            else AbstractDiscreteFunction.is_row_calculated
                   (AbstractSolverU.mask (solver_u s)) m) ∧
    (∀ m, AbstractDiscreteFunction.is_row_calculated
            (AbstractSolverR.mask (solver_R s')) m
          = if decide (start < m ≤ start + k)%nat then Ret true
            else AbstractDiscreteFunction.is_row_calculated
                   (AbstractSolverR.mask (solver_R s)) m).
Proof.
  induction k as [|k IH]; intros start s msh Hready Hk; unfold msh in *; clear msh.
  - exists s, []. simpl. rewrite run_ret. repeat split; try done.
    + intros m. by rewrite !decide_False by lia.
    + intros m. by rewrite decide_False by lia.
  - destruct (iteration_facts cls start s Hready ltac:(lia))
      as (s1 & l1 & Hit & Hready1 & Hmesh1 & Hrows1 & Hcalls1 & Hq1 & Hu1 & HR1).
    destruct (IH (S start) s1) as (s2 & l2 & Hloop & Hmesh2 & Hrows2 & Hcalls2
                                   & Hq2 & Hu2 & HR2).
    { by replace (S start) with (start + 1)%nat by lia. }
    { rewrite Hmesh1. lia. }
    exists s2, (l1 ++ l2). simpl.
    rewrite (run_bind _ _ _ _ _ _ Hit), (run_bind _ _ _ _ _ _ Hloop).
    rewrite run_ret, app_nil_r. split; [done|]. split; [congruence|].
    split; [|split; [|split; [|split]]].
    + intros m Hm. destruct (Hrows2 m ltac:(lia)) as [-> ->].
      apply Hrows1. lia.
    + assert (R_row s2 start = R_row s start) as ER.
      { destruct (Hrows2 start ltac:(lia)) as [_ ->]. apply Hrows1. lia. }
      assert (u_row s2 (start + 1) = u_row s1 (start + 1)) as EU
        by (apply Hrows2; lia).
      rewrite calls_app, Hcalls1, Hcalls2.
      by rewrite ER, EU.
    + intros HG. destruct (Hq1 HG) as [Ec HG1].
      rewrite quadrature_count_app, Ec, Hq2.
      * rewrite Hmesh1. lia.
      * intros Hc. replace (S start) with (start + 1)%nat by lia. by apply HG1.
    + intros m. rewrite Hu2, Hu1. repeat case_decide; try lia; done.
    + intros m. rewrite HR2, HR1. repeat case_decide; try lia; done.
Qed.

Lemma for_range_app {St A} (body : nat -> Comp St A) a : ∀ start s xs s1 l1 b ys s2 l2,
  for_range start a body s = (Ret xs, s1, l1) ->
  for_range (start + a) b body s1 = (Ret ys, s2, l2) ->
  for_range start (a + b) body s = (Ret (xs ++ ys), s2, l1 ++ l2).
Proof.
  induction a as [|a IH]; intros start s xs s1 l1 b ys s2 l2 E1 E2; simpl in *.
  - rewrite run_ret in E1. injection E1 as <- <- <-.
    by rewrite Nat.add_0_r in E2.
  - destruct (body start s) as [[[x|e] s'] l'] eqn:Eb.
    + rewrite (run_bind _ _ _ _ _ _ Eb) in E1.
      destruct (for_range (S start) a body s') as [[[xs'|e] s''] l''] eqn:Er.
      * rewrite (run_bind _ _ _ _ _ _ Er), run_ret in E1.
        injection E1 as <- <- <-.
        rewrite (run_bind _ _ _ _ _ _ Eb).
        rewrite (run_bind _ _ _ _ _ _
                   (IH (S start) s' xs' s'' l'' b ys s2 l2 Er
                       ltac:(by replace (S start + a)%nat
                               with (start + S a)%nat by lia))).
        rewrite run_ret, !app_nil_r. by rewrite app_assoc.
      * by rewrite (run_bind_raise _ _ _ _ _ _ Er) in E1.
    + by rewrite (run_bind_raise _ _ _ _ _ _ Eb) in E1.
Qed.

(** X16.  From well-formed solvers in which no row of [u] after row [0] is
    marked computed (as after construction), the loop of [T] iterations
    returns, and the method calls it issues are, for
    [n = 0 .. T-1] in order, [u.actualize_row(R[n], n)],
    [u.actualize_step_np1(n)], [R.actualize_row(u[n+1], n+1)],
    [R.actualize_step_np1(n)], where [R[n]] and [u[n+1]] are the rows of
    the solution the loop ends with: every row handed over is final. *)
Theorem loop_call_trace (cls : SolverR_class) (T : nat) (s : Solvers) :
  ready 0 s ->
  (T ≤ mesh_T (AbstractSolver.mesh (AbstractSolverU.base (solver_u s))))%nat ->
  ∃ s' l,
    loop cls T s = (Ret tt, s', l) ∧
    calls l = concat (iteration_calls s' <$> seq 0 T).
Proof.
  intros Hready HT.
  destruct (loop_facts cls T 0 s Hready ltac:(lia))
    as (s' & l & Hloop & _ & _ & Hcalls & _).
  exists s', l. unfold loop. rewrite (run_bind _ _ _ _ _ _ Hloop).
  rewrite run_ret, app_nil_r. done.
Qed.

(** X17.  The loop of [T] iterations runs exactly [T ((N+2) + (M+2))]
    quadratures: one per trait point for [F] and one per resource point for
    [G] in every iteration, none of them saved by the cache.  (Under
    [SolverRMethod1] provided no entry of the cache of [G] was valid at the
    start, as after construction.) *)
Theorem loop_quadrature_count (cls : SolverR_class) (T : nat) (s : Solvers) :
  let msh := AbstractSolver.mesh (AbstractSolverU.base (solver_u s)) in
  ready 0 s -> (T ≤ mesh_T msh)%nat ->
  (cls = Method1 -> G_unevaluated 0 s) ->
  quadrature_count (loop cls T s).2
  = (T * ((mesh_N msh + 2) + (mesh_M msh + 2)))%nat.
Proof.
  intros msh Hready HT HG. unfold msh in *. clear msh.
  destruct (loop_facts cls T 0 s Hready ltac:(lia))
    as (s' & l & Hloop & _ & _ & _ & Hq & _).
  unfold loop. rewrite (run_bind _ _ _ _ _ _ Hloop).
  rewrite run_ret, app_nil_r. simpl. by apply Hq.
Qed.

(** X18.  After a loop of [T >= 1] iterations the mask of the solver of [u]
    marks row [T] and no other row: each iteration unmarks the row it
    starts from.  The mask of the solver of [R] marks every row from [1] to
    [T]. *)
Theorem loop_marks (cls : SolverR_class) (T : nat) (s : Solvers) :
  let msh := AbstractSolver.mesh (AbstractSolverU.base (solver_u s)) in
  ready 0 s -> (1 ≤ T ≤ mesh_T msh)%nat ->
  let s' := state_after (loop cls T) s in
  (∀ m, (m ≤ mesh_T msh)%nat ->
        AbstractDiscreteFunction.is_row_calculated
          (AbstractSolverU.mask (solver_u s')) m = Ret (bool_decide (m = T))) ∧
  (∀ m, (1 ≤ m ≤ T)%nat ->
        AbstractDiscreteFunction.is_row_calculated
          (AbstractSolverR.mask (solver_R s')) m = Ret true).
Proof.
  intros msh Hready HT s'. unfold msh in *. clear msh.
  destruct (loop_facts cls T 0 s Hready ltac:(lia))
    as (s2 & l & Hloop & _ & _ & _ & _ & Hu & HR).
  assert (s' = s2) as ->.
  { unfold s', state_after, loop. rewrite (run_bind _ _ _ _ _ _ Hloop).
    by rewrite run_ret. }
  split.
  - intros m Hm. rewrite Hu.
    repeat case_decide; try lia;
      try (by rewrite bool_decide_eq_false_2 by lia);
      try (by rewrite bool_decide_eq_true_2 by lia).
    rewrite bool_decide_eq_false_2 by lia. apply Hready. lia.
  - intros m Hm. rewrite HR. by rewrite decide_True by lia.
Qed.

(** X19.  Rows are final once written: the rows [0 .. n] of [u] and of [R]
    that the solvers hold after [n] iterations are the rows [0 .. n] they
    hold when the loop of [T >= n] iterations ends; in particular the
    initial data in row [0] is never overwritten. *)
Theorem loop_rows_final (cls : SolverR_class) (T n m : nat) (s : Solvers) :
  ready 0 s ->
  (m ≤ n ≤ T)%nat ->
  (T ≤ mesh_T (AbstractSolver.mesh (AbstractSolverU.base (solver_u s))))%nat ->
  u_row (state_after (loop cls T) s) m = u_row (after_iterations cls n s) m ∧
  R_row (state_after (loop cls T) s) m = R_row (after_iterations cls n s) m.
Proof.
  intros Hready Hm HT.
  destruct (ready_loop cls n 0 s Hready ltac:(lia)) as (s1 & l1 & E1 & Hr1 & Hmesh1).
  destruct (loop_facts cls (T - n) n s1 Hr1 ltac:(rewrite Hmesh1; lia))
    as (s2 & l2 & E2 & _ & Hrows & _).
  pose proof (for_range_app _ _ _ _ _ _ _ _ _ _ _ E1 E2) as E.
  replace (n + (T - n))%nat with T in E by lia.
  unfold after_iterations, state_after, loop.
  rewrite (run_bind _ _ _ _ _ _ E), run_ret, E1. simpl.
  apply Hrows. lia.
Qed.

End WholeLoop.

(** ** solve_perthame as a whole *)

Lemma cached_create_mask (m : mat) n k :
  default false (cached (AbstractDiscreteFunction.create_mask m) n k) = false.
Proof.
  unfold cached, AbstractDiscreteFunction.create_mask.
  rewrite list_lookup_fmap. destruct (m !! n) as [row|]; simpl; [|done].
  rewrite list_lookup_fmap. by destruct (row !! k).
Qed.

Lemma constructed_G_unevaluated m_2 R_in r0 K0 u_0 R_0 m R u :
  AbstractSolverR.init m_2 R_in r0 K0 u_0 R_0 m = Ret R ->
  G_unevaluated 0 {| solver_u := u; solver_R := R |}.
Proof.
  unfold AbstractSolverR.init. intros HR.
  inv_bind HR. inv_bind HR. inv_bind HR. inv_bind HR. inv_bind HR.
  injection HR as <-. simpl.
  match goal with
  | E : FunctionalG.init _ _ _ _ = Ret _ |- _ =>
      unfold FunctionalG.init in E; inv_bind E; inv_bind E; inv_bind E;
      injection E as <-
  end.
  intros n k _. simpl. apply cached_create_mask.
Qed.

Lemma linspace_length start stop num v :
  Np.linspace start stop num = Ret v ->
  (0 ≤ num)%Z ∧ length v = Z.to_nat num.
Proof.
  unfold Np.linspace. case_decide; [done|]. intros [= <-].
  split; [lia|]. by rewrite length_fmap, length_seq.
Qed.

Lemma disc_configs_mesh x_lims a N dt T m :
  disc_configs x_lims a N dt T = Ret m ->
  mesh_N m = Z.to_nat N ∧ mesh_M m = Z.to_nat (s_M a) ∧ mesh_T m = T.
Proof.
  unfold disc_configs, count. intros Em.
  destruct (decide (0 ≤ N)%Z) as [HN|HN]; simpl in Em; [|done].
  destruct (decide (0 ≤ s_M a)%Z) as [HM|HM]; simpl in Em; [|done].
  unfold AbstractDiscreteFunction.init in Em. inv_bind Em. inv_bind Em.
  by injection Em as <-.
Qed.

Section WholeRun.
Context `{Quadrature}.

(** X20.  The arrays that [solve_perthame] samples on lines 37-46 fit
    together: when the sampling succeeds, [N + 2] and [M + 2] are not
    negative, the trait mesh and the arrays [u_0], [r], [m_1] have
    [N + 2] entries, the resource mesh and the arrays [R_0], [R_in], [m_2]
    have [M + 2] entries, and [K] has [N + 2] rows of [M + 2] entries. *)
Theorem sample_shapes (u_0 R_0 r R_in m_1 m_2 : Qc -> Qc) (K : Qc -> Qc -> Qc)
    (x_lims : Qc * Qc) (y_lims : option (Qc * Qc)) (N : Z) (M : option Z)
    (a : Sampled) :
  sample u_0 R_0 r R_in m_1 m_2 K x_lims y_lims N M = Ret a ->
  M = Some (s_M a) ∧ y_lims = Some (s_y_lims a) ∧
  (0 ≤ N + 2)%Z ∧ (0 ≤ s_M a + 2)%Z ∧
  let nx := Z.to_nat (N + 2) in
  let ny := Z.to_nat (s_M a + 2) in
  length (s_x a) = nx ∧ length (s_u_0 a) = nx ∧ length (s_r a) = nx ∧
  length (s_m_1 a) = nx ∧
  length (s_y a) = ny ∧ length (s_R_0 a) = ny ∧ length (s_R_in a) = ny ∧
  length (s_m_2 a) = ny ∧
  shape nx ny (s_K a).
Proof.
  unfold sample. intros Ea.
  inv_bind Ea. destruct y_lims as [yl|]; [|done]. destruct M as [M|]; [|done].
  simpl in Ea. inv_bind Ea. injection Ea as <-. simpl.
  apply linspace_length in E as [HN Lx]. apply linspace_length in E0 as [HM Ly].
  repeat split; rewrite ?length_fmap; try done.
  apply Forall_fmap, Forall_forall. intros x_ _. simpl. by rewrite length_fmap.
Qed.

(** X21.  Whenever [solve_perthame] returns, its trace is the construction
    of the solver of [R], then of the solver of [u], then for
    [n = 0 .. T-1] the four calls of iteration [n] on the rows of the
    solution it returns, and it has run exactly [T ((N+2) + (M+2))]
    quadratures ([T] being 100 when left at [None]). *)
Theorem solve_perthame_trace (u_0 R_0 r R_in m_1 m_2 : Qc -> Qc)
    (K : Qc -> Qc -> Qc) (eps : Qc) (cls : option SolverR_class)
    (x_lims : Qc * Qc) (y_lims : option (Qc * Qc)) (N : Z) (M : option Z)
    (dt : Qc) (T : option nat) (s : Solvers) (l : list event) :
  solve_perthame u_0 R_0 r R_in m_1 m_2 K eps cls x_lims y_lims N M dt T
    = (Ret s, l) ->
  ∃ M' l',
    M = Some M' ∧ (0 ≤ N)%Z ∧ (0 ≤ M')%Z ∧
    l = Construct_R :: Construct_u :: l' ∧
    calls l' = concat (iteration_calls s <$> seq 0 (default 100%nat T)) ∧
    quadrature_count l'
    = (default 100%nat T * ((Z.to_nat N + 2) + (Z.to_nat M' + 2)))%nat.
Proof.
  unfold solve_perthame. intros Hrun.
  destruct (sample _ _ _ _ _ _ _ _ _ _ _) as [a|e] eqn:Ea; [|done].
  destruct (disc_configs x_lims a N dt (default 100%nat T)) as [m|e] eqn:Em;
    simpl in Hrun; [|done].
  destruct (AbstractSolverR.init _ _ _ _ _ _ m) as [R|e] eqn:ER; [|done].
  destruct (AbstractSolverU.init _ _ _ _ _ _ m) as [u|e] eqn:EU; [|done].
  pose proof (disc_configs_mesh _ _ _ _ _ _ Em) as (HmN & HmM & HmT).
  assert (0 ≤ N ∧ 0 ≤ s_M a)%Z as [HN HM].
  { unfold disc_configs, count in Em.
    destruct (decide (0 ≤ N)%Z) as [HN|HN]; simpl in Em; [|done].
    by destruct (decide (0 ≤ s_M a)%Z) as [HM|HM]. }
  assert (M = Some (s_M a)) as EM.
  { unfold sample in Ea. inv_bind Ea. destruct y_lims; [|done].
    destruct M; [|done]. simpl in Ea. inv_bind Ea. by injection Ea as <-. }
  pose proof (AbstractSolverU_init_wf _ _ _ _ _ _ _ _ EU) as (_ & HmU & _).
  destruct (loop_facts (default Method1 cls) (default 100%nat T) 0
              {| solver_u := u; solver_R := R |})
    as (s' & l' & Hloop & _ & _ & Hcalls & Hq & _).
  { by eapply constructed_ready. }
  { simpl. rewrite HmU, HmT. done. }
  unfold loop in Hrun. rewrite (run_bind _ _ _ _ _ _ Hloop) in Hrun.
  rewrite run_ret, app_nil_r in Hrun. injection Hrun as <- <-.
  exists (s_M a), l'. repeat split; try done.
  rewrite Hq by (intros _; by eapply constructed_G_unevaluated).
  simpl. by rewrite HmU, HmN, HmM.
Qed.

End WholeRun.

(** ** The examples, run *)

#[local] Existing Instance simpson_ref.

Ltac shapes := repeat first [split | constructor].

Lemma ex_F_constructed :
  FunctionalF.init ex_K [1; 1; 1] ex_mesh = Ret ex_F.
Proof. reflexivity. Qed.

Lemma ex_G_constructed :
  FunctionalG.init [1; 1; 1] ex_K [1; 1; 1] ex_mesh = Ret ex_G.
Proof. reflexivity. Qed.

Lemma ex_U_constructed m_1 :
  AbstractSolverU.init [m_1; m_1; m_1] (q 1 100) [1; 1; 1] ex_K [1; 1; 1]
    [1; 1; 1] ex_mesh = Ret (ex_U m_1).
Proof. reflexivity. Qed.

Lemma ex_R_constructed :
  AbstractSolverR.init [1; 1; 1] [1; 1; 1] [1; 1; 1] ex_K [1; 1; 1] [1; 1; 1]
    ex_mesh = Ret ex_R.
Proof. reflexivity. Qed.

Lemma ex_mesh_constructed :
  AbstractDiscreteFunction.init (0, 1) (0, 1) 1 1 (q 1 8) 2 = Ret ex_mesh.
Proof. reflexivity. Qed.

Lemma ex_solvers_ready m_1 : ready 0 (ex_solvers m_1).
Proof.
  exact (constructed_ready _ _ _ _ _ _ _ _ _ _ _ ex_R_constructed
           (ex_U_constructed m_1)).
Qed.

Lemma memoization_idempotence_witness :
  wf_functional (IntegralFunctional.G ex_G) ∧
  Np.get2 (IntegralFunctional.mask (IntegralFunctional.G ex_G)) 0 1 = Ret false ∧
  (IntegralFunctional.call 0 1 (IntegralFunctional.G ex_G)).1.1
    = Ret (simpson [1; 1; 1] [0; q 1 2; 1]).
Proof.
  assert (wf_functional (IntegralFunctional.G ex_G)) as Hwf by shapes.
  assert (Np.get2 (IntegralFunctional.mask (IntegralFunctional.G ex_G)) 0 1
          = Ret false) as Hmask by reflexivity.
  split; [exact Hwf|]. split; [exact Hmask|].
  destruct (memoization_idempotence (IntegralFunctional.G ex_G) 0 1 Hwf Hmask)
    as [Hcall _].
  rewrite Hcall. simpl. repeat f_equal; apply Qc_is_canon; reflexivity.
Defined.

Lemma invalidation_witness :
  wf_functional (IntegralFunctional.F ex_F) ∧
  IntegralFunctional.actualize_row [1 + 1; 1 + 1; 1 + 1] 1 (IntegralFunctional.F ex_F)
    = (Ret tt, invalidated [1 + 1; 1 + 1; 1 + 1] 1 (IntegralFunctional.F ex_F), []) ∧
  IntegralFunctional.dependency
    (invalidated [1 + 1; 1 + 1; 1 + 1] 1 (IntegralFunctional.F ex_F)) !! 1%nat
    = Some [1 + 1; 1 + 1; 1 + 1].
Proof.
  assert (wf_functional (IntegralFunctional.F ex_F)) as Hwf by shapes.
  split; [exact Hwf|]. split; [reflexivity|].
  exact (proj1 (proj2 (invalidation (IntegralFunctional.F ex_F)
                         [1 + 1; 1 + 1; 1 + 1] 1 _ [] Hwf eq_refl))).
Defined.

Lemma shape_contract_witness :
  IntegralFunctional.actualize_row [1; 1] 0 (IntegralFunctional.F ex_F)
    = (Raise ShapeMismatch, IntegralFunctional.F ex_F, []) ∧
  Solver.actualize_row [1; 1] 0 (Solver.U (ex_U 0))
    = (Raise ShapeMismatch, Solver.U (ex_U 0), []).
Proof.
  split.
  - apply (proj1 shape_contract (IntegralFunctional.F ex_F) [1; 1] 0%nat);
      [shapes|simpl; lia|simpl; lia].
  - apply (proj2 shape_contract (Solver.U (ex_U 0)) [1; 1] 0%nat);
      [shapes|simpl; lia|simpl; lia].
Defined.

Lemma SolverU_step_witness :
  wf_U (ex_U 0) ∧
  AbstractDiscreteFunction.is_row_calculated (AbstractSolverU.mask (ex_U 0)) 1
    = Ret false ∧
  returned (SolverU.actualize_step_np1 0 (ex_U 0)).1.1 = true.
Proof.
  assert (wf_U (ex_U 0)) as Hwf by shapes.
  split; [exact Hwf|]. split; [reflexivity|].
  destruct (SolverU_step (ex_U 0) 0 Hwf ltac:(simpl; lia) eq_refl)
    as (un & s' & l & _ & _ & _ & Hstep & _).
  by rewrite Hstep.
Defined.

Lemma SolverRMethod1_step_witness :
  wf_R ex_R ∧
  AbstractDiscreteFunction.is_row_calculated (AbstractSolverR.mask ex_R) 1
    = Ret false ∧
  returned (SolverRMethod1.actualize_step_np1 0 ex_R).1.1 = true.
Proof.
  assert (wf_R ex_R) as Hwf by shapes.
  split; [exact Hwf|]. split; [reflexivity|].
  destruct (SolverRMethod1_step ex_R 0 Hwf ltac:(simpl; lia) eq_refl)
    as (Rn & s' & l & _ & _ & Hstep & _).
  by rewrite Hstep.
Defined.

Lemma SolverRMethod2_step_witness :
  wf_R ex_R ∧
  AbstractDiscreteFunction.is_row_calculated (AbstractSolverR.mask ex_R) 1
    = Ret false ∧
  returned (SolverRMethod2.actualize_step_np1 0 ex_R).1.1 = true.
Proof.
  assert (wf_R ex_R) as Hwf by shapes.
  split; [exact Hwf|]. split; [reflexivity|].
  destruct (SolverRMethod2_step ex_R 0 Hwf ltac:(simpl; lia) eq_refl)
    as (s' & l & _ & Hstep & _).
  by rewrite Hstep.
Defined.

Lemma SolverRMethod2_nonnegative_witness :
  wf_R ex_R ∧
  Forall (fun v => 0 ≤ v)
    (default [] (AbstractSolver.R
       (AbstractSolverR.base
          (state_after (SolverRMethod2.actualize_step_np1 0) ex_R)) !! 1%nat)).
Proof.
  assert (wf_R ex_R) as Hwf by shapes.
  split; [exact Hwf|].
  destruct (SolverRMethod2_nonnegative ex_R 0 Hwf ltac:(simpl; lia) eq_refl)
    as (new & s' & l & Hstep & Hrow & Hpos).
  - repeat constructor.
  - repeat constructor.
  - vm_compute. repeat constructor.
  - unfold state_after. rewrite Hstep. simpl in *. rewrite Hrow. exact Hpos.
Defined.

Lemma leapfrog_witness :
  ready 0 (ex_solvers 0) ∧
  returned (iteration Method1 1 (after_iterations Method1 1 (ex_solvers 0))).1.1
    = true.
Proof.
  split; [apply ex_solvers_ready|].
  destruct (leapfrog Method1 (ex_solvers 0) 1 (ex_solvers_ready 0)
              ltac:(simpl; lia))
    as (Rn & un & u_np1 & R_np1 & s' & q1 & q2 & _ & _ & Hit & _).
  by rewrite Hit.
Defined.

Lemma defaults_raise_witness :
  solve_perthame (fun _ => 1) (fun _ => 0) (fun _ => 1) (fun _ => 1)
    (fun _ => 0) (fun _ => 1) (fun _ _ => 1) 0 None (0, 1) None 100 None
    (q 1 100) (Some 100%nat)
  = (Raise TypeError, []).
Proof.
  exact (defaults_raise (fun _ => 1) (fun _ => 0) (fun _ => 1) (fun _ => 1)
           (fun _ => 0) (fun _ => 1) (fun _ _ => 1) 0 None (0, 1) None 100 None
           (q 1 100) (Some 100%nat) (or_introl eq_refl)).
Defined.

(** *** Where the description and the code part *)

(** Under [SolverRMethod1] the row [R[1]] of iteration 0 is the scheme
    applied to [G[0]], integrated against [u[0]]: two runs whose rows
    [u[1]] differ (mortality 0 against mortality 1) store the same [R[1]]. *)
Lemma leapfrog_counterexample :
  solver_R (ex_solvers 0) = solver_R (ex_solvers 1) ∧
  entries (u_row (state_after (iteration Method1 0) (ex_solvers 0)) 1)
    = [9 # 8; 9 # 8; 9 # 8]%Q ∧
  entries (u_row (state_after (iteration Method1 0) (ex_solvers 1)) 1)
    = [1; 1; 1]%Q ∧
  entries (R_row (state_after (iteration Method1 0) (ex_solvers 0)) 1)
    = [7 # 8; 7 # 8; 7 # 8]%Q ∧
  entries (R_row (state_after (iteration Method1 0) (ex_solvers 1)) 1)
    = [7 # 8; 7 # 8; 7 # 8]%Q.
Proof. repeat split; vm_compute; reflexivity. Qed.

(** With non-negative data throughout, [R_in] and [m_2] constantly 1, a
    mortality of 24 and a time step of 1/8 turn [u[1]] negative, and with
    it [G[1]]: the row [R[1]] that [SolverRMethod2.actualize_step_np1(0)]
    stores is [R_in / (m_2 + G[1]) = 1 / (1 - 2)]. *)
Lemma SolverRMethod2_nonnegative_counterexample :
  match solve_perthame (fun _ => 1) (fun _ => 0) (fun _ => 1) (fun _ => 1)
          (fun _ => q 24 1) (fun _ => 1) (fun _ _ => 1) 0 (Some Method2)
          (0, 1) (Some (0, 1)) 1 (Some 1%Z) (q 1 8) (Some 1%nat) with
  | (Ret s, _) =>
      entries (AbstractSolverR.R_in (solver_R s)) = [1; 1; 1]%Q ∧
      entries (AbstractSolverR.m_2 (solver_R s)) = [1; 1; 1]%Q ∧
      entries (u_row s 1) = [-2 # 1; -2 # 1; -2 # 1]%Q ∧
      entries (R_row s 1) = [-1 # 1; -1 # 1; -1 # 1]%Q ∧
      ¬ Forall (fun v => 0 ≤ v) (R_row s 1)
  | (Raise _, _) => False
  end.
Proof.
  vm_compute. repeat split; try reflexivity.
  intros Hall. apply Forall_cons in Hall as [Hneg _]. by apply Hneg.
Qed.

(** A step of the solver of [u] that computes the new row 1 leaves
    [current_step] at 0. *)
Lemma current_step_counterexample :
  AbstractDiscreteFunction.is_row_calculated (Solver.mask (Solver.U (ex_U 0))) 1
    = Ret false ∧
  returned (Solver.actualize_step_np1 0 (Solver.U (ex_U 0))).1.1 = true ∧
  AbstractDiscreteFunction.is_row_calculated
    (Solver.mask (state_after (Solver.actualize_step_np1 0) (Solver.U (ex_U 0)))) 1
    = Ret true ∧
  Solver.current_step (Solver.U (ex_U 0)) = 0%nat ∧
  Solver.current_step
    (state_after (Solver.actualize_step_np1 0) (Solver.U (ex_U 0))) = 0%nat.
Proof. repeat split; vm_compute; reflexivity. Qed.

(** With [N = -3] the trait mesh itself cannot be built: numpy's ValueError
    is raised on line 37, before [y_lims] and [M] are looked at. *)
Lemma defaults_raise_counterexample :
  solve_perthame (fun _ => 1) (fun _ => 0) (fun _ => 1) (fun _ => 1)
    (fun _ => 0) (fun _ => 1) (fun _ _ => 1) 0 None (0, 1) None (-3) None
    (q 1 100) (Some 100%nat)
  = (Raise ValueError, []).
Proof. reflexivity. Qed.

(** The end-to-end scenario: kernel and rates 1, no mortality nor decay,
    supply 1, no mutation, [u_0 = 1], [R_0 = 0], [dt = 1/10], one step of
    scheme 1.  [F[0] = 0] and [G[0] = 1], so [u[1] = 1] and [R[1] = 1/10];
    two constructions, four method calls and six quadratures took place. *)
Lemma end_to_end :
  match solve_perthame (fun _ => 1) (fun _ => 0) (fun _ => 1) (fun _ => 1)
          (fun _ => 0) (fun _ => 0) (fun _ _ => 1) 0 None
          (0, 1) (Some (0, 1)) 1 (Some 1%Z) (q 1 10) (Some 1%nat) with
  | (Ret s, l) =>
      entries (u_row s 1) = [1; 1; 1]%Q ∧
      entries (R_row s 1) = [1 # 10; 1 # 10; 1 # 10]%Q ∧
      length l = 12%nat
  | (Raise _, _) => False
  end.
Proof. vm_compute. repeat split; reflexivity. Qed.

(** *** The further properties on the examples *)

Ltac nonneg :=
  repeat first [apply Forall_nil_2 | apply Forall_cons_2; [by vm_compute|]].

Lemma evaluate_out_of_range_witness :
  wf_functional (IntegralFunctional.F ex_F) ∧
  IntegralFunctional.call 3 0 (IntegralFunctional.F ex_F)
    = (Raise IndexError, IntegralFunctional.F ex_F, []) ∧
  IntegralFunctional.call 0 3 (IntegralFunctional.F ex_F)
    = (Raise IndexError, IntegralFunctional.F ex_F, []).
Proof.
  assert (wf_functional (IntegralFunctional.F ex_F)) as Hwf by shapes.
  split; [exact Hwf|]. split.
  - apply (evaluate_out_of_range (IntegralFunctional.F ex_F) 3 0 Hwf).
    left. simpl. lia.
  - apply (evaluate_out_of_range (IntegralFunctional.F ex_F) 0 3 Hwf).
    right. simpl. lia.
Defined.

Lemma evaluate_frame_witness :
  IntegralFunctional.dependency
    (state_after (IntegralFunctional.call 0 1) (IntegralFunctional.F ex_F))
  = IntegralFunctional.dependency (IntegralFunctional.F ex_F) ∧
  Np.get2
    (IntegralFunctional.mask
       (state_after (IntegralFunctional.call 0 1) (IntegralFunctional.F ex_F)))
    0 2
  = Np.get2 (IntegralFunctional.mask (IntegralFunctional.F ex_F)) 0 2.
Proof.
  destruct (evaluate_frame (IntegralFunctional.F ex_F) 0 1)
    as (Hd & _ & _ & _ & Hother).
  split; [exact Hd|].
  exact (proj2 (Hother 0%nat 2%nat ltac:(intros [= E]; lia))).
Defined.

Lemma actualize_row_frame_witness :
  IntegralFunctional.matrix
    (state_after (IntegralFunctional.actualize_row [0; 0; 0] 1)
       (IntegralFunctional.G ex_G))
  = IntegralFunctional.matrix (IntegralFunctional.G ex_G) ∧
  IntegralFunctional.dependency
    (state_after (IntegralFunctional.actualize_row [0; 0; 0] 1)
       (IntegralFunctional.G ex_G)) !! 0%nat
  = IntegralFunctional.dependency (IntegralFunctional.G ex_G) !! 0%nat.
Proof.
  destruct (actualize_row_frame (IntegralFunctional.G ex_G) [0; 0; 0] 1)
    as (Hm & _ & _ & _ & Hother).
  split; [exact Hm|].
  exact (proj1 (Hother 0%nat ltac:(lia))).
Defined.

Lemma functional_shapes_invariant_witness :
  wf_functional
    (functional_after
       [Evaluate 0 1; ActualizeRow [1; 1] 0; ActualizeRow [1; 1; 1] 1;
        Evaluate 7 7; Evaluate 1 2]
       (IntegralFunctional.G ex_G)).
Proof.
  apply (functional_shapes_invariant
           [Evaluate 0 1; ActualizeRow [1; 1] 0; ActualizeRow [1; 1; 1] 1;
            Evaluate 7 7; Evaluate 1 2]
           (IntegralFunctional.G ex_G)).
  shapes.
Defined.

Lemma actualize_row_composition_witness :
  functional_after [ActualizeRow [0; 0; 0] 1; ActualizeRow [1; 1; 1] 1]
    (IntegralFunctional.F ex_F)
  = functional_after [ActualizeRow [1; 1; 1] 1] (IntegralFunctional.F ex_F) ∧
  functional_after [ActualizeRow [0; 0; 0] 1; ActualizeRow [1; 1; 1] 2]
    (IntegralFunctional.F ex_F)
  = functional_after [ActualizeRow [1; 1; 1] 2; ActualizeRow [0; 0; 0] 1]
      (IntegralFunctional.F ex_F).
Proof.
  split.
  - apply (actualize_row_composition (IntegralFunctional.F ex_F)
             [0; 0; 0] [1; 1; 1] 1 1);
      [shapes|simpl; lia|simpl; lia|reflexivity|reflexivity].
  - apply (actualize_row_composition (IntegralFunctional.F ex_F)
             [0; 0; 0] [1; 1; 1] 1 2);
      [shapes|simpl; lia|simpl; lia|reflexivity|reflexivity|lia].
Defined.

Lemma solver_shapes_invariant_witness :
  wf_solver
    (solver_after
       [DoActualizeStep 0; DoActualizeRow [1; 1] 0; DoActualizeRow [1; 1; 1] 1;
        DoActualizeStep 5; DoActualizeStep 1]
       (Solver.R2 ex_R)).
Proof.
  apply (solver_shapes_invariant
           [DoActualizeStep 0; DoActualizeRow [1; 1] 0;
            DoActualizeRow [1; 1; 1] 1; DoActualizeStep 5; DoActualizeStep 1]
           (Solver.R2 ex_R)).
  shapes.
Defined.

Lemma step_idempotent_witness :
  AbstractDiscreteFunction.is_row_calculated (Solver.mask (Solver.U (ex_U 0))) 1
    = Ret false ∧
  Solver.actualize_step_np1 0
    (Solver.actualize_step_np1 0 (Solver.U (ex_U 0))).1.2
  = ((Solver.actualize_step_np1 0 (Solver.U (ex_U 0))).1.1,
     (Solver.actualize_step_np1 0 (Solver.U (ex_U 0))).1.2, []).
Proof.
  split; [reflexivity|].
  apply (step_idempotent (Solver.U (ex_U 0)) 0). shapes.
Defined.

Lemma step_after_row_update_witness :
  AbstractDiscreteFunction.is_row_calculated
    (Solver.mask (Solver.U ex_U_marked)) 1 = Ret true ∧
  Solver.actualize_step_np1 0
    (state_after (Solver.actualize_row [0; 0; 0] 0) (Solver.U ex_U_marked))
  = (Ret [0; 0; 0],
     state_after (Solver.actualize_row [0; 0; 0] 0) (Solver.U ex_U_marked), []).
Proof.
  split; [reflexivity|].
  apply (step_after_row_update (Solver.U ex_U_marked) [0; 0; 0] [0; 0; 0] 0);
    [shapes|simpl; lia|reflexivity|reflexivity|reflexivity].
Defined.

Lemma solver_actualize_row_effect_witness :
  Solver.companion
    (state_after (Solver.actualize_row [0; 0; 0] 0) (Solver.R1 ex_R)) !! 0%nat
  = Some [0; 0; 0] ∧
  AbstractDiscreteFunction.is_row_calculated
    (Solver.mask (state_after (Solver.actualize_row [0; 0; 0] 0) (Solver.R1 ex_R)))
    0 = Ret false.
Proof.
  destruct (solver_actualize_row_effect (Solver.R1 ex_R) [0; 0; 0] 0)
    as (_ & Hc & _ & _ & Hk & _); [shapes|simpl; lia|reflexivity|].
  split; [|exact Hk]. rewrite Hc. reflexivity.
Defined.

Lemma actualize_row_beyond_T_witness :
  IntegralFunctional.actualize_row [1; 1; 1] 3 (IntegralFunctional.G ex_G)
    = (Raise IndexError, IntegralFunctional.G ex_G, []) ∧
  Solver.actualize_row [1; 1; 1] 3 (Solver.U (ex_U 0))
    = (Raise IndexError, Solver.U (ex_U 0), []).
Proof.
  split.
  - apply (proj1 actualize_row_beyond_T (IntegralFunctional.G ex_G) [1; 1; 1]
             3%nat); [shapes|simpl; lia].
  - apply (proj2 actualize_row_beyond_T (Solver.U (ex_U 0)) [1; 1; 1] 3%nat);
      [shapes|simpl; lia].
Defined.

Lemma transition_matrix_row_sums_witness :
  ∃ Mn row,
    (SolverU.create_transition_matrix 0 (ex_U 0)).1.1 = Ret Mn ∧
    Mn !! 0%nat = Some row ∧
    Np.sum row
    = 1 + q 1 8 * (- 0 + 1 * default 0 (FunctionalF_row ex_F 0 !! 0%nat)).
Proof.
  exact (transition_matrix_row_sums (ex_U 0) 0 0 ltac:(shapes)
           ltac:(simpl; lia) ltac:(simpl; lia)).
Defined.

Lemma SolverU_nonnegative_witness :
  ∃ new s' l,
    SolverU.actualize_step_np1 0 (ex_U 0) = (Ret new, s', l) ∧
    AbstractSolver.u (AbstractSolverU.base s') !! 1%nat = Some new ∧
    Forall (fun v => 0 ≤ v) new.
Proof.
  apply (SolverU_nonnegative (ex_U 0) 0 [1; 1; 1]);
    [shapes|simpl; lia|reflexivity|reflexivity|by vm_compute| |nonneg].
  intros i Hi. simpl in Hi.
  destruct i as [|[|[|i]]]; [by vm_compute..|lia].
Defined.

Lemma SolverRMethod1_nonnegative_witness :
  ∃ new s' l,
    SolverRMethod1.actualize_step_np1 0 ex_R = (Ret new, s', l) ∧
    AbstractSolver.R (AbstractSolverR.base s') !! 1%nat = Some new ∧
    Forall (fun v => 0 ≤ v) new.
Proof.
  apply (SolverRMethod1_nonnegative ex_R 0 [1; 1; 1]);
    [shapes|simpl; lia|reflexivity|reflexivity|by vm_compute| |nonneg|nonneg].
  intros k Hk. simpl in Hk.
  destruct k as [|[|[|k]]]; [by vm_compute..|lia].
Defined.

Lemma SolverRMethod1_equilibrium_witness :
  ∃ s' l,
    SolverRMethod1.actualize_step_np1 0 ex_R_balanced = (Ret [1; 1; 1], s', l) ∧
    AbstractSolver.R (AbstractSolverR.base s') !! 1%nat = Some [1; 1; 1].
Proof.
  apply (SolverRMethod1_equilibrium ex_R_balanced 0 [1; 1; 1]);
    [shapes|simpl; lia|reflexivity|reflexivity|].
  intros k Hk. simpl in Hk.
  destruct k as [|[|[|k]]]; [apply Qc_is_canon; reflexivity..|lia].
Defined.

Lemma SolverU_stencil_witness :
  ∃ new s' l,
    SolverU.actualize_step_np1 0 (ex_U 0) = (Ret new, s', l) ∧
    length new = 3%nat ∧
    new !! 0%nat = Some (stencil (ex_U 0) (FunctionalF_row ex_F 0) [1; 1; 1] 0).
Proof.
  destruct (SolverU_stencil (ex_U 0) 0 [1; 1; 1])
    as (new & s' & l & Hstep & Hlen & Hrow);
    [shapes|simpl; lia|reflexivity|reflexivity|].
  exists new, s', l. split; [exact Hstep|]. split; [exact Hlen|].
  apply Hrow. simpl. lia.
Defined.

Lemma loop_call_trace_witness :
  ∃ s' l,
    loop Method2 2 (ex_solvers 0) = (Ret tt, s', l) ∧
    calls l = concat (iteration_calls s' <$> seq 0 2).
Proof.
  apply (loop_call_trace Method2 2 (ex_solvers 0));
    [apply ex_solvers_ready|simpl; lia].
Defined.

Lemma loop_quadrature_count_witness :
  quadrature_count (loop Method1 2 (ex_solvers 0)).2 = 12%nat.
Proof.
  apply (loop_quadrature_count Method1 2 (ex_solvers 0));
    [apply ex_solvers_ready|simpl; lia|].
  intros _. exact (constructed_G_unevaluated _ _ _ _ _ _ _ _ _ ex_R_constructed).
Defined.

Lemma loop_marks_witness :
  AbstractDiscreteFunction.is_row_calculated
    (AbstractSolverU.mask (solver_u (state_after (loop Method1 2) (ex_solvers 0))))
    1 = Ret false ∧
  AbstractDiscreteFunction.is_row_calculated
    (AbstractSolverU.mask (solver_u (state_after (loop Method1 2) (ex_solvers 0))))
    2 = Ret true.
Proof.
  destruct (loop_marks Method1 2 (ex_solvers 0)) as [Hu _];
    [apply ex_solvers_ready|simpl; lia|].
  split.
  - exact (Hu 1%nat ltac:(simpl; lia)).
  - exact (Hu 2%nat ltac:(simpl; lia)).
Defined.

Lemma loop_rows_final_witness :
  u_row (state_after (loop Method1 2) (ex_solvers 0)) 1
  = u_row (after_iterations Method1 1 (ex_solvers 0)) 1.
Proof.
  exact (proj1 (loop_rows_final Method1 2 1 1 (ex_solvers 0)
                  (ex_solvers_ready 0) ltac:(lia) ltac:(simpl; lia))).
Defined.

Lemma sample_shapes_witness :
  ∃ a,
    sample (fun _ => 1) (fun _ => 0) (fun _ => 1) (fun _ => 1) (fun _ => 0)
      (fun _ => 1) (fun _ _ => 1) (0, 1) (Some (0, 1)) 1 (Some 2%Z) = Ret a ∧
    length (s_x a) = 3%nat ∧ length (s_y a) = 4%nat ∧ shape 3 4 (s_K a).
Proof.
  eexists. split; [reflexivity|].
  destruct (sample_shapes (fun _ => 1) (fun _ => 0) (fun _ => 1) (fun _ => 1)
              (fun _ => 0) (fun _ => 1) (fun _ _ => 1) (0, 1) (Some (0, 1)) 1
              (Some 2%Z) _ eq_refl)
    as (_ & _ & _ & _ & Hx & _ & _ & _ & Hy & _ & _ & _ & HK).
  split; [exact Hx|]. split; [exact Hy|exact HK].
Defined.

Lemma solve_perthame_trace_witness :
  match solve_perthame (fun _ => 1) (fun _ => 0) (fun _ => 1) (fun _ => 1)
          (fun _ => 0) (fun _ => 0) (fun _ _ => 1) 0 None
          (0, 1) (Some (0, 1)) 1 (Some 1%Z) (q 1 10) (Some 1%nat) with
  | (Ret s, l) => quadrature_count (drop 2 l) = 6%nat
  | (Raise _, _) => False
  end.
Proof.
  destruct (solve_perthame (fun _ => 1) (fun _ => 0) (fun _ => 1) (fun _ => 1)
              (fun _ => 0) (fun _ => 0) (fun _ _ => 1) 0 None
              (0, 1) (Some (0, 1)) 1 (Some 1%Z) (q 1 10) (Some 1%nat))
    as [[s|e] l] eqn:E.
  - destruct (solve_perthame_trace _ _ _ _ _ _ _ _ _ _ _ _ _ _ _ s l E)
      as (M' & l' & EM & _ & _ & El & _ & Hq).
    injection EM as <-. rewrite El. exact Hq.
  - vm_compute in E. discriminate E.
Defined.
